(** * Nested-data flatten / unflatten of [cartridges/utils/wandb.py]

    A shallow embedding of the two functions [flatten] and [unflatten]
    (with its inner [convert_to_list]) and the theorems that settle what the
    specification says about them.

    Python values are modelled as a tree of scalars, lists and dictionaries;
    a dictionary is an association list in insertion order, the order Python
    iterates it in.  Exceptions are the [Raise] results of a small error
    monad.  Strings are ASCII text. *)

From Stdlib Require Import String Ascii List ZArith Lia Bool.
From Stdlib Require Import Decimal DecimalString DecimalZ DecimalPos.
Import ListNotations.

Local Open Scope string_scope.
Local Open Scope list_scope.

(** ** Exceptions *)

Inductive exn : Set :=
| AttributeError
| TypeError
| KeyError
| ValueError
| OverflowError.

Inductive pyresult (A : Type) : Type :=
| Ok (a : A)
| Raise (e : exn).

Arguments Ok {A} a.
Arguments Raise {A} e.

Definition bind {A B : Type} (c : pyresult A) (k : A -> pyresult B) : pyresult B :=
  match c with
  | Ok a => k a
  | Raise e => Raise e
  end.

Notation "x <- c ;; k" := (bind c (fun x => k))
  (at level 61, c at next level, right associativity).

(** [for x in l: ...] collecting results, the first exception wins. *)
Fixpoint mapM {A B : Type} (f : A -> pyresult B) (l : list A) : pyresult (list B) :=
  match l with
  | [] => Ok []
  | x :: r => y <- f x ;; ys <- mapM f r ;; Ok (y :: ys)
  end.

(** ** Values *)

(** A Python float: all the code asks of it is whether it is a NaN. *)
Inductive pyfloat : Set :=
| FNaN
| FInf (negative : bool)
| FFinite (mantissa exponent : Z).

Inductive scalar : Set :=
| SNone
| SBool (b : bool)
| SInt (z : Z)
| SFloat (f : pyfloat)
| SStr (s : string).

(** [isinstance(value, (np.float64, np.float32, float)) and np.isnan(value)] *)
Definition is_nan (s : scalar) : bool :=
  match s with
  | SFloat FNaN => true
  | _ => false
  end.

#[local] Unset Elimination Schemes.
Inductive value : Type :=
| VScalar (s : scalar)
| VList (l : list value)
| VDict (d : list (string * value)).
#[local] Set Elimination Schemes.

(** ** Dictionaries in insertion order *)

Section Dict.
Context {K V : Type} (keqb : K -> K -> bool).

Fixpoint dict_get (k : K) (d : list (K * V)) : option V :=
  match d with
  | [] => None
  | (k', v) :: r => if keqb k k' then Some v else dict_get k r
  end.

(** [d[k] = v]: an existing key keeps its position, a new one goes last. *)
Fixpoint dict_set (k : K) (v : V) (d : list (K * V)) : list (K * V) :=
  match d with
  | [] => [(k, v)]
  | (k', v') :: r =>
      if keqb k k' then (k', v) :: r else (k', v') :: dict_set k v r
  end.

(** [d.update(other)] *)
Definition dict_update (d other : list (K * V)) : list (K * V) :=
  fold_left (fun acc kv => dict_set (fst kv) (snd kv) acc) other d.

Definition keys (d : list (K * V)) : list K := map fst d.
End Dict.

(** Keys of a flat dictionary: a string, or [None] (what [flatten] uses for a
    scalar at the root). *)
Definition fkey : Type := option string.

Definition fkey_eqb (a b : fkey) : bool :=
  match a, b with
  | Some x, Some y => String.eqb x y
  | None, None => true
  | _, _ => false
  end.

Definition flat : Type := list (fkey * scalar).

(** ** [str(i)] and [int(s)] on integers *)

Definition py_str (z : Z) : string := NilEmpty.string_of_int (Z.to_int z).

(** ASCII white space, which [int] strips on both sides. *)
Definition is_space (c : ascii) : bool :=
  let n := nat_of_ascii c in
  ((9 <=? n)%nat && (n <=? 13)%nat) || (n =? 32)%nat.

Fixpoint lstrip (cs : list ascii) : list ascii :=
  match cs with
  | [] => []
  | c :: r => if is_space c then lstrip r else cs
  end.

Definition strip (cs : list ascii) : list ascii :=
  List.rev (lstrip (List.rev (lstrip cs))).

Definition digit_of (c : ascii) : option (uint -> uint) :=
  match c with
  | "0"%char => Some D0
  | "1"%char => Some D1
  | "2"%char => Some D2
  | "3"%char => Some D3
  | "4"%char => Some D4
  | "5"%char => Some D5
  | "6"%char => Some D6
  | "7"%char => Some D7
  | "8"%char => Some D8
  | "9"%char => Some D9
  | _ => None
  end.

Definition is_digit (c : ascii) : bool :=
  match digit_of c with
  | Some _ => true
  | None => false
  end.

(** Decimal digits, a single underscore allowed between two digits.
    [after_digit] says that the previous character was a digit. *)
Fixpoint parse_digits (after_digit : bool) (cs : list ascii) : option uint :=
  match cs with
  | [] => if after_digit then Some Nil else None
  | c :: r =>
      if Ascii.eqb c "_"
      then (if after_digit then parse_digits false r else None)
      else match digit_of c with
           | Some dg => option_map dg (parse_digits true r)
           | None => None
           end
  end.

(** [int(s)]: optional white space, an optional sign, digits; anything else
    is a [ValueError].  (The interpreter's optional cap on the number of
    digits is not modelled.) *)
Definition py_int (s : string) : pyresult Z :=
  let cs := strip (list_ascii_of_string s) in
  let '(negative, ds) :=
    match cs with
    | "+"%char :: r => (false, r)
    | "-"%char :: r => (true, r)
    | _ => (false, cs)
    end in
  match parse_digits false ds with
  | Some u => Ok (if negative then - Z.of_uint u else Z.of_uint u)%Z
  | None => Raise ValueError
  end.

(** ** [flatten] *)

(** [f"{parent_key}{sep}{k}" if parent_key is not None else k] *)
Definition new_key (sep : string) (parent_key : fkey) (k : string) : string :=
  match parent_key with
  | Some p => p ++ sep ++ k
  | None => k
  end.

Fixpoint flatten (sep : string) (parent_key : fkey) (data : value) : flat :=
  match data with
  | VList l =>
      (fix each (i : nat) (l : list value) (items : flat) : flat :=
         match l with
         | [] => items
         | v :: r =>
             let nk := new_key sep parent_key (py_str (Z.of_nat i)) in
             each (S i) r (dict_update fkey_eqb items (flatten sep (Some nk) v))
         end) 0%nat l []
  | VDict d =>
      (fix each (d : list (string * value)) (items : flat) : flat :=
         match d with
         | [] => items
         | (k, v) :: r =>
             let nk := new_key sep parent_key k in
             each r (dict_update fkey_eqb items (flatten sep (Some nk) v))
         end) d []
  | VScalar s => [(parent_key, s)]
  end.

(** ** [unflatten] *)

(** [key.split(".")] for a one-character separator: never the empty list. *)
Fixpoint split (c : ascii) (s : string) : list string :=
  match s with
  | EmptyString => [EmptyString]
  | String a s' =>
      if Ascii.eqb a c then EmptyString :: split c s'
      else match split c s' with
           | [] => [String a EmptyString]
           | x :: xs => String a x :: xs
           end
  end.

(** One round of the loop body, from the node [d] the walk has reached:
    [walk] are the parts still to walk ([parts[:-1]]), [last] is
    [parts[-1]].  The walk mutates the tree in place; here the updated node
    is returned and put back into its parent.  Every node the walk reaches
    that is not a dictionary makes [part not in d], [d[part] = {}] or
    [d = d[part]] raise a [TypeError]. *)
Fixpoint assign (walk : list string) (last : string) (v : scalar)
    (node : value) : pyresult value :=
  match walk with
  | [] =>
      if is_nan v then Ok node
      else match node with
           | VDict d => Ok (VDict (dict_set String.eqb last (VScalar v) d))
           | _ => Raise TypeError
           end
  | part :: rest =>
      match node with
      | VDict d =>
          let child :=
            match dict_get String.eqb part d with
            | Some c => c
            | None => VDict []
            end in
          child' <- assign rest last v child ;;
          Ok (VDict (dict_set String.eqb part child' d))
      | _ => Raise TypeError
      end
  end.

(** The body of [for key, value in d.items()]. *)
Definition step (result : value) (entry : fkey * scalar) : pyresult value :=
  match fst entry with
  | None => Raise AttributeError
  | Some key =>
      let parts := split "." key in
      assign (removelast parts) (last parts EmptyString) (snd entry) result
  end.

Fixpoint build (d : flat) (result : value) : pyresult value :=
  match d with
  | [] => Ok result
  | entry :: r => result' <- step result entry ;; build r result'
  end.

(** [keys.sort()] on integers. *)
Fixpoint insert_sorted (x : Z) (l : list Z) : list Z :=
  match l with
  | [] => [x]
  | y :: r => if (x <=? y)%Z then x :: l else y :: insert_sorted x r
  end.

Definition sort (l : list Z) : list Z := fold_right insert_sorted [] l.

(** [min(keys)], [max(keys)]: a [ValueError] on the empty list. *)
Definition py_min (l : list Z) : pyresult Z :=
  match l with
  | [] => Raise ValueError
  | x :: r => Ok (fold_left Z.min r x)
  end.

Definition py_max (l : list Z) : pyresult Z :=
  match l with
  | [] => Raise ValueError
  | x :: r => Ok (fold_left Z.max r x)
  end.

(** The integers of [range(lo, hi)], in order. *)
Definition py_range (lo hi : Z) : list Z :=
  map (fun i => (lo + Z.of_nat i)%Z) (seq 0 (Z.to_nat (hi - lo))).

(** [sys.maxsize] of a 64-bit CPython, the largest length a list can have. *)
Definition max_size : Z := 9223372036854775807.

(** [list(range(lo, hi))]: the list is built in full, and asking a range of
    more than [sys.maxsize] integers for its length is an [OverflowError].
    (A range that fits [sys.maxsize] and not the memory of the machine is a
    [MemoryError]; the memory is taken to be large enough.) *)
Definition py_list_range (lo hi : Z) : pyresult (list Z) :=
  if (max_size <? hi - lo)%Z then Raise OverflowError else Ok (py_range lo hi).

Definition list_Z_eqb (a b : list Z) : bool :=
  if list_eq_dec Z.eq_dec a b then true else false.

(** [d[k]] *)
Definition getitem {V : Type} (d : list (string * V)) (k : string) : pyresult V :=
  match dict_get String.eqb k d with
  | Some v => Ok v
  | None => Raise KeyError
  end.

(** The body of the [try]: [Some l] is [return l], [None] leaves the block
    without returning. *)
Definition try_block (d : list (string * value)) : pyresult (option (list value)) :=
  ks <- mapM py_int (keys d) ;;
  let ks := sort ks in
  lo <- py_min ks ;;
  hi <- py_max ks ;;
  range <- py_list_range lo (hi + 1) ;;
  if list_Z_eqb ks range
  then l <- mapM (fun k => getitem d (py_str k)) ks ;; Ok (Some l)
  else Ok None.

Fixpoint convert_to_list (d : value) : pyresult value :=
  match d with
  | VDict items =>
      let comprehension :=
        items' <- (fix each (l : list (string * value)) : pyresult (list (string * value)) :=
                     match l with
                     | [] => Ok []
                     | (k, v) :: r =>
                         v' <- convert_to_list v ;;
                         r' <- each r ;;
                         Ok ((k, v') :: r')
                     end) items ;;
        Ok (VDict items') in
      match try_block items with
      | Ok (Some l) => Ok (VList l)
      | Ok None => comprehension
      | Raise ValueError => comprehension
      | Raise e => Raise e
      end
  | _ => Ok d
  end.

Definition unflatten (d : flat) : pyresult value :=
  result <- build d (VDict []) ;;
  convert_to_list result.

(** ** Reading a value as a tree of paths *)

(** The entries of a sequence under the decimal rendering of their
    zero-based positions, from position [i] on. *)
Fixpoint indexed {A : Type} (i : nat) (l : list A) : list (string * A) :=
  match l with
  | [] => []
  | x :: r => (py_str (Z.of_nat i), x) :: indexed (S i) r
  end.

(** The body shared by the two loops of [flatten]. *)
Definition flatten_items (sep : string) (parent_key : fkey)
    (entries : list (string * value)) (items : flat) : flat :=
  fold_left
    (fun items kv =>
       dict_update fkey_eqb items
         (flatten sep (Some (new_key sep parent_key (fst kv))) (snd kv)))
    entries items.

(** The mapping-only tree [unflatten] builds before its conversion pass:
    every sequence read as the mapping from its positions. *)
Fixpoint raw (v : value) : value :=
  match v with
  | VScalar s => VScalar s
  | VList l => VDict (indexed 0 (map raw l))
  | VDict d => VDict (map (fun kv => (fst kv, raw (snd kv))) d)
  end.

(** The scalar leaves of a value, each with its path from the root. *)
Fixpoint leaves (v : value) : list (list string * scalar) :=
  match v with
  | VScalar s => [([], s)]
  | VList l =>
      (fix each (i : nat) (l : list value) :=
         match l with
         | [] => []
         | x :: r =>
             map (fun ps => (py_str (Z.of_nat i) :: fst ps, snd ps)) (leaves x)
             ++ each (S i) r
         end) 0%nat l
  | VDict d =>
      (fix each (d : list (string * value)) :=
         match d with
         | [] => []
         | (k, x) :: r =>
             map (fun ps => (k :: fst ps, snd ps)) (leaves x) ++ each r
         end) d
  end.

Fixpoint count_leaves (v : value) : nat :=
  match v with
  | VScalar _ => 1
  | VList l => fold_right (fun x n => count_leaves x + n) 0 l
  | VDict d => fold_right (fun kv n => count_leaves (snd kv) + n) 0 d
  end%nat.

(** The flat key of a path below [parent_key]. *)
Definition path_key (sep : string) (parent_key : fkey) (path : list string) : fkey :=
  fold_left (fun acc seg => Some (new_key sep acc seg)) path parent_key.

Fixpoint has_char (c : ascii) (s : string) : bool :=
  match s with
  | EmptyString => false
  | String a r => Ascii.eqb a c || has_char c r
  end.

Definition no_dot (s : string) : bool := negb (has_char "." s).

(** The node at a path of a tree. *)
Fixpoint get_path (path : list string) (t : value) : option value :=
  match path with
  | [] => Some t
  | part :: rest =>
      match t with
      | VDict d =>
          match dict_get String.eqb part d with
          | Some c => get_path rest c
          | None => None
          end
      | _ => None
      end
  end.

(** ** Induction on values *)

Section ValueInd.
Variable P : value -> Prop.
Hypothesis P_scalar : forall s, P (VScalar s).
Hypothesis P_list : forall l, Forall P l -> P (VList l).
Hypothesis P_dict : forall d, Forall (fun kv => P (snd kv)) d -> P (VDict d).

Fixpoint value_ind (v : value) : P v :=
  match v with
  | VScalar s => P_scalar s
  | VList l =>
      P_list l
        ((fix all (l : list value) : Forall P l :=
            match l with
            | [] => Forall_nil _
            | x :: r => Forall_cons x (value_ind x) (all r)
            end) l)
  | VDict d =>
      P_dict d
        ((fix all (d : list (string * value)) : Forall (fun kv => P (snd kv)) d :=
            match d with
            | [] => Forall_nil _
            | kv :: r => Forall_cons kv (value_ind (snd kv)) (all r)
            end) d)
  end.
End ValueInd.

(** The leaves below the entries of a container. *)
Definition leaves_items (entries : list (string * value)) : list (list string * scalar) :=
  flat_map
    (fun kv => map (fun ps => (fst kv :: fst ps, snd ps)) (leaves (snd kv)))
    entries.

Definition raw_items (entries : list (string * value)) : list (string * value) :=
  map (fun kv => (fst kv, raw (snd kv))) entries.

(** The paths of the leaves. *)
Definition paths (v : value) : list (list string) := map fst (leaves v).

Definition paths_items (es : list (string * value)) : list (list string) :=
  map fst (leaves_items es).

(** The flat entry [flatten] makes of a leaf. *)
Definition leaf_entry (sep : string) (parent_key : fkey)
    (ps : list string * scalar) : fkey * scalar :=
  (path_key sep parent_key (fst ps), snd ps).

(** What [flatten] does to a key of a value's flattening when the value sits
    under the key [p]: it puts [p] and the separator in front (the key [None]
    of a scalar becomes [p] itself). *)
Definition prefix_key (sep p : string) (k : fkey) : fkey :=
  match k with
  | Some q => Some (p ++ sep ++ q)%string
  | None => Some p
  end.

Definition prefix_entry (sep p : string) (e : fkey * scalar) : fkey * scalar :=
  (prefix_key sep p (fst e), snd e).

(** The loop of [unflatten] on entries given by their paths. *)
Definition assign_path (path : list string) (v : scalar) (node : value) : pyresult value :=
  assign (removelast path) (last path EmptyString) v node.

Fixpoint assign_all (ls : list (list string * scalar)) (node : value) : pyresult value :=
  match ls with
  | [] => Ok node
  | ps :: r => node' <- assign_path (fst ps) (snd ps) node ;; assign_all r node'
  end.

(** The dictionary comprehension of [convert_to_list]. *)
Definition convert_items (items : list (string * value))
  : pyresult (list (string * value)) :=
  mapM (fun kv => v' <- convert_to_list (snd kv) ;; Ok (fst kv, v')) items.

(** ** Conditions on values *)

Fixpoint distinct (l : list string) : bool :=
  match l with
  | [] => true
  | x :: r => negb (existsb (String.eqb x) r) && distinct r
  end.

(** A Python dictionary has each key once. *)
Fixpoint unique_keys (v : value) : bool :=
  match v with
  | VScalar _ => true
  | VList l => forallb unique_keys l
  | VDict d => distinct (keys d) && forallb (fun kv => unique_keys (snd kv)) d
  end.

(** No mapping key contains the delimiter. *)
Fixpoint dot_free_keys (v : value) : bool :=
  match v with
  | VScalar _ => true
  | VList l => forallb dot_free_keys l
  | VDict d => forallb no_dot (keys d) && forallb (fun kv => dot_free_keys (snd kv)) d
  end.

(** The keys all parse as integers and, sorted, are the range from their
    minimum to their maximum. *)
Definition list_like (ks : list string) : bool :=
  match mapM py_int ks with
  | Ok zs =>
      let zs := sort zs in
      match py_min zs, py_max zs with
      | Ok lo, Ok hi => list_Z_eqb zs (py_range lo (hi + 1))
      | _, _ => false
      end
  | Raise _ => false
  end.

Definition nonempty {A : Type} (l : list A) : bool :=
  match l with
  | [] => false
  | _ :: _ => true
  end.

(** No NaN and no empty container at or below the value. *)
Fixpoint solid (v : value) : bool :=
  match v with
  | VScalar s => negb (is_nan s)
  | VList l => nonempty l && forallb solid l
  | VDict d => nonempty d && forallb (fun kv => solid (snd kv)) d
  end.

(** [int(k)] returns. *)
Definition parses_as_int (k : string) : bool :=
  match py_int k with
  | Ok _ => true
  | Raise _ => false
  end.

(** Some key is no integer: the [try] of [convert_to_list] ends at [int(k)]
    and never builds a range. *)
Definition has_other_key (ks : list string) : bool :=
  existsb (fun k => negb (parses_as_int k)) ks.

(** A length a Python list can have. *)
Definition fits {A : Type} (l : list A) : bool :=
  (Z.of_nat (length l) <=? max_size)%Z.

(** What a value below the root needs for [unflatten] to give it back: no
    NaN, no empty container, no mapping whose keys all parse as integers,
    and ([in_seq]) no sequence inside an element of a sequence. *)
Fixpoint restorable (in_seq : bool) (v : value) : bool :=
  match v with
  | VScalar s => negb (is_nan s)
  | VList l => negb in_seq && nonempty l && fits l && forallb (restorable true) l
  | VDict d =>
      nonempty d && has_other_key (keys d)
      && forallb (fun kv => restorable in_seq (snd kv)) d
  end.

(** The same at the root, which may be the empty mapping and is no scalar. *)
Definition round_trip_ready (v : value) : bool :=
  match v with
  | VScalar _ => false
  | VDict [] => true
  | _ => restorable false v && unique_keys v && dot_free_keys v
  end.

Fixpoint no_nan (v : value) : bool :=
  match v with
  | VScalar s => negb (is_nan s)
  | VList l => forallb no_nan l
  | VDict d => forallb (fun kv => no_nan (snd kv)) d
  end.

(** Every node of a tree is a mapping. *)
Fixpoint mappings_only (t : value) : bool :=
  match t with
  | VDict d => forallb (fun kv => mappings_only (snd kv)) d
  | _ => false
  end.

(** A container at the root whose content is [solid]. *)
Definition solid_root (v : value) : bool :=
  match v with
  | VScalar _ => false
  | VList l => forallb solid l
  | VDict d => forallb (fun kv => solid (snd kv)) d
  end.

(** [p] is an initial segment of [q]. *)
Fixpoint is_prefix (p q : list string) : bool :=
  match p, q with
  | [], _ => true
  | x :: p', y :: q' => String.eqb x y && is_prefix p' q'
  | _ :: _, [] => false
  end.

Definition is_mapping (x : value) : bool :=
  match x with
  | VDict _ => true
  | _ => false
  end.

(** Some node on the way along [walk], the first and the last included, is
    there and is no mapping. *)
Fixpoint blocked (walk : list string) (n : value) : bool :=
  match n with
  | VDict d =>
      match walk with
      | [] => false
      | part :: rest =>
          match dict_get String.eqb part d with
          | Some c => blocked rest c
          | None => false
          end
      end
  | _ => true
  end.

(** The path down to the last node the loop body needs to be a mapping for
    the entry with the key parts [parts] and the value [v]: the node the
    walk ends in when [v] is assigned, the one before it when [v] is a NaN
    and nothing is assigned. *)
Definition needed (v : scalar) (parts : list string) : list string :=
  if is_nan v then removelast (removelast parts) else removelast parts.

(** No entry needs a mapping at or below the path of an entry assigned
    before it ([seen] holds those paths), and every key is a string. *)
Fixpoint unobstructed (seen : list (list string)) (d : flat) : bool :=
  match d with
  | [] => true
  | (None, _) :: _ => false
  | (Some key, v) :: r =>
      let parts := split "." key in
      forallb (fun p => negb (is_prefix p (needed v parts))) seen
      && unobstructed (if is_nan v then seen else parts :: seen) r
  end.

(** ** Pieces of [fetch_wandb_runs] *)

(** [s.rfind(c)]: the last position of [c] in [s], [-1] when there is none. *)
Fixpoint rfind (c : ascii) (s : string) : Z :=
  match s with
  | EmptyString => (-1)%Z
  | String a r =>
      let i := rfind c r in
      if (0 <=? i)%Z then (i + 1)%Z
      else if Ascii.eqb a c then 0%Z else (-1)%Z
  end.

(** [s[i:]] and [s[:i]] for a position [i] counted from the start. *)
Fixpoint string_from (i : nat) (s : string) : string :=
  match i, s with
  | O, _ => s
  | S i', String _ r => string_from i' r
  | S _, EmptyString => EmptyString
  end.

Fixpoint string_to (i : nat) (s : string) : string :=
  match i, s with
  | O, _ => EmptyString
  | S i', String a r => String a (string_to i' r)
  | S _, EmptyString => EmptyString
  end.

(** [os.path.split(p)[-1]] under POSIX: [p[i:]] for [i = p.rfind("/") + 1]. *)
Definition path_tail (p : string) : string :=
  string_from (Z.to_nat (rfind "/" p + 1)) p.

(** The run ids put under [filters["name"]["$in"]]. *)
Definition run_id_filter (wandb_run_ids : list string) : list string :=
  map path_tail wandb_run_ids.

(** What the loop reads of a run. *)
Record wandb_run : Type := {
  run_id : string;
  run_name : string;
  run_project : string;
  run_user_name : string;
  run_state : string;
  run_config : value
}.

(** The dictionary [data] of one run: the five fields, then
    [**flatten(run.config)], then [**flatten(summary)]. *)
Definition row_data (run : wandb_run) (summary : value) : flat :=
  dict_update fkey_eqb
    (dict_update fkey_eqb
       [(Some "wandb_run_id", SStr (run_id run));
        (Some "name", SStr (run_name run));
        (Some "project", SStr (run_project run));
        (Some "user", SStr (run_user_name run));
        (Some "state", SStr (run_state run))]
       (flatten "." None (run_config run)))
    (flatten "." None summary).

(** ** Pieces of [fetch_wandb_table] *)

(** The exceptions of [exn], and [IndexError]. *)
Inductive exn_ext : Set :=
| Exn (e : exn)
| IndexError.

(** [s.endswith(suffix)] *)
Definition ends_with (suffix s : string) : bool :=
  (String.length suffix <=? String.length s)%nat
  && String.eqb (string_from (String.length s - String.length suffix) s) suffix.

(** The list [artifact_ids]; [version_ids] are the versions the service
    lists for the artifact, in the order it lists them. *)
Definition artifact_ids (entity project_name artifact_id versions : string)
    (version_ids : list string) : list string + exn_ext :=
  let artifact_id := (entity ++ "/" ++ project_name ++ "/" ++ artifact_id)%string in
  if negb (has_char ":" artifact_id) then
    if String.eqb versions "latest" then
      match version_ids with
      | [] => inr IndexError
      | v :: _ => inl [(artifact_id ++ ":" ++ v)%string]
      end
    else if String.eqb versions "all" then
      inl (map (fun v => (artifact_id ++ ":" ++ v)%string) version_ids)
    else inr (Exn ValueError)
  else inl [artifact_id].

(** [os.path.join(a, b)] under POSIX. *)
Definition path_join (a b : string) : string :=
  if String.prefix "/" b then b
  else if String.eqb a EmptyString || ends_with "/" a then (a ++ b)%string
  else (a ++ "/" ++ b)%string.

(** The search of [process_artifact] over the triples of [os.walk]: [None]
    is the case that raises the [ValueError]. *)
Fixpoint table_path (walk : list (string * list string * list string))
  : option string :=
  match walk with
  | [] => None
  | (root, _, files) :: rest =>
      if existsb (fun file => String.eqb file "table.table.json") files
      then Some (path_join root "table.table.json")
      else table_path rest
  end.

(** ** [MMLUGenerateDataset.score], on strings as lists of characters *)

(** White space as [str.strip] sees it. *)
Definition is_space_str (c : ascii) : bool :=
  let n := nat_of_ascii c in
  ((9 <=? n)%nat && (n <=? 13)%nat) || ((28 <=? n)%nat && (n <=? 32)%nat).

Fixpoint lstrip_str (cs : list ascii) : list ascii :=
  match cs with
  | [] => []
  | c :: r => if is_space_str c then lstrip_str r else cs
  end.

Definition str_strip (cs : list ascii) : list ascii :=
  List.rev (lstrip_str (List.rev (lstrip_str cs))).

Fixpoint startswith (p s : list ascii) : bool :=
  match p, s with
  | [], _ => true
  | x :: p', y :: s' => Ascii.eqb x y && startswith p' s'
  | _ :: _, [] => false
  end.

Definition best_answer : list ascii := list_ascii_of_string "The best answer is".

(** The first component of what [score] returns (the second is always the
    empty dictionary). *)
Definition score (pred answer : list ascii) : bool + exn_ext :=
  if (length (str_strip pred) =? 0)%nat then inl false
  else
    let pred :=
      if startswith best_answer (str_strip pred)
      then str_strip (skipn (length best_answer) (str_strip pred))
      else pred in
    match str_strip pred with
    | [] => inr IndexError
    | p0 :: _ =>
        match str_strip answer with
        | [] => inr IndexError
        | a0 :: _ => inl (Ascii.eqb p0 a0)
        end
    end.

(** ** The predictions of [MtobGenerateDataset.batch_score_with_answers] *)

Definition eot_id : string := "<|eot_id|>".

Definition strip_eot (d : string) : string :=
  if ends_with eot_id d
  then string_to (String.length d - String.length eot_id) d
  else d.

Definition predictions (decoded : list string) : list string :=
  map strip_eot decoded.

(** A key that, if it parses as an integer, is the decimal rendering of a
    position a list can have (as ["7"] is, and ["07"], ["+7"], [" 7"] and
    ["-3"] are not). *)
Definition position_key (k : string) : bool :=
  match py_int k with
  | Ok z => String.eqb (py_str z) k && (0 <=? z)%Z && (z <? max_size)%Z
  | Raise _ => true
  end.

Fixpoint position_keys (v : value) : bool :=
  match v with
  | VScalar _ => true
  | VList l => forallb position_keys l
  | VDict d =>
      forallb position_key (keys d)
      && forallb (fun kv => position_keys (snd kv)) d
  end.

(** No key of a mapping parses as an integer, and no sequence is longer than
    a list can be. *)
Fixpoint plain_keys (v : value) : bool :=
  match v with
  | VScalar _ => true
  | VList l => fits l && forallb plain_keys l
  | VDict d =>
      forallb (fun k => negb (parses_as_int k)) (keys d)
      && forallb (fun kv => plain_keys (snd kv)) d
  end.

Definition is_container (v : value) : bool :=
  match v with
  | VScalar _ => false
  | _ => true
  end.

(** * Properties *)

(** ** Strings and splitting *)

Lemma split_not_nil (c : ascii) (s : string) : split c s <> [].
Proof.
  induction s as [|a s IH]; simpl; [discriminate|].
  destruct (Ascii.eqb a c); [discriminate|].
  destruct (split c s); [contradiction|discriminate].
Qed.

Lemma split_no_sep (c : ascii) (s : string) :
  has_char c s = false -> split c s = [s].
Proof.
  induction s as [|a s IH]; simpl; intros H; [reflexivity|].
  apply orb_false_iff in H as [Ha Hs].
  rewrite Ha, (IH Hs). reflexivity.
Qed.

Lemma split_snoc (c : ascii) (p k : string) :
  has_char c k = false ->
  split c (p ++ String c k) = split c p ++ [k].
Proof.
  intros Hk. induction p as [|a p IH]; simpl.
  - rewrite Ascii.eqb_refl, (split_no_sep c k Hk). reflexivity.
  - destruct (Ascii.eqb a c).
    + rewrite IH. reflexivity.
    + rewrite IH. destruct (split c p) eqn:E.
      * exfalso. exact (split_not_nil c p E).
      * reflexivity.
Qed.

Lemma has_char_app (c : ascii) (a b : string) :
  has_char c (a ++ b) = has_char c a || has_char c b.
Proof.
  induction a as [|x a IH]; simpl; [reflexivity|].
  rewrite IH, orb_assoc. reflexivity.
Qed.

Lemma string_app_assoc (a b c : string) : ((a ++ b) ++ c = a ++ (b ++ c))%string.
Proof. induction a as [|x a IH]; simpl; [reflexivity|now rewrite IH]. Qed.

Lemma string_app_inv_head (a b c : string) : (a ++ b = a ++ c)%string -> b = c.
Proof.
  induction a as [|x a IH]; simpl; intros H; [exact H|].
  injection H as H. exact (IH H).
Qed.

(** ** [int(str(z)) = z] *)

Lemma is_digit_facts (c : ascii) :
  is_digit c = true ->
  is_space c = false /\ Ascii.eqb c "_" = false /\ Ascii.eqb c "." = false
  /\ c <> "+"%char /\ c <> "-"%char.
Proof.
  destruct c as [[] [] [] [] [] [] [] []]; cbv; intros H;
    try discriminate H; repeat split; discriminate.
Qed.

Lemma digits_are_digits (d : uint) :
  Forall (fun c => is_digit c = true)
    (list_ascii_of_string (NilEmpty.string_of_uint d)).
Proof. induction d; simpl; constructor; auto. Qed.

Lemma parse_digits_after (d : uint) :
  parse_digits true (list_ascii_of_string (NilEmpty.string_of_uint d)) = Some d.
Proof. induction d; simpl; try rewrite IHd; reflexivity. Qed.

Lemma parse_digits_string_of_uint (d : uint) :
  d <> Nil ->
  parse_digits false (list_ascii_of_string (NilEmpty.string_of_uint d)) = Some d.
Proof.
  destruct d; intros H; try contradiction; simpl;
    rewrite parse_digits_after; reflexivity.
Qed.

Lemma lstrip_id (cs : list ascii) :
  Forall (fun c => is_space c = false) cs -> lstrip cs = cs.
Proof. intros H. destruct H as [|c r Hc _]; simpl; [|rewrite Hc]; reflexivity. Qed.

Lemma strip_id (cs : list ascii) :
  Forall (fun c => is_space c = false) cs -> strip cs = cs.
Proof.
  intros H. unfold strip. rewrite (lstrip_id cs H).
  rewrite lstrip_id by (apply Forall_rev; exact H).
  apply rev_involutive.
Qed.

Lemma digits_no_space (d : uint) :
  Forall (fun c => is_space c = false)
    (list_ascii_of_string (NilEmpty.string_of_uint d)).
Proof.
  eapply Forall_impl; [|apply digits_are_digits].
  intros c Hc. apply is_digit_facts, Hc.
Qed.

Lemma py_int_digits (d : uint) :
  d <> Nil -> py_int (NilEmpty.string_of_uint d) = Ok (Z.of_uint d).
Proof.
  intros Hd. unfold py_int. rewrite strip_id by apply digits_no_space.
  pose proof (parse_digits_string_of_uint d Hd) as Hp.
  pose proof (digits_are_digits d) as Hall.
  destruct (list_ascii_of_string (NilEmpty.string_of_uint d)) as [|c r] eqn:E.
  - simpl in Hp. discriminate.
  - inversion Hall as [|? ? Hc _]; subst.
    destruct (is_digit_facts c Hc) as (_ & _ & _ & Hplus & Hminus).
    assert (Hsign :
      match c :: r with
      | "+"%char :: r0 => (false, r0)
      | "-"%char :: r0 => (true, r0)
      | _ => (false, c :: r)
      end = (false, c :: r)).
    { clear - Hc. destruct c as [[] [] [] [] [] [] [] []];
        try reflexivity; discriminate Hc. }
    rewrite Hsign, Hp. reflexivity.
Qed.

Lemma py_int_minus_digits (d : uint) :
  d <> Nil ->
  py_int (String "-" (NilEmpty.string_of_uint d)) = Ok (- Z.of_uint d)%Z.
Proof.
  intros Hd. unfold py_int. cbn [list_ascii_of_string].
  rewrite strip_id.
  - rewrite (parse_digits_string_of_uint d Hd). reflexivity.
  - constructor; [reflexivity|apply digits_no_space].
Qed.

Lemma py_int_str (z : Z) : py_int (py_str z) = Ok z.
Proof.
  unfold py_str. destruct z as [|p|p]; cbn [Z.to_int NilEmpty.string_of_int].
  - reflexivity.
  - rewrite py_int_digits by apply Unsigned.to_uint_nonnil.
    unfold Z.of_uint. rewrite Unsigned.of_to. reflexivity.
  - rewrite py_int_minus_digits by apply Unsigned.to_uint_nonnil.
    unfold Z.of_uint. rewrite Unsigned.of_to. reflexivity.
Qed.

Lemma py_str_inj (a b : Z) : py_str a = py_str b -> a = b.
Proof.
  intros H. pose proof (py_int_str a) as Ha. rewrite H, py_int_str in Ha.
  now injection Ha.
Qed.

Lemma has_char_digits (d : uint) :
  has_char "." (NilEmpty.string_of_uint d) = false.
Proof. induction d; simpl; auto. Qed.

Lemma py_str_no_dot (z : Z) : no_dot (py_str z) = true.
Proof.
  unfold no_dot, py_str.
  destruct (Z.to_int z); cbn [NilEmpty.string_of_int has_char];
    rewrite ?has_char_digits; reflexivity.
Qed.

(** ** Dictionaries *)

Section DictFacts.
Context {K V : Type} (keqb : K -> K -> bool).
Hypothesis keqb_eq : forall a b, keqb a b = true <-> a = b.

Lemma keqb_neq (a b : K) : a <> b -> keqb a b = false.
Proof.
  intros H. destruct (keqb a b) eqn:E; [|reflexivity].
  apply keqb_eq in E. contradiction.
Qed.

Lemma keqb_refl (a : K) : keqb a a = true.
Proof. now apply keqb_eq. Qed.

Lemma dict_get_fresh (k : K) (d : list (K * V)) :
  ~ In k (keys d) -> dict_get keqb k d = None.
Proof.
  induction d as [|[k' v'] d IH]; simpl; intros H; [reflexivity|].
  rewrite keqb_neq by (intros ->; apply H; now left).
  apply IH. intros Hin. apply H. now right.
Qed.

Lemma dict_set_fresh (k : K) (v : V) (d : list (K * V)) :
  ~ In k (keys d) -> dict_set keqb k v d = d ++ [(k, v)].
Proof.
  induction d as [|[k' v'] d IH]; simpl; intros H; [reflexivity|].
  rewrite keqb_neq by (intros ->; apply H; now left).
  rewrite IH; [reflexivity|]. intros Hin. apply H. now right.
Qed.

Lemma dict_get_last (k : K) (c : V) (d : list (K * V)) :
  ~ In k (keys d) -> dict_get keqb k (d ++ [(k, c)]) = Some c.
Proof.
  induction d as [|[k' v'] d IH]; simpl; intros H.
  - now rewrite keqb_refl.
  - rewrite keqb_neq by (intros ->; apply H; now left).
    apply IH. intros Hin. apply H. now right.
Qed.

Lemma dict_set_last (k : K) (c c' : V) (d : list (K * V)) :
  ~ In k (keys d) -> dict_set keqb k c' (d ++ [(k, c)]) = d ++ [(k, c')].
Proof.
  induction d as [|[k' v'] d IH]; simpl; intros H.
  - now rewrite keqb_refl.
  - rewrite keqb_neq by (intros ->; apply H; now left).
    rewrite IH; [reflexivity|]. intros Hin. apply H. now right.
Qed.

Lemma dict_update_fresh (other d : list (K * V)) :
  NoDup (keys d ++ keys other) -> dict_update keqb d other = d ++ other.
Proof.
  unfold dict_update. revert d.
  induction other as [|[k v] other IH]; intros d H; simpl.
  - now rewrite app_nil_r.
  - simpl in H. rewrite dict_set_fresh.
    + rewrite IH.
      * now rewrite <- app_assoc.
      * unfold keys in *. rewrite map_app, <- app_assoc. exact H.
    + apply NoDup_remove_2 in H. intros Hin. apply H.
      apply in_or_app. now left.
Qed.

Lemma keys_dict_set (k : K) (v : V) (d : list (K * V)) :
  forall x, In x (keys (dict_set keqb k v d)) -> x = k \/ In x (keys d).
Proof.
  induction d as [|[k' v'] d IH]; simpl; intros x H.
  - destruct H as [<-|[]]. now left.
  - destruct (keqb k k'); simpl in H.
    + right. exact H.
    + destruct H as [<-|H]; [right; now left|].
      destruct (IH x H) as [->|Hin]; [now left|right; now right].
Qed.

Lemma keys_dict_update (other d : list (K * V)) :
  forall x, In x (keys (dict_update keqb d other)) ->
            In x (keys d) \/ In x (keys other).
Proof.
  unfold dict_update. revert d.
  induction other as [|[k v] other IH]; intros d x H; simpl in *.
  - now left.
  - destruct (IH _ x H) as [Hin|Hin].
    + destruct (keys_dict_set _ _ _ _ Hin) as [->|Hd];
        [right; now left|now left].
    + right. now right.
Qed.
End DictFacts.

Lemma fkey_eqb_eq (a b : fkey) : fkey_eqb a b = true <-> a = b.
Proof.
  destruct a as [x|], b as [y|]; simpl; split; intros H;
    try discriminate; try reflexivity.
  - apply String.eqb_eq in H. now subst.
  - injection H as ->. apply String.eqb_refl.
Qed.

Lemma distinct_NoDup (l : list string) : distinct l = true <-> NoDup l.
Proof.
  induction l as [|x l IH]; simpl.
  - split; [constructor|reflexivity].
  - rewrite andb_true_iff, negb_true_iff, IH. split.
    + intros [Hx Hl]. constructor; [|exact Hl].
      intros Hin. assert (existsb (String.eqb x) l = true) as E.
      { apply existsb_exists. exists x. split; [exact Hin|apply String.eqb_refl]. }
      rewrite E in Hx. discriminate.
    + intros H. inversion H as [|? ? Hx Hl]; subst. split; [|exact Hl].
      destruct (existsb (String.eqb x) l) eqn:E; [|reflexivity].
      apply existsb_exists in E as (y & Hy & Hxy).
      apply String.eqb_eq in Hxy. subst. contradiction.
Qed.

(** ** The two loops of [flatten] *)

Lemma flatten_list_eq (sep : string) (pk : fkey) (l : list value) :
  flatten sep pk (VList l) = flatten_items sep pk (indexed 0 l) [].
Proof.
  simpl. generalize (@nil (fkey * scalar)) as items. generalize 0%nat as i.
  induction l as [|x l IH]; intros i items; [reflexivity|].
  simpl. rewrite IH. reflexivity.
Qed.

Lemma flatten_dict_eq (sep : string) (pk : fkey) (d : list (string * value)) :
  flatten sep pk (VDict d) = flatten_items sep pk d [].
Proof.
  simpl. generalize (@nil (fkey * scalar)) as items.
  induction d as [|[k x] d IH]; intros items; [reflexivity|].
  simpl. rewrite IH. reflexivity.
Qed.

Lemma leaves_list_eq (l : list value) :
  leaves (VList l) = leaves_items (indexed 0 l).
Proof.
  simpl. generalize 0%nat as i.
  induction l as [|x l IH]; intros i; [reflexivity|].
  unfold leaves_items in *. simpl. rewrite IH. reflexivity.
Qed.

Lemma leaves_dict_eq (d : list (string * value)) :
  leaves (VDict d) = leaves_items d.
Proof.
  simpl. induction d as [|[k x] d IH]; [reflexivity|].
  unfold leaves_items in *. simpl. rewrite IH. reflexivity.
Qed.

Lemma Forall_indexed {A : Type} (P : A -> Prop) (l : list A) (i : nat) :
  Forall P l -> Forall (fun kv => P (snd kv)) (indexed i l).
Proof.
  intros H. revert i. induction H; intros i; simpl; constructor; auto.
Qed.

(** ** Keys and paths *)

Lemma split_path_key (path : list string) (p : string) :
  Forall (fun s => no_dot s = true) path ->
  exists key, path_key "." (Some p) path = Some key
              /\ split "." key = split "." p ++ path.
Proof.
  unfold path_key. intros H. revert p.
  induction H as [|s path Hs _ IH]; intros p; simpl.
  - exists p. split; [reflexivity|now rewrite app_nil_r].
  - destruct (IH (p ++ "." ++ s)%string) as (key & Hk & Hsplit).
    exists key. split; [exact Hk|].
    rewrite Hsplit. simpl. rewrite split_snoc.
    + now rewrite <- app_assoc.
    + unfold no_dot in Hs. now apply negb_true_iff in Hs.
Qed.

Lemma split_path_key_root (s : string) (path : list string) :
  Forall (fun s => no_dot s = true) (s :: path) ->
  exists key, path_key "." None (s :: path) = Some key
              /\ split "." key = s :: path.
Proof.
  intros H. inversion H as [|? ? Hs Hp]; subst.
  destruct (split_path_key path s Hp) as (key & Hk & Hsplit).
  exists key. split; [exact Hk|].
  rewrite Hsplit, split_no_sep; [reflexivity|].
  unfold no_dot in Hs. now apply negb_true_iff in Hs.
Qed.

Lemma path_key_inj (pk : fkey) (p q : list string) :
  Forall (fun s => no_dot s = true) p ->
  Forall (fun s => no_dot s = true) q ->
  path_key "." pk p = path_key "." pk q -> p = q.
Proof.
  intros Hp Hq H. destruct pk as [r|].
  - destruct (split_path_key p r Hp) as (k1 & E1 & S1).
    destruct (split_path_key q r Hq) as (k2 & E2 & S2).
    rewrite E1, E2 in H. injection H as ->. rewrite S1 in S2.
    now apply app_inv_head in S2.
  - destruct p as [|a p], q as [|b q]; [reflexivity| | |].
    + destruct (split_path_key_root b q Hq) as (k & E & _).
      rewrite E in H. discriminate.
    + destruct (split_path_key_root a p Hp) as (k & E & _).
      rewrite E in H. discriminate.
    + destruct (split_path_key_root a p Hp) as (k1 & E1 & S1).
      destruct (split_path_key_root b q Hq) as (k2 & E2 & S2).
      rewrite E1, E2 in H. injection H as ->. congruence.
Qed.

(** ** [flatten] makes one entry per leaf *)

Lemma leaf_entry_under (sep : string) (pk : fkey) (k : string)
    (ls : list (list string * scalar)) :
  map (leaf_entry sep pk) (map (fun ps => (k :: fst ps, snd ps)) ls)
  = map (leaf_entry sep (Some (new_key sep pk k))) ls.
Proof. rewrite map_map. reflexivity. Qed.

Lemma flatten_items_leaves (sep : string) (es : list (string * value)) :
  Forall (fun kv => forall pk,
            NoDup (keys (map (leaf_entry sep pk) (leaves (snd kv)))) ->
            flatten sep pk (snd kv) = map (leaf_entry sep pk) (leaves (snd kv))) es ->
  forall pk items,
    NoDup (keys items ++ keys (map (leaf_entry sep pk) (leaves_items es))) ->
    flatten_items sep pk es items
    = items ++ map (leaf_entry sep pk) (leaves_items es).
Proof.
  intros H. induction H as [|[k x] es Hx _ IH]; intros pk items Hnd.
  - simpl. now rewrite app_nil_r.
  - unfold flatten_items, leaves_items in *. cbn [fold_left flat_map fst snd] in *.
    rewrite map_app, leaf_entry_under in *.
    set (A := map (leaf_entry sep (Some (new_key sep pk k))) (leaves x)) in *.
    unfold keys in Hnd. rewrite map_app, app_assoc in Hnd. fold (keys A) in Hnd.
    assert (HA : flatten sep (Some (new_key sep pk k)) x = A).
    { apply Hx. apply NoDup_app_remove_r in Hnd.
      now apply NoDup_app_remove_l in Hnd. }
    rewrite HA.
    rewrite (dict_update_fresh fkey_eqb fkey_eqb_eq)
      by (now apply NoDup_app_remove_r in Hnd).
    rewrite IH; [now rewrite <- app_assoc|].
    unfold keys. rewrite map_app. exact Hnd.
Qed.

Lemma flatten_leaves (sep : string) (v : value) :
  forall pk,
    NoDup (keys (map (leaf_entry sep pk) (leaves v))) ->
    flatten sep pk v = map (leaf_entry sep pk) (leaves v).
Proof.
  induction v as [s|l IH|d IH] using value_ind; intros pk Hnd.
  - reflexivity.
  - rewrite flatten_list_eq, leaves_list_eq in *.
    apply (flatten_items_leaves sep (indexed 0 l)
             (Forall_indexed _ l 0 IH) pk []). exact Hnd.
  - rewrite flatten_dict_eq, leaves_dict_eq in *.
    apply (flatten_items_leaves sep d IH pk []). exact Hnd.
Qed.

Lemma length_leaves_items (es : list (string * value)) :
  length (leaves_items es)
  = fold_right (fun kv n => length (leaves (snd kv)) + n)%nat 0%nat es.
Proof.
  unfold leaves_items. induction es as [|[k x] es IH]; [reflexivity|].
  simpl. rewrite length_app, length_map, IH. reflexivity.
Qed.

Lemma length_leaves (v : value) : length (leaves v) = count_leaves v.
Proof.
  induction v as [s|l IH|d IH] using value_ind.
  - reflexivity.
  - rewrite leaves_list_eq, length_leaves_items.
    cbn [count_leaves].
    enough (forall i, fold_right (fun kv n => length (leaves (snd kv)) + n) 0
                        (indexed i l)
                      = fold_right (fun x n => count_leaves x + n) 0 l)%nat
      as E by apply E.
    induction IH as [|x l Hx _ IHl]; intros i; [reflexivity|].
    cbn [indexed fold_right snd]. now rewrite Hx, IHl.
  - rewrite leaves_dict_eq, length_leaves_items.
    cbn [count_leaves].
    induction IH as [|[k x] d Hx _ IHd]; [reflexivity|].
    cbn [fold_right snd] in *. now rewrite Hx, IHd.
Qed.

(** ** The paths of a value with unique, dot-free keys *)

Lemma forallb_Forall {A : Type} (f : A -> bool) (l : list A) :
  forallb f l = true <-> Forall (fun x => f x = true) l.
Proof. rewrite forallb_forall, Forall_forall. reflexivity. Qed.

Lemma paths_items_cons (k : string) (x : value) (r : list (string * value)) :
  paths_items ((k, x) :: r) = map (cons k) (paths x) ++ paths_items r.
Proof.
  unfold paths_items, paths, leaves_items. cbn [flat_map fst snd].
  rewrite map_app, !map_map. reflexivity.
Qed.

Lemma paths_list_eq (l : list value) : paths (VList l) = paths_items (indexed 0 l).
Proof. unfold paths, paths_items. now rewrite leaves_list_eq. Qed.

Lemma paths_dict_eq (d : list (string * value)) : paths (VDict d) = paths_items d.
Proof. unfold paths, paths_items. now rewrite leaves_dict_eq. Qed.

Lemma paths_items_head (es : list (string * value)) (p : list string) :
  In p (paths_items es) -> exists k q, p = k :: q /\ In k (keys es).
Proof.
  induction es as [|[k x] es IH]; [intros []|].
  rewrite paths_items_cons. intros H. apply in_app_or in H as [H|H].
  - apply in_map_iff in H as (q & <- & _). exists k, q. split; [reflexivity|now left].
  - destruct (IH H) as (k' & q & -> & Hin). exists k', q.
    split; [reflexivity|now right].
Qed.

Lemma paths_items_no_dot (es : list (string * value)) :
  Forall (fun k => no_dot k = true) (keys es) ->
  Forall (fun kv => Forall (Forall (fun s => no_dot s = true)) (paths (snd kv))) es ->
  Forall (Forall (fun s => no_dot s = true)) (paths_items es).
Proof.
  intros Hk H. induction H as [|[k x] es Hx _ IH]; [constructor|].
  rewrite paths_items_cons. inversion Hk as [|? ? Hk1 Hk2]; subst.
  apply Forall_app. split; [|exact (IH Hk2)].
  apply Forall_map. eapply Forall_impl; [|exact Hx].
  intros q Hq. now constructor.
Qed.

Lemma paths_items_NoDup (es : list (string * value)) :
  NoDup (keys es) ->
  Forall (fun kv => NoDup (paths (snd kv))) es ->
  NoDup (paths_items es).
Proof.
  intros Hk H. induction H as [|[k x] es Hx _ IH]; [constructor|].
  rewrite paths_items_cons. inversion Hk as [|? ? Hk1 Hk2]; subst.
  apply NoDup_app.
  - apply NoDup_map_NoDup_ForallPairs; [|exact Hx].
    intros a b _ _ E. now injection E.
  - exact (IH Hk2).
  - intros p Hp Hq. apply in_map_iff in Hp as (q & <- & _).
    destruct (paths_items_head es _ Hq) as (k' & q' & E & Hin).
    injection E as -> _. contradiction.
Qed.

Lemma keys_indexed {A : Type} (l : list A) (i : nat) :
  keys (indexed i l) = map (fun j => py_str (Z.of_nat j)) (seq i (length l)).
Proof.
  revert i. induction l as [|x l IH]; intros i; [reflexivity|].
  simpl. now rewrite IH.
Qed.

Lemma keys_indexed_NoDup {A : Type} (l : list A) (i : nat) :
  NoDup (keys (indexed i l)).
Proof.
  rewrite keys_indexed. apply NoDup_map_NoDup_ForallPairs; [|apply seq_NoDup].
  intros a b _ _ E. apply py_str_inj in E. lia.
Qed.

Lemma keys_indexed_no_dot {A : Type} (l : list A) (i : nat) :
  Forall (fun k => no_dot k = true) (keys (indexed i l)).
Proof.
  rewrite keys_indexed. apply Forall_map, Forall_forall.
  intros j _. apply py_str_no_dot.
Qed.

Lemma Forall_mp {A : Type} (P Q : A -> Prop) (l : list A) :
  Forall (fun x => P x -> Q x) l -> Forall P l -> Forall Q l.
Proof.
  intros H. induction H as [|x l Hx _ IH]; intros HP; [constructor|].
  inversion HP; subst. constructor; auto.
Qed.

Lemma paths_no_dot (v : value) :
  dot_free_keys v = true ->
  Forall (Forall (fun s => no_dot s = true)) (paths v).
Proof.
  induction v as [s|l IH|d IH] using value_ind; intros H.
  - repeat constructor.
  - rewrite paths_list_eq. cbn [dot_free_keys] in H.
    apply forallb_Forall in H.
    apply paths_items_no_dot; [apply keys_indexed_no_dot|].
    apply (Forall_indexed
             (fun x => Forall (Forall (fun s => no_dot s = true)) (paths x))).
    exact (Forall_mp _ _ l IH H).
  - rewrite paths_dict_eq. cbn [dot_free_keys] in H.
    apply andb_true_iff in H as [Hk Hc].
    apply forallb_Forall in Hk, Hc.
    apply paths_items_no_dot; [exact Hk|].
    exact (Forall_mp _ _ d IH Hc).
Qed.

Lemma paths_NoDup (v : value) : unique_keys v = true -> NoDup (paths v).
Proof.
  induction v as [s|l IH|d IH] using value_ind; intros H.
  - repeat constructor. intros [].
  - rewrite paths_list_eq. cbn [unique_keys] in H.
    apply forallb_Forall in H.
    apply paths_items_NoDup; [apply keys_indexed_NoDup|].
    apply (Forall_indexed (fun x => NoDup (paths x))).
    exact (Forall_mp _ _ l IH H).
  - rewrite paths_dict_eq. cbn [unique_keys] in H.
    apply andb_true_iff in H as [Hk Hc].
    apply distinct_NoDup in Hk. apply forallb_Forall in Hc.
    apply paths_items_NoDup; [exact Hk|].
    exact (Forall_mp _ _ d IH Hc).
Qed.

Lemma keys_leaf_entries (sep : string) (pk : fkey) (ls : list (list string * scalar)) :
  keys (map (leaf_entry sep pk) ls) = map (path_key sep pk) (map fst ls).
Proof. unfold keys. rewrite !map_map. reflexivity. Qed.

Lemma leaf_keys_NoDup (v : value) (pk : fkey) :
  unique_keys v = true -> dot_free_keys v = true ->
  NoDup (keys (map (leaf_entry "." pk) (leaves v))).
Proof.
  intros Hu Hd. rewrite keys_leaf_entries. fold (paths v).
  pose proof (paths_no_dot v Hd) as Hnd. rewrite Forall_forall in Hnd.
  apply NoDup_map_NoDup_ForallPairs; [|now apply paths_NoDup].
  intros p q Hp Hq E. eapply path_key_inj; eauto.
Qed.

Lemma flatten_unique_dot_free (v : value) (pk : fkey) :
  unique_keys v = true -> dot_free_keys v = true ->
  flatten "." pk v = map (leaf_entry "." pk) (leaves v).
Proof. intros Hu Hd. apply flatten_leaves. now apply leaf_keys_NoDup. Qed.

(** ** The loop of [unflatten] on the entries of [flatten] *)

Lemma bind_assoc {A B C : Type} (c : pyresult A) (f : A -> pyresult B)
    (g : B -> pyresult C) :
  bind (bind c f) g = bind c (fun a => bind (f a) g).
Proof. destruct c; reflexivity. Qed.

Lemma step_leaf_entry (t : value) (p : list string) (s : scalar) :
  p <> [] -> Forall (fun x => no_dot x = true) p ->
  step t (leaf_entry "." None (p, s)) = assign_path p s t.
Proof.
  intros Hne Hp. destruct p as [|a p]; [contradiction|].
  destruct (split_path_key_root a p Hp) as (key & Hk & Hs).
  unfold step, leaf_entry. cbn [fst snd]. rewrite Hk, Hs. reflexivity.
Qed.

Lemma build_leaf_entries (ls : list (list string * scalar)) (t : value) :
  Forall (fun ps => fst ps <> [] /\ Forall (fun x => no_dot x = true) (fst ps)) ls ->
  build (map (leaf_entry "." None) ls) t = assign_all ls t.
Proof.
  intros H. revert t. induction H as [|[p s] ls [Hne Hp] _ IH]; intros t;
    [reflexivity|].
  cbn [map build assign_all fst snd].
  rewrite (step_leaf_entry t p s Hne Hp).
  destruct (assign_path p s t); simpl; [apply IH|reflexivity].
Qed.

Lemma assign_path_cons (k : string) (q : list string) (s : scalar)
    (d : list (string * value)) :
  q <> [] ->
  assign_path (k :: q) s (VDict d)
  = (child' <- assign_path q s
                 (match dict_get String.eqb k d with
                  | Some c => c
                  | None => VDict []
                  end) ;;
     Ok (VDict (dict_set String.eqb k child' d))).
Proof. intros Hq. destruct q as [|a q]; [contradiction|reflexivity]. Qed.

Lemma assign_path_single (k : string) (s : scalar) (d : list (string * value)) :
  is_nan s = false ->
  assign_path [k] s (VDict d) = Ok (VDict (dict_set String.eqb k (VScalar s) d)).
Proof. intros H. unfold assign_path. simpl. now rewrite H. Qed.

Lemma assign_all_app (a b : list (list string * scalar)) (t : value) :
  assign_all (a ++ b) t = (t' <- assign_all a t ;; assign_all b t').
Proof.
  revert t. induction a as [|ps a IH]; intros t; [reflexivity|].
  simpl. destruct (assign_path (fst ps) (snd ps) t); simpl; [apply IH|reflexivity].
Qed.

(** Entries below one key all land in the child under that key. *)
Lemma assign_all_under_present (k : string) (ls : list (list string * scalar)) :
  Forall (fun ps => fst ps <> []) ls ->
  forall (T : list (string * value)) (c : value),
    ~ In k (keys T) ->
    assign_all (map (fun ps => (k :: fst ps, snd ps)) ls) (VDict (T ++ [(k, c)]))
    = (c' <- assign_all ls c ;; Ok (VDict (T ++ [(k, c')]))).
Proof.
  intros H. induction H as [|[q s] ls Hq _ IH]; intros T c Hk; [reflexivity|].
  cbn [map assign_all fst snd] in *.
  rewrite (assign_path_cons k q s _ Hq).
  rewrite (dict_get_last String.eqb String.eqb_eq k c T Hk).
  rewrite !bind_assoc. destruct (assign_path q s c) as [c1|e]; [|reflexivity].
  cbn [bind]. rewrite (dict_set_last String.eqb String.eqb_eq k c c1 T Hk).
  apply IH, Hk.
Qed.

Lemma assign_all_under_fresh (k : string) (ls : list (list string * scalar)) :
  ls <> [] -> Forall (fun ps => fst ps <> []) ls ->
  forall T : list (string * value),
    ~ In k (keys T) ->
    assign_all (map (fun ps => (k :: fst ps, snd ps)) ls) (VDict T)
    = (c' <- assign_all ls (VDict []) ;; Ok (VDict (T ++ [(k, c')]))).
Proof.
  intros Hne H T Hk. destruct H as [|[q s] ls Hq Hls]; [contradiction|].
  cbn [map assign_all fst snd] in *.
  rewrite (assign_path_cons k q s _ Hq).
  rewrite (dict_get_fresh String.eqb String.eqb_eq k T Hk).
  rewrite !bind_assoc. destruct (assign_path q s (VDict [])) as [c1|e];
    [|reflexivity].
  cbn [bind]. rewrite (dict_set_fresh String.eqb String.eqb_eq k c1 T Hk).
  apply assign_all_under_present; assumption.
Qed.

Lemma leaves_items_paths_nonempty (es : list (string * value)) :
  Forall (fun ps => fst ps <> []) (leaves_items es).
Proof.
  apply Forall_forall. intros ps Hin.
  destruct (paths_items_head es (fst ps)) as (k & q & E & _).
  - unfold paths_items. now apply in_map.
  - rewrite E. discriminate.
Qed.

Lemma solid_has_leaf (v : value) : solid v = true -> leaves v <> [].
Proof.
  induction v as [s|l IH|d IH] using value_ind; intros H.
  - discriminate.
  - rewrite leaves_list_eq. cbn [solid] in H.
    apply andb_true_iff in H as [Hne Hall].
    destruct l as [|x l]; [discriminate|].
    inversion IH as [|? ? Hx _]; subst. cbn [forallb] in Hall.
    apply andb_true_iff in Hall as [Hsx _].
    unfold leaves_items. cbn [indexed flat_map snd].
    intros E. apply app_eq_nil in E as [E _]. apply map_eq_nil in E.
    exact (Hx Hsx E).
  - rewrite leaves_dict_eq. cbn [solid] in H.
    apply andb_true_iff in H as [Hne Hall].
    destruct d as [|[k x] d]; [discriminate|].
    inversion IH as [|? ? Hx _]; subst. cbn [forallb snd] in Hall.
    apply andb_true_iff in Hall as [Hsx _].
    unfold leaves_items. cbn [flat_map snd].
    intros E. apply app_eq_nil in E as [E _]. apply map_eq_nil in E.
    exact (Hx Hsx E).
Qed.

Lemma raw_items_indexed (l : list value) (i : nat) :
  raw_items (indexed i l) = indexed i (map raw l).
Proof.
  revert i. induction l as [|x l IH]; intros i; [reflexivity|].
  unfold raw_items in *. simpl. now rewrite IH.
Qed.

Lemma keys_raw_items (es : list (string * value)) : keys (raw_items es) = keys es.
Proof. unfold keys, raw_items. rewrite map_map. reflexivity. Qed.

Lemma assign_all_items (es : list (string * value)) :
  Forall (fun kv =>
            forall (T : list (string * value)) (k : string),
              ~ In k (keys T) ->
              assign_all (map (fun ps => (k :: fst ps, snd ps)) (leaves (snd kv)))
                (VDict T)
              = Ok (VDict (T ++ [(k, raw (snd kv))]))) es ->
  NoDup (keys es) ->
  forall T : list (string * value),
    (forall k, In k (keys es) -> ~ In k (keys T)) ->
    assign_all (leaves_items es) (VDict T) = Ok (VDict (T ++ raw_items es)).
Proof.
  intros H. induction H as [|[k x] es Hx _ IH]; intros Hnd T Hfresh.
  - simpl. now rewrite app_nil_r.
  - unfold leaves_items, raw_items in *. cbn [flat_map map fst snd keys] in *.
    inversion Hnd as [|? ? Hk Hnd']; subst.
    rewrite assign_all_app, (Hx T k) by (apply Hfresh; now left).
    cbn [bind]. rewrite IH.
    + now rewrite <- app_assoc.
    + exact Hnd'.
    + intros k' Hin Hin'. unfold keys in Hin'. rewrite map_app in Hin'.
      apply in_app_or in Hin' as [Hin'|[<-|[]]].
      * apply (Hfresh k'); [now right|exact Hin'].
      * contradiction.
Qed.

Lemma assign_all_child (c : value) :
  solid c = true -> unique_keys c = true ->
  forall (T : list (string * value)) (k : string),
    ~ In k (keys T) ->
    assign_all (map (fun ps => (k :: fst ps, snd ps)) (leaves c)) (VDict T)
    = Ok (VDict (T ++ [(k, raw c)])).
Proof.
  induction c as [s|l IH|d IH] using value_ind; intros Hs Hu T k Hk.
  - cbn [leaves map assign_all fst snd raw].
    cbn [solid] in Hs. apply negb_true_iff in Hs.
    rewrite (assign_path_single k s T Hs). cbn [bind].
    now rewrite (dict_set_fresh String.eqb String.eqb_eq k _ T Hk).
  - pose proof (solid_has_leaf _ Hs) as Hne.
    rewrite leaves_list_eq in *.
    rewrite (assign_all_under_fresh k _ Hne (leaves_items_paths_nonempty _) T Hk).
    cbn [solid unique_keys] in Hs, Hu.
    apply andb_true_iff in Hs as [_ Hs]. apply forallb_Forall in Hs, Hu.
    rewrite (assign_all_items (indexed 0 l)).
    + cbn [bind List.app raw]. now rewrite raw_items_indexed.
    + apply (Forall_indexed
               (fun x => forall T k, ~ In k (keys T) ->
                  assign_all (map (fun ps => (k :: fst ps, snd ps)) (leaves x))
                    (VDict T) = Ok (VDict (T ++ [(k, raw x)])))).
      exact (Forall_mp _ _ l (Forall_mp _ _ l IH Hs) Hu).
    + apply keys_indexed_NoDup.
    + intros k' _ [].
  - pose proof (solid_has_leaf _ Hs) as Hne.
    rewrite leaves_dict_eq in *.
    rewrite (assign_all_under_fresh k _ Hne (leaves_items_paths_nonempty _) T Hk).
    cbn [solid unique_keys] in Hs, Hu.
    apply andb_true_iff in Hs as [_ Hs]. apply andb_true_iff in Hu as [Hnd Hu].
    apply forallb_Forall in Hs, Hu. apply distinct_NoDup in Hnd.
    rewrite (assign_all_items d).
    + reflexivity.
    + exact (Forall_mp _ _ d (Forall_mp _ _ d IH Hs) Hu).
    + exact Hnd.
    + intros k' _ [].
Qed.

(** The root of the value [flatten] was given: a container whose entries are
    [es]. *)
Lemma build_flatten_items (v : value) (es : list (string * value)) :
  leaves v = leaves_items es ->
  NoDup (keys es) ->
  Forall (fun kv => solid (snd kv) = true /\ unique_keys (snd kv) = true) es ->
  unique_keys v = true -> dot_free_keys v = true ->
  build (flatten "." None v) (VDict []) = Ok (VDict (raw_items es)).
Proof.
  intros Hl Hnd Hes Hu Hd.
  rewrite (flatten_unique_dot_free v None Hu Hd).
  rewrite build_leaf_entries.
  - rewrite Hl. apply (assign_all_items es); [|exact Hnd|intros k _ []].
    eapply Forall_impl; [|exact Hes].
    intros [k x] [Hs Hux]. now apply assign_all_child.
  - pose proof (paths_no_dot v Hd) as Hp. unfold paths in Hp.
    rewrite Forall_map in Hp.
    pose proof (leaves_items_paths_nonempty es) as Hne. rewrite <- Hl in Hne.
    apply Forall_and; assumption.
Qed.

(** ** The conversion pass *)

Lemma convert_dict_eq (d : list (string * value)) :
  convert_to_list (VDict d)
  = match try_block d with
    | Ok (Some l) => Ok (VList l)
    | Ok None | Raise ValueError => items' <- convert_items d ;; Ok (VDict items')
    | Raise e => Raise e
    end.
Proof.
  cbn [convert_to_list].
  assert (E : (fix each (l : list (string * value)) : pyresult (list (string * value)) :=
                 match l with
                 | [] => Ok []
                 | (k, v) :: r =>
                     v' <- convert_to_list v ;; r' <- each r ;; Ok ((k, v') :: r')
                 end) d = convert_items d).
  { unfold convert_items. induction d as [|[k v] d IH]; [reflexivity|].
    cbn [mapM fst snd]. rewrite IH, bind_assoc. reflexivity. }
  rewrite E. reflexivity.
Qed.

Lemma py_int_error (s : string) (e : exn) : py_int s = Raise e -> e = ValueError.
Proof.
  unfold py_int.
  destruct (match strip (list_ascii_of_string s) with
            | "+"%char :: r => (false, r)
            | "-"%char :: r => (true, r)
            | _ => (false, strip (list_ascii_of_string s))
            end) as [negative ds].
  destruct (parse_digits false ds); [discriminate|]. now intros [= <-].
Qed.

Lemma mapM_py_int_error (ks : list string) (e : exn) :
  mapM py_int ks = Raise e -> e = ValueError.
Proof.
  induction ks as [|k ks IH]; simpl; [discriminate|].
  destruct (py_int k) eqn:E; simpl.
  - destruct (mapM py_int ks); simpl; [discriminate|].
    intros [= <-]. now apply IH.
  - intros [= <-]. now apply py_int_error in E.
Qed.

Lemma mapM_Ok_all {A B : Type} (f : A -> pyresult B) (l : list A) (ys : list B) :
  mapM f l = Ok ys -> forall x, In x l -> exists y, f x = Ok y.
Proof.
  revert ys. induction l as [|a l IH]; intros ys H x Hin; [destruct Hin|].
  simpl in H. destruct (f a) as [y|] eqn:Ea; [|discriminate].
  simpl in H. destruct (mapM f l) as [ys'|] eqn:El; [|discriminate].
  destruct Hin as [<-|Hin]; [now exists y|]. exact (IH ys' eq_refl x Hin).
Qed.

Lemma mapM_getitem_error (d : list (string * value)) (ks : list Z) (e : exn) :
  mapM (fun k => getitem d (py_str k)) ks = Raise e -> e = KeyError.
Proof.
  revert e. induction ks as [|k ks IH]; intros e; cbn [mapM]; [discriminate|].
  unfold getitem at 1. destruct (dict_get String.eqb (py_str k) d); cbn [bind].
  - destruct (mapM (fun k0 => getitem d (py_str k0)) ks) eqn:E; cbn [bind];
      [discriminate|]. intros [= <-]. now apply IH.
  - now intros [= <-].
Qed.

Lemma py_min_error (l : list Z) (e : exn) : py_min l = Raise e -> e = ValueError.
Proof. destruct l; [now intros [= <-]|discriminate]. Qed.

Lemma py_max_error (l : list Z) (e : exn) : py_max l = Raise e -> e = ValueError.
Proof. destruct l; [now intros [= <-]|discriminate]. Qed.

Lemma py_list_range_fits (lo hi : Z) :
  (hi - lo <= max_size)%Z -> py_list_range lo hi = Ok (py_range lo hi).
Proof.
  intros H. unfold py_list_range.
  destruct (Z.ltb_spec max_size (hi - lo)); [lia|reflexivity].
Qed.

Lemma py_list_range_error (lo hi : Z) (e : exn) :
  py_list_range lo hi = Raise e -> e = OverflowError.
Proof.
  unfold py_list_range. destruct (max_size <? hi - lo)%Z; [|discriminate].
  now intros [= <-].
Qed.

(** A key that is no integer ends the [try] at [int(k)]. *)
Lemma try_block_parse_failure (d : list (string * value)) (k : string) :
  In k (keys d) -> py_int k = Raise ValueError -> try_block d = Raise ValueError.
Proof.
  intros Hin Hk. unfold try_block.
  destruct (mapM py_int (keys d)) as [zs|e] eqn:E; cbn [bind].
  - destruct (mapM_Ok_all _ _ _ E k Hin) as (z & Hz). congruence.
  - apply mapM_py_int_error in E. now subst.
Qed.

(** The [try] when the range is short enough to be built. *)
Lemma try_block_in_range (d : list (string * value)) (zs : list Z) (lo hi : Z) :
  mapM py_int (keys d) = Ok zs ->
  py_min (sort zs) = Ok lo -> py_max (sort zs) = Ok hi ->
  (hi + 1 - lo <= max_size)%Z ->
  try_block d
  = if list_Z_eqb (sort zs) (py_range lo (hi + 1))
    then l <- mapM (fun k => getitem d (py_str k)) (sort zs) ;; Ok (Some l)
    else Ok None.
Proof.
  intros Hzs Hlo Hhi Hfit. unfold try_block.
  rewrite Hzs. cbn [bind]. rewrite Hlo, Hhi. cbn [bind].
  rewrite (py_list_range_fits lo (hi + 1) Hfit). reflexivity.
Qed.

(** Whether the [try] is left without a [return] is decided by the keys. *)
Lemma try_block_same_keys (d d' : list (string * value)) :
  keys d' = keys d ->
  try_block d = Ok None \/ try_block d = Raise ValueError ->
  try_block d' = Ok None \/ try_block d' = Raise ValueError.
Proof.
  intros Hk. unfold try_block. rewrite Hk.
  destruct (mapM py_int (keys d)) as [zs|e]; cbn [bind]; [|exact (fun H => H)].
  destruct (py_min (sort zs)) as [lo|e]; cbn [bind]; [|exact (fun H => H)].
  destruct (py_max (sort zs)) as [hi|e]; cbn [bind]; [|exact (fun H => H)].
  destruct (py_list_range lo (hi + 1)) as [range|e]; cbn [bind];
    [|exact (fun H => H)].
  destruct (list_Z_eqb (sort zs) range); [|now left].
  destruct (mapM (fun k => getitem d (py_str k)) (sort zs)) as [l|e] eqn:E;
    cbn [bind]; intros [H|H]; try discriminate.
  injection H as ->. now apply mapM_getitem_error in E.
Qed.

(** The two outcomes of the rule at a mapping node. *)
Lemma convert_fall_through (d : list (string * value)) :
  try_block d = Ok None \/ try_block d = Raise ValueError ->
  convert_to_list (VDict d) = (items' <- convert_items d ;; Ok (VDict items')).
Proof. intros [H|H]; rewrite convert_dict_eq, H; reflexivity. Qed.

Lemma length_insert_sorted (x : Z) (l : list Z) :
  length (insert_sorted x l) = S (length l).
Proof.
  induction l as [|y l IH]; [reflexivity|]. cbn [insert_sorted].
  destruct (x <=? y)%Z; cbn [length]; [reflexivity|now rewrite IH].
Qed.

Lemma length_sort (l : list Z) : length (sort l) = length l.
Proof.
  unfold sort. induction l as [|x l IH]; [reflexivity|].
  cbn [fold_right length]. now rewrite length_insert_sorted, IH.
Qed.

Lemma mapM_length {A B : Type} (f : A -> pyresult B) (l : list A) (ys : list B) :
  mapM f l = Ok ys -> length ys = length l.
Proof.
  revert ys. induction l as [|a l IH]; intros ys; cbn [mapM].
  - now intros [= <-].
  - destruct (f a); cbn [bind]; [|discriminate].
    destruct (mapM f l) as [r|]; cbn [bind]; [|discriminate].
    intros [= <-]. cbn [length]. now rewrite (IH r eq_refl).
Qed.

Lemma length_py_range (lo hi : Z) : length (py_range lo hi) = Z.to_nat (hi - lo).
Proof. unfold py_range. now rewrite length_map, length_seq. Qed.

(** A node with no more keys than a list can hold, whose keys form a
    contiguous range, goes to the lookups. *)
Lemma convert_list_like (d : list (string * value)) :
  list_like (keys d) = true -> fits (keys d) = true ->
  exists zs, mapM py_int (keys d) = Ok zs
             /\ convert_to_list (VDict d)
                = (l <- mapM (fun k => getitem d (py_str k)) (sort zs) ;;
                   Ok (VList l)).
Proof.
  intros H Hfit. rewrite convert_dict_eq. unfold list_like in H.
  destruct (mapM py_int (keys d)) as [zs|e] eqn:E; [|discriminate].
  exists zs. split; [reflexivity|]. cbv zeta in H.
  destruct (py_min (sort zs)) as [lo|] eqn:Elo; [|discriminate].
  destruct (py_max (sort zs)) as [hi|] eqn:Ehi; [|discriminate].
  assert (Hspan : (hi + 1 - lo <= max_size)%Z).
  { unfold list_Z_eqb in H.
    destruct (list_eq_dec Z.eq_dec (sort zs) (py_range lo (hi + 1))) as [Eq|];
      [|discriminate].
    apply (f_equal (@length Z)) in Eq.
    rewrite length_sort, (mapM_length _ _ _ E), length_py_range in Eq.
    unfold fits in Hfit. apply Z.leb_le in Hfit. unfold max_size in *. lia. }
  rewrite (try_block_in_range d zs lo hi E Elo Ehi Hspan), H.
  destruct (mapM (fun k => getitem d (py_str k)) (sort zs)) as [l|e] eqn:Eg;
    cbn [bind]; [reflexivity|].
  rewrite (mapM_getitem_error d (sort zs) e Eg). reflexivity.
Qed.

Lemma list_like_parse_failure (ks : list string) (k : string) :
  In k ks -> py_int k = Raise ValueError -> list_like ks = false.
Proof.
  intros Hin Hk. unfold list_like.
  destruct (mapM py_int ks) as [zs|] eqn:E; [|reflexivity].
  destruct (mapM_Ok_all _ _ _ E k Hin) as (z & Hz). congruence.
Qed.

(** ** The positions of a sequence read as keys *)

Lemma mapM_py_int_indexed {A : Type} (l : list A) (i : nat) :
  mapM py_int (keys (indexed i l)) = Ok (map Z.of_nat (seq i (length l))).
Proof.
  revert i. induction l as [|x l IH]; intros i; [reflexivity|].
  cbn [indexed keys map fst mapM length seq]. rewrite py_int_str. cbn [bind].
  fold (keys (indexed (S i) l)). rewrite IH. reflexivity.
Qed.

Lemma sort_ascending (n i : nat) :
  sort (map Z.of_nat (seq i n)) = map Z.of_nat (seq i n).
Proof.
  revert i. induction n as [|n IH]; intros i; [reflexivity|].
  cbn [seq map sort fold_right]. fold (sort (map Z.of_nat (seq (S i) n))).
  rewrite IH. destruct n as [|n]; [reflexivity|].
  cbn [seq map insert_sorted].
  destruct (Z.leb_spec (Z.of_nat i) (Z.of_nat (S i))); [reflexivity|lia].
Qed.

Lemma fold_min_ascending (n i : nat) (a : Z) :
  (a <= Z.of_nat i)%Z -> fold_left Z.min (map Z.of_nat (seq i n)) a = a.
Proof.
  revert i a. induction n as [|n IH]; intros i a H; [reflexivity|].
  cbn [seq map fold_left]. rewrite Z.min_l by exact H. apply IH. lia.
Qed.

Lemma fold_max_ascending (n i : nat) :
  fold_left Z.max (map Z.of_nat (seq (S i) n)) (Z.of_nat i) = Z.of_nat (i + n).
Proof.
  revert i. induction n as [|n IH]; intros i.
  - simpl. f_equal. lia.
  - cbn [seq map fold_left]. rewrite Z.max_r by lia. rewrite IH. f_equal. lia.
Qed.

Lemma py_range_ascending (n i : nat) :
  py_range (Z.of_nat i) (Z.of_nat (i + n) + 1) = map Z.of_nat (seq i (S n)).
Proof.
  unfold py_range.
  replace (Z.to_nat (Z.of_nat (i + n) + 1 - Z.of_nat i)) with (S n) by lia.
  enough (forall m j, map (fun k => (Z.of_nat i + Z.of_nat k)%Z) (seq j m)
                      = map Z.of_nat (seq (i + j) m)) as E.
  { rewrite E, Nat.add_0_r. reflexivity. }
  induction m as [|m IH]; intros j; [reflexivity|].
  cbn [seq map]. f_equal; [lia|].
  rewrite <- Nat.add_succ_r. apply IH.
Qed.

Lemma list_Z_eqb_refl (l : list Z) : list_Z_eqb l l = true.
Proof. unfold list_Z_eqb. destruct (list_eq_dec Z.eq_dec l l); congruence. Qed.

Lemma list_like_indexed {A : Type} (l : list A) (i : nat) :
  l <> [] -> list_like (keys (indexed i l)) = true.
Proof.
  intros Hne. unfold list_like. rewrite mapM_py_int_indexed.
  cbv zeta. rewrite sort_ascending.
  destruct l as [|x l]; [contradiction|].
  cbn [length]. remember (length l) as n.
  cbn [seq map py_min py_max].
  rewrite fold_min_ascending by lia. rewrite fold_max_ascending.
  rewrite py_range_ascending. apply list_Z_eqb_refl.
Qed.

Lemma dict_get_indexed {A : Type} (pre : list A) (x : A) (r : list A) (i : nat) :
  dict_get String.eqb (py_str (Z.of_nat (i + length pre)))
    (indexed i (pre ++ x :: r)) = Some x.
Proof.
  revert i. induction pre as [|a pre IH]; intros i.
  - simpl. rewrite Nat.add_0_r. now rewrite String.eqb_refl.
  - simpl.
    destruct (String.eqb_spec (py_str (Z.of_nat (i + S (length pre))))
                (py_str (Z.of_nat i))) as [E|_].
    + apply py_str_inj in E. lia.
    + rewrite <- Nat.add_succ_comm. apply IH.
Qed.

Lemma mapM_getitem_indexed {A : Type} (l pre : list A) :
  mapM (fun k => getitem (indexed 0 (pre ++ l)) (py_str k))
    (map Z.of_nat (seq (length pre) (length l)))
  = Ok l.
Proof.
  revert pre. induction l as [|x l IH]; intros pre; [reflexivity|].
  cbn [length seq map mapM]. unfold getitem at 1.
  pose proof (dict_get_indexed pre x l 0) as E. rewrite Nat.add_0_l in E.
  rewrite E. cbn [bind].
  specialize (IH (pre ++ [x])).
  rewrite <- app_assoc, length_app, Nat.add_1_r in IH.
  change ([x] ++ l) with (x :: l) in IH. rewrite IH. reflexivity.
Qed.

Lemma length_keys_indexed {A : Type} (l : list A) (i : nat) :
  length (keys (indexed i l)) = length l.
Proof.
  revert i. induction l as [|x l IH]; intros i; [reflexivity|].
  cbn [indexed keys map length]. fold (keys (indexed (S i) l)). now rewrite IH.
Qed.

Lemma convert_indexed (l : list value) :
  l <> [] -> fits l = true -> convert_to_list (VDict (indexed 0 l)) = Ok (VList l).
Proof.
  intros Hne Hfit.
  assert (Hfit' : fits (keys (indexed 0 l)) = true).
  { unfold fits in *. now rewrite length_keys_indexed. }
  destruct (convert_list_like (indexed 0 l) (list_like_indexed l 0 Hne) Hfit')
    as (zs & Hzs & ->).
  rewrite mapM_py_int_indexed in Hzs. injection Hzs as <-.
  rewrite sort_ascending.
  pose proof (mapM_getitem_indexed l []) as E. cbn [List.app length] in E.
  rewrite E. reflexivity.
Qed.

(** ** The conversion pass on the tree built from [flatten]'s entries *)

Lemma raw_id (c : value) : restorable true c = true -> raw c = c.
Proof.
  induction c as [s|l IH|d IH] using value_ind; intros H.
  - reflexivity.
  - discriminate.
  - cbn [restorable] in H. apply andb_true_iff in H as [_ H].
    apply forallb_Forall in H. cbn [raw]. f_equal.
    pose proof (Forall_mp _ _ d IH H) as E. clear IH H.
    induction E as [|[k x] d Hx _ IHd]; [reflexivity|].
    cbn [map fst snd] in *. now rewrite Hx, IHd.
Qed.

Lemma restorable_solid (c : value) (b : bool) :
  restorable b c = true -> solid c = true.
Proof.
  revert b. induction c as [s|l IH|d IH] using value_ind; intros b H.
  - exact H.
  - cbn [restorable solid] in *.
    apply andb_true_iff in H as [H Hall]. apply andb_true_iff in H as [H _].
    apply andb_true_iff in H as [_ Hne].
    rewrite Hne. apply forallb_Forall in Hall. apply forallb_Forall.
    clear Hne. induction IH as [|x l Hx _ IHl]; [constructor|].
    inversion Hall; subst. constructor; eauto.
  - cbn [restorable solid] in *.
    apply andb_true_iff in H as [H Hall]. apply andb_true_iff in H as [Hne _].
    rewrite Hne. apply forallb_Forall in Hall. apply forallb_Forall.
    clear Hne. induction IH as [|x l Hx _ IHl]; [constructor|].
    inversion Hall; subst. constructor; eauto.
Qed.

Lemma has_other_key_parse_failure (ks : list string) :
  has_other_key ks = true -> exists k, In k ks /\ py_int k = Raise ValueError.
Proof.
  unfold has_other_key. intros H. apply existsb_exists in H as (k & Hin & Hk).
  exists k. split; [exact Hin|]. unfold parses_as_int in Hk.
  destruct (py_int k) as [z|e] eqn:E; [discriminate|].
  now rewrite (py_int_error k e E).
Qed.

Lemma convert_raw (c : value) (b : bool) :
  restorable b c = true -> convert_to_list (raw c) = Ok c.
Proof.
  revert b. induction c as [s|l IH|d IH] using value_ind; intros b H.
  - reflexivity.
  - cbn [restorable] in H.
    apply andb_true_iff in H as [H Hall]. apply andb_true_iff in H as [H Hfit].
    apply andb_true_iff in H as [_ Hne].
    apply forallb_Forall in Hall.
    assert (map raw l = l) as E.
    { clear IH Hne Hfit. induction Hall as [|x l Hx _ IHl]; [reflexivity|].
      cbn [map]. now rewrite (raw_id x Hx), IHl. }
    cbn [raw]. rewrite E. apply convert_indexed; [|exact Hfit].
    destruct l; [discriminate|discriminate].
  - cbn [restorable] in H.
    apply andb_true_iff in H as [H Hall]. apply andb_true_iff in H as [_ Hll].
    apply has_other_key_parse_failure in Hll as (k0 & Hin & Hk0).
    apply forallb_Forall in Hall.
    cbn [raw]. fold (raw_items d).
    rewrite convert_fall_through
      by (right; apply (try_block_parse_failure _ k0);
          [now rewrite keys_raw_items|exact Hk0]).
    assert (convert_items (raw_items d) = Ok d) as E.
    { unfold convert_items, raw_items. clear Hin.
      induction IH as [|[k x] d Hx _ IHd]; [reflexivity|].
      inversion Hall as [|? ? Hrx Hrd]; subst.
      cbn [map mapM fst snd] in *. rewrite (Hx b Hrx). cbn [bind].
      now rewrite (IHd Hrd). }
    rewrite E. reflexivity.
Qed.

Lemma restorable_entries (es : list (string * value)) (b : bool) :
  forallb (fun kv => restorable b (snd kv)) es = true ->
  forallb (fun kv => unique_keys (snd kv)) es = true ->
  Forall (fun kv => solid (snd kv) = true /\ unique_keys (snd kv) = true) es.
Proof.
  intros Hr Hu. apply forallb_Forall in Hr, Hu.
  apply Forall_and; [|exact Hu].
  eapply Forall_impl; [|exact Hr]. intros kv. apply restorable_solid.
Qed.

Lemma forallb_indexed {A : Type} (f : A -> bool) (l : list A) (i : nat) :
  forallb (fun kv => f (snd kv)) (indexed i l) = forallb f l.
Proof.
  revert i. induction l as [|x l IH]; intros i; [reflexivity|].
  simpl. now rewrite IH.
Qed.

(** * The claims *)

(** ** C1: the round trip *)

(** C1, counterexample.  The value [{"a": {}}] has no sequence and no NaN,
    yet [flatten] has no entry for its empty mapping, so
    [unflatten(flatten(v))] is [{}] and not [v]. *)
Lemma round_trip_drops_empty_mapping :
  no_nan (VDict [("a", VDict [])]) = true
  /\ flatten "." None (VDict [("a", VDict [])]) = []
  /\ unflatten (flatten "." None (VDict [("a", VDict [])])) = Ok (VDict [])
  /\ unflatten (flatten "." None (VDict [("a", VDict [])]))
     <> Ok (VDict [("a", VDict [])]).
Proof. repeat split. discriminate. Qed.

(** The other ways the round trip fails: a scalar at the root is filed under
    the key [None], which [unflatten] cannot split; an empty sequence leaves
    no entry; a mapping with the keys of a sequence comes back as a
    sequence; a key with a ["."] comes back as two levels. *)
Lemma round_trip_other_failures :
  unflatten (flatten "." None (VScalar (SInt 5))) = Raise AttributeError
  /\ unflatten (flatten "." None (VList [])) = Ok (VDict [])
  /\ unflatten (flatten "." None (VDict [("a", VDict [("0", VScalar (SInt 1))])]))
     = Ok (VDict [("a", VList [VScalar (SInt 1)])])
  /\ unflatten (flatten "." None (VDict [("a.b", VScalar (SInt 1))]))
     = Ok (VDict [("a", VDict [("b", VScalar (SInt 1))])]).
Proof. repeat split. Qed.

(** A mapping whose keys are integers does not come back either when the
    integers are far apart: the conversion pass asks for the list of the
    whole range between them, here [list(range(0, 9223372036854775809))],
    and ends in an [OverflowError]. *)
Lemma round_trip_far_apart_keys :
  unflatten
    (flatten "." None
       (VDict [("x", VDict [("0", VScalar (SStr "a"));
                            ("9223372036854775808", VScalar (SStr "b"))])]))
  = Raise OverflowError.
Proof. reflexivity. Qed.

(** C1, as amended.  For every value [v] that is a mapping or a non-empty
    sequence at the root, whose mappings have distinct keys without ["."],
    and that holds no NaN, no empty container below the root, no mapping
    whose keys all parse as integers, and no sequence inside an element of
    a sequence, [unflatten(flatten(v))] returns [v] itself (the same keys
    in the same order, hence a value Python's [==] accepts).  A sequence is
    as long as a Python list can be, [sys.maxsize] at most. *)
Theorem unflatten_flatten_round_trip (v : value) :
  round_trip_ready v = true -> unflatten (flatten "." None v) = Ok v.
Proof.
  intros H. unfold unflatten. destruct v as [s|l|[|e d]].
  - discriminate.
  - cbn [round_trip_ready] in H.
    apply andb_true_iff in H as [H Hd]. apply andb_true_iff in H as [Hr Hu].
    pose proof Hr as Hr'. cbn [restorable] in Hr'.
    apply andb_true_iff in Hr' as [_ Hall].
    rewrite (build_flatten_items (VList l) (indexed 0 l)).
    + cbn [bind]. rewrite raw_items_indexed.
      exact (convert_raw (VList l) false Hr).
    + apply leaves_list_eq.
    + apply keys_indexed_NoDup.
    + apply (restorable_entries _ true).
      * now rewrite forallb_indexed.
      * rewrite forallb_indexed. exact Hu.
    + exact Hu.
    + exact Hd.
  - reflexivity.
  - cbn [round_trip_ready] in H.
    apply andb_true_iff in H as [H Hd]. apply andb_true_iff in H as [Hr Hu].
    pose proof Hr as Hr'. cbn [restorable] in Hr'.
    apply andb_true_iff in Hr' as [_ Hall].
    pose proof Hu as Hu'. cbn [unique_keys] in Hu'.
    apply andb_true_iff in Hu' as [Hnd Hue].
    rewrite (build_flatten_items (VDict (e :: d)) (e :: d)).
    + cbn [bind]. exact (convert_raw (VDict (e :: d)) false Hr).
    + apply leaves_dict_eq.
    + now apply distinct_NoDup.
    + now apply (restorable_entries _ false).
    + exact Hu.
    + exact Hd.
Qed.

Lemma unflatten_flatten_round_trip_witness :
  round_trip_ready
    (VDict [("a", VScalar (SInt 1));
            ("b", VDict [("c", VScalar SNone); ("d", VDict [("e", VScalar (SStr "x"))])]);
            ("f", VList [VScalar (SInt 4); VDict [("g", VScalar (SBool true))]])]) = true
  /\ unflatten
       (flatten "." None
          (VDict [("a", VScalar (SInt 1));
                  ("b", VDict [("c", VScalar SNone); ("d", VDict [("e", VScalar (SStr "x"))])]);
                  ("f", VList [VScalar (SInt 4); VDict [("g", VScalar (SBool true))]])]))
     = Ok (VDict [("a", VScalar (SInt 1));
                  ("b", VDict [("c", VScalar SNone); ("d", VDict [("e", VScalar (SStr "x"))])]);
                  ("f", VList [VScalar (SInt 4); VDict [("g", VScalar (SBool true))]])]).
Proof.
  split; [reflexivity|].
  apply unflatten_flatten_round_trip. reflexivity.
Defined.

(** ** C2: NaN entries and the nodes on their paths *)

Lemma dict_get_set_same {V : Type} (k : string) (v : V) (d : list (string * V)) :
  dict_get String.eqb k (dict_set String.eqb k v d) = Some v.
Proof.
  induction d as [|[k' v'] d IH]; simpl.
  - now rewrite String.eqb_refl.
  - destruct (String.eqb k k') eqn:E; simpl; rewrite E; [reflexivity|exact IH].
Qed.

Lemma dict_get_set_other {V : Type} (k q : string) (v : V) (d : list (string * V)) :
  q <> k ->
  dict_get String.eqb q (dict_set String.eqb k v d) = dict_get String.eqb q d.
Proof.
  intros Hq. induction d as [|[k' v'] d IH]; simpl.
  - now rewrite (proj2 (String.eqb_neq q k) Hq).
  - destruct (String.eqb k k') eqn:E; simpl.
    + apply String.eqb_eq in E. subst k'.
      now rewrite (proj2 (String.eqb_neq q k) Hq).
    + now rewrite IH.
Qed.

Lemma forallb_dict_set {V : Type} (f : V -> bool) (k : string) (v : V)
    (d : list (string * V)) :
  forallb (fun kv => f (snd kv)) d = true -> f v = true ->
  forallb (fun kv => f (snd kv)) (dict_set String.eqb k v d) = true.
Proof.
  intros Hd Hv. induction d as [|[k' v'] d IH]; simpl in *.
  - now rewrite Hv.
  - apply andb_true_iff in Hd as [H1 H2].
    destruct (String.eqb k k'); simpl; [now rewrite Hv, H2|].
    now rewrite H1, IH.
Qed.

Lemma forallb_dict_get {V : Type} (f : V -> bool) (k : string) (c : V)
    (d : list (string * V)) :
  forallb (fun kv => f (snd kv)) d = true ->
  dict_get String.eqb k d = Some c -> f c = true.
Proof.
  induction d as [|[k' v'] d IH]; simpl; [discriminate|].
  intros H. apply andb_true_iff in H as [H1 H2].
  destruct (String.eqb k k'); [now intros [= <-]|now apply IH].
Qed.

(** A NaN entry on a tree of mappings: the walk creates what is missing on
    its way, nothing is assigned, and no mapping node is lost. *)
Lemma assign_nan (walk : list string) (last : string) (s : scalar) :
  is_nan s = true ->
  forall t, mappings_only t = true ->
    exists t',
      assign walk last s t = Ok t'
      /\ mappings_only t' = true
      /\ (exists n, get_path walk t' = Some (VDict n))
      /\ (forall p n, get_path p t = Some (VDict n) ->
                      exists n', get_path p t' = Some (VDict n')).
Proof.
  intros Hs. induction walk as [|part rest IH]; intros t Ht.
  - exists t. cbn [assign]. rewrite Hs. repeat split; [exact Ht| |eauto].
    destruct t as [x|l|n]; try discriminate. now exists n.
  - destruct t as [x|l|d]; try discriminate. cbn [mappings_only] in Ht.
    set (child := match dict_get String.eqb part d with
                  | Some c => c
                  | None => VDict []
                  end).
    assert (Hchild : mappings_only child = true).
    { unfold child. destruct (dict_get String.eqb part d) as [c|] eqn:E;
        [|reflexivity].
      exact (forallb_dict_get mappings_only part c d Ht E). }
    destruct (IH child Hchild) as (child' & Ha & Hm & [n Hn] & Hkeep).
    exists (VDict (dict_set String.eqb part child' d)).
    cbn [assign]. fold child. rewrite Ha. cbn [bind]. repeat split.
    + cbn [mappings_only]. now apply forallb_dict_set.
    + exists n. cbn [get_path]. now rewrite dict_get_set_same.
    + intros p m Hp. destruct p as [|q p]; [eexists; reflexivity|].
      cbn [get_path] in *.
      destruct (String.eqb_spec q part) as [->|Hq].
      * rewrite dict_get_set_same.
        destruct (dict_get String.eqb part d) as [c|] eqn:E; [|discriminate].
        apply (Hkeep p m). unfold child. exact Hp.
      * rewrite (dict_get_set_other part q child' d Hq).
        destruct (dict_get String.eqb q d); [|discriminate]. eauto.
Qed.

Lemma build_all_nan (d : flat) :
  Forall (fun e => is_nan (snd e) = true /\ fst e <> None) d ->
  forall t, mappings_only t = true ->
    exists t',
      build d t = Ok t'
      /\ mappings_only t' = true
      /\ (forall p n, get_path p t = Some (VDict n) ->
                      exists n', get_path p t' = Some (VDict n'))
      /\ (forall key s, In (Some key, s) d ->
            exists n, get_path (removelast (split "." key)) t' = Some (VDict n)).
Proof.
  intros H. induction H as [|[[key|] s] d [Hs Hk] _ IH]; intros t Ht.
  - exists t. repeat split; [exact Ht|eauto|intros ? ? []].
  - cbn [fst snd] in *.
    destruct (assign_nan (removelast (split "." key))
                (last (split "." key) EmptyString) s Hs t Ht)
      as (t1 & Ha & Hm1 & [n1 Hn1] & Hkeep1).
    destruct (IH t1 Hm1) as (t2 & Hb & Hm2 & Hkeep2 & Hall).
    exists t2. cbn [build]. unfold step. cbn [fst snd]. rewrite Ha. cbn [bind].
    repeat split; [exact Hb|exact Hm2| |].
    + intros p n Hp. destruct (Hkeep1 p n Hp) as (n' & Hp'). eauto.
    + intros key' s' [E|Hin]; [|eauto].
      injection E as <- <-. eauto.
  - now contradiction Hk.
Qed.

(** C2, at the failing inputs.  The one entry of [{"a.b": NaN}] is
    NaN-valued, so every entry under ["a"] is, and the result still has a
    node at ["a"]: the empty mapping the walk created before the NaN test
    was reached.  In [{"x.0": 1, "x.1.y": NaN}] every entry under ["x.1"] is
    NaN-valued and the result has the empty mapping as second element of
    the sequence under ["x"].  The comment in the code calls such a value
    one that is not present in the data. *)
Theorem nan_entry_leaves_empty_mapping :
  unflatten [(Some "a.b", SFloat FNaN)] = Ok (VDict [("a", VDict [])])
  /\ get_path ["a"] (VDict [("a", VDict [])]) = Some (VDict [])
  /\ unflatten [(Some "x.0", SInt 1); (Some "x.1.y", SFloat FNaN)]
     = Ok (VDict [("x", VList [VScalar (SInt 1); VDict []])]).
Proof. repeat split. Qed.

(** The defect is not particular to these inputs.  On a flat mapping whose
    values are all NaN the loop never fails, and the tree it builds has a
    mapping node at the parent path of every entry. *)
Lemma nan_entries_create_nodes (d : flat) :
  Forall (fun e => is_nan (snd e) = true /\ fst e <> None) d ->
  exists t,
    build d (VDict []) = Ok t
    /\ forall key s, In (Some key, s) d ->
         exists n, get_path (removelast (split "." key)) t = Some (VDict n).
Proof.
  intros H.
  destruct (build_all_nan d H (VDict []) eq_refl) as (t & Hb & _ & _ & Hall).
  exists t. split; assumption.
Qed.

(** ** C5: the keys [flatten] builds *)

Lemma prefix_key_eqb (sep p : string) (a b : string) :
  fkey_eqb (prefix_key sep p (Some a)) (prefix_key sep p (Some b))
  = fkey_eqb (Some a) (Some b).
Proof.
  cbn [prefix_key fkey_eqb].
  destruct (String.eqb_spec a b) as [->|Hab]; [apply String.eqb_refl|].
  apply String.eqb_neq. intros E.
  apply string_app_inv_head, string_app_inv_head in E. contradiction.
Qed.

Lemma dict_set_prefix (sep p : string) (k : string) (v : scalar) (items : flat) :
  Forall (fun e => fst e <> None) items ->
  dict_set fkey_eqb (prefix_key sep p (Some k)) v (map (prefix_entry sep p) items)
  = map (prefix_entry sep p) (dict_set fkey_eqb (Some k) v items).
Proof.
  intros H. induction H as [|[[q|] w] items Hq _ IH]; [reflexivity| |].
  - cbn [map dict_set prefix_entry fst snd]. rewrite prefix_key_eqb.
    destruct (fkey_eqb (Some k) (Some q)); [reflexivity|].
    cbn [map prefix_entry fst snd]. now rewrite IH.
  - now contradiction Hq.
Qed.

Lemma dict_update_prefix (sep p : string) (other items : flat) :
  Forall (fun e => fst e <> None) other ->
  Forall (fun e => fst e <> None) items ->
  dict_update fkey_eqb (map (prefix_entry sep p) items)
    (map (prefix_entry sep p) other)
  = map (prefix_entry sep p) (dict_update fkey_eqb items other).
Proof.
  unfold dict_update. intros Ho. revert items.
  induction Ho as [|[[k|] v] other Hk _ IH]; intros items Hi; [reflexivity| |].
  - cbn [map fold_left prefix_entry fst snd].
    rewrite dict_set_prefix by exact Hi. apply IH.
    apply Forall_forall. intros [x w] Hin.
    destruct (keys_dict_set fkey_eqb (Some k) v items x) as [->|Hx].
    + unfold keys. now apply (in_map fst) in Hin.
    + discriminate.
    + unfold keys in Hx. apply in_map_iff in Hx as ([x' w'] & <- & Hin').
      rewrite Forall_forall in Hi. exact (Hi _ Hin').
  - now contradiction Hk.
Qed.

Lemma dict_update_keys_some (items other : flat) :
  Forall (fun e => fst e <> None) items ->
  Forall (fun e => fst e <> None) other ->
  Forall (fun e => fst e <> None) (dict_update fkey_eqb items other).
Proof.
  intros Hi Ho. apply Forall_forall. intros [x w] Hin.
  rewrite Forall_forall in Hi, Ho.
  destruct (keys_dict_update fkey_eqb other items x) as [Hx|Hx].
  - unfold keys. now apply (in_map fst) in Hin.
  - unfold keys in Hx. apply in_map_iff in Hx as ([x' w'] & <- & Hin').
    exact (Hi _ Hin').
  - unfold keys in Hx. apply in_map_iff in Hx as ([x' w'] & <- & Hin').
    exact (Ho _ Hin').
Qed.

Lemma flatten_items_keys_some (sep : string) (pk : fkey) (es : list (string * value)) :
  Forall (fun kv => forall p,
            Forall (fun e => fst e <> None) (flatten sep (Some p) (snd kv))) es ->
  forall items,
    Forall (fun e => fst e <> None) items ->
    Forall (fun e => fst e <> None) (flatten_items sep pk es items).
Proof.
  unfold flatten_items. intros H.
  induction H as [|[k x] es Hx _ IH]; intros items Hi; [exact Hi|].
  cbn [fold_left fst snd]. apply IH. apply dict_update_keys_some; [exact Hi|].
  apply Hx.
Qed.

Lemma flatten_keys_some (sep : string) (v : value) :
  forall p, Forall (fun e => fst e <> None) (flatten sep (Some p) v).
Proof.
  induction v as [s|l IH|d IH] using value_ind; intros p.
  - repeat constructor. discriminate.
  - rewrite flatten_list_eq. apply flatten_items_keys_some; [|constructor].
    apply (Forall_indexed
             (fun x => forall p, Forall (fun e => fst e <> None)
                                   (flatten sep (Some p) x))). exact IH.
  - rewrite flatten_dict_eq. apply flatten_items_keys_some; [exact IH|constructor].
Qed.

Lemma prefix_entry_compose (sep p k : string) (X : flat) :
  map (prefix_entry sep (p ++ sep ++ k)) X
  = map (prefix_entry sep p) (map (prefix_entry sep k) X).
Proof.
  rewrite map_map. apply map_ext.
  intros [[q|] w]; unfold prefix_entry; cbn [fst snd prefix_key];
    [|reflexivity].
  now rewrite !string_app_assoc.
Qed.

Lemma flatten_items_prefix (sep p : string) (es : list (string * value)) :
  Forall (fun kv => forall q,
            flatten sep (Some q) (snd kv)
            = map (prefix_entry sep q) (flatten sep None (snd kv))) es ->
  forall items,
    Forall (fun e => fst e <> None) items ->
    flatten_items sep (Some p) es (map (prefix_entry sep p) items)
    = map (prefix_entry sep p) (flatten_items sep None es items).
Proof.
  unfold flatten_items. intros H.
  induction H as [|[k x] es Hx _ IH]; intros items Hi; [reflexivity|].
  cbn [fold_left fst snd new_key] in *.
  rewrite (Hx (p ++ sep ++ k)%string), prefix_entry_compose, <- (Hx k).
  rewrite dict_update_prefix by (apply flatten_keys_some || exact Hi).
  apply IH. apply dict_update_keys_some; [exact Hi|apply flatten_keys_some].
Qed.

(** Under a key [p] a value flattens to what it flattens to at the root, each
    key with [p] and the separator in front. *)
Lemma flatten_under_key (sep : string) (v : value) :
  forall p, flatten sep (Some p) v = map (prefix_entry sep p) (flatten sep None v).
Proof.
  induction v as [s|l IH|d IH] using value_ind; intros p.
  - reflexivity.
  - rewrite !flatten_list_eq.
    apply (flatten_items_prefix sep p (indexed 0 l)) with (items := []);
      [|constructor].
    apply (Forall_indexed
             (fun x => forall q, flatten sep (Some q) x
                                 = map (prefix_entry sep q) (flatten sep None x))).
    exact IH.
  - rewrite !flatten_dict_eq.
    apply (flatten_items_prefix sep p d) with (items := []); [exact IH|constructor].
Qed.

Lemma flatten_items_root (sep : string) (es : list (string * value)) (items : flat) :
  flatten_items sep None es items
  = fold_left
      (fun items kv =>
         dict_update fkey_eqb items
           (map (prefix_entry sep (fst kv)) (flatten sep None (snd kv))))
      es items.
Proof.
  unfold flatten_items. revert items.
  induction es as [|[k x] es IH]; intros items; [reflexivity|].
  cbn [fold_left fst snd new_key]. rewrite flatten_under_key. apply IH.
Qed.

(** C5.  [flatten] puts [<key><sep>] in front of the flattened keys of each
    value of a mapping, and [<position><sep>] in front of those of each
    element of a sequence, the position counted from zero and written in
    decimal; the documented example flattens as documented. *)
Theorem flatten_prefixes_keys :
  (forall sep d,
     flatten sep None (VDict d)
     = fold_left
         (fun items kv =>
            dict_update fkey_eqb items
              (map (prefix_entry sep (fst kv)) (flatten sep None (snd kv))))
         d [])
  /\ (forall sep l,
        flatten sep None (VList l)
        = fold_left
            (fun items kv =>
               dict_update fkey_eqb items
                 (map (prefix_entry sep (fst kv)) (flatten sep None (snd kv))))
            (indexed 0 l) [])
  /\ (forall sep p v,
        flatten sep (Some p) v = map (prefix_entry sep p) (flatten sep None v))
  /\ flatten "." None
       (VDict [("a", VScalar (SInt 1));
               ("b", VDict [("c", VScalar (SInt 2));
                            ("d", VDict [("e", VScalar (SInt 3))])]);
               ("f", VList [VScalar (SInt 4); VScalar (SInt 5)])])
     = [(Some "a", SInt 1); (Some "b.c", SInt 2); (Some "b.d.e", SInt 3);
        (Some "f.0", SInt 4); (Some "f.1", SInt 5)].
Proof.
  repeat split.
  - intros sep d. rewrite flatten_dict_eq. apply flatten_items_root.
  - intros sep l. rewrite flatten_list_eq. apply flatten_items_root.
  - intros sep p v. apply flatten_under_key.
Qed.

(** ** C6: one entry per scalar leaf *)

(** C6.  For a value whose mapping keys hold no ["."] (its mappings, being
    Python dictionaries, have each key once), [flatten] returns exactly the
    entries of the scalar leaves, [None] included, in order: each under the
    key that joins its root-to-leaf path with ["."] and splits back into that
    path; no two entries share a key, and there are as many entries as
    leaves. *)
Theorem flatten_one_entry_per_leaf (v : value) :
  unique_keys v = true -> dot_free_keys v = true ->
  flatten "." None v = map (leaf_entry "." None) (leaves v)
  /\ NoDup (keys (flatten "." None v))
  /\ (forall p s, In (p, s) (leaves v) -> p <> [] ->
        exists key, In (Some key, s) (flatten "." None v)
                    /\ split "." key = p)
  /\ length (flatten "." None v) = count_leaves v.
Proof.
  intros Hu Hd.
  pose proof (flatten_unique_dot_free v None Hu Hd) as E.
  split; [exact E|]. rewrite E. split; [now apply leaf_keys_NoDup|]. split.
  - intros p s Hin Hne.
    pose proof (paths_no_dot v Hd) as Hp. rewrite Forall_forall in Hp.
    assert (Hps : Forall (fun x => no_dot x = true) p).
    { apply Hp. unfold paths. now apply (in_map fst) in Hin. }
    destruct p as [|a p]; [contradiction|].
    destruct (split_path_key_root a p Hps) as (key & Hk & Hs).
    exists key. split; [|exact Hs].
    apply in_map_iff. exists (a :: p, s). split; [|exact Hin].
    unfold leaf_entry. cbn [fst snd]. now rewrite Hk.
  - now rewrite length_map, length_leaves.
Qed.

Lemma flatten_one_entry_per_leaf_witness :
  unique_keys
    (VDict [("a", VScalar SNone);
            ("b", VList [VScalar (SInt 1); VDict [("c", VScalar (SStr "x"))]])]) = true
  /\ dot_free_keys
       (VDict [("a", VScalar SNone);
               ("b", VList [VScalar (SInt 1); VDict [("c", VScalar (SStr "x"))]])]) = true
  /\ length
       (flatten "." None
          (VDict [("a", VScalar SNone);
                  ("b", VList [VScalar (SInt 1); VDict [("c", VScalar (SStr "x"))]])]))
     = 3%nat.
Proof.
  split; [reflexivity|]. split; [reflexivity|].
  exact (proj2 (proj2 (proj2
    (flatten_one_entry_per_leaf
       (VDict [("a", VScalar SNone);
               ("b", VList [VScalar (SInt 1); VDict [("c", VScalar (SStr "x"))]])])
       eq_refl eq_refl)))).
Defined.

(** ** C7: a NaN entry is dropped *)

(** C7.  [unflatten({"a.b": 1, "a.c": NaN})] is [{"a": {"b": 1}}]: the
    mapping under ["a"] has no key ["c"]. *)
Theorem unflatten_drops_nan_entry :
  unflatten [(Some "a.b", SInt 1); (Some "a.c", SFloat FNaN)]
  = Ok (VDict [("a", VDict [("b", VScalar (SInt 1))])])
  /\ dict_get String.eqb "c" [("b", VScalar (SInt 1))] = None.
Proof. split; reflexivity. Qed.

(** ** C9: a scalar in the way of a longer key *)

(** C9.  [unflatten] is not total: when a key's scalar is assigned first and a
    later key continues that key after a ["."], the walk of the later key
    reaches the scalar and the assignment into it raises a [TypeError]; so
    for [{"a": 1, "a.b": 2}] in that order. *)
Theorem unflatten_raises_on_scalar_prefix (k seg : string) (s t : scalar) :
  no_dot k = true -> no_dot seg = true ->
  is_nan s = false -> is_nan t = false ->
  unflatten [(Some k, s); (Some (k ++ "." ++ seg)%string, t)] = Raise TypeError.
Proof.
  intros Hk Hseg Hs Ht. unfold no_dot in Hk, Hseg.
  apply negb_true_iff in Hk, Hseg.
  unfold unflatten. cbn [build]. unfold step. cbn [fst snd].
  rewrite (split_no_sep "." k Hk). cbn [removelast last assign]. rewrite Hs.
  cbn [bind dict_set].
  change (k ++ "." ++ seg)%string with (k ++ String "." seg)%string.
  rewrite (split_snoc "." k seg Hseg), (split_no_sep "." k Hk).
  cbn [List.app removelast last assign dict_get]. rewrite String.eqb_refl.
  cbn [assign]. rewrite Ht. reflexivity.
Qed.

Lemma unflatten_raises_on_scalar_prefix_witness :
  no_dot "a" = true /\ no_dot "b" = true
  /\ is_nan (SInt 1) = false /\ is_nan (SInt 2) = false
  /\ unflatten [(Some "a", SInt 1); (Some "a.b", SInt 2)] = Raise TypeError.
Proof.
  repeat (split; [reflexivity|]).
  exact (unflatten_raises_on_scalar_prefix "a" "b" (SInt 1) (SInt 2)
           eq_refl eq_refl eq_refl eq_refl).
Defined.

(** ** C10: the empty mapping in the conversion pass *)

(** C10.  On the empty mapping the [try] block fails with the [ValueError] of
    [min] on an empty list, the failure is caught, and the pass returns the
    empty mapping; [unflatten({})] is [{}]. *)
Theorem convert_to_list_empty_mapping :
  py_min (sort []) = Raise ValueError
  /\ try_block [] = Raise ValueError
  /\ convert_to_list (VDict []) = Ok (VDict [])
  /\ unflatten [] = Ok (VDict []).
Proof. repeat split. Qed.

(** ** What the conversion pass can raise *)

Lemma try_block_error (d : list (string * value)) (e : exn) :
  try_block d = Raise e -> e = ValueError \/ e = KeyError \/ e = OverflowError.
Proof.
  unfold try_block.
  destruct (mapM py_int (keys d)) as [zs|e0] eqn:E; cbn [bind].
  - destruct (py_min (sort zs)) as [lo|e1] eqn:Emin; cbn [bind].
    + destruct (py_max (sort zs)) as [hi|e2] eqn:Emax; cbn [bind].
      * destruct (py_list_range lo (hi + 1)) as [range|e3] eqn:Er; cbn [bind].
        -- destruct (list_Z_eqb (sort zs) range); [|discriminate].
           destruct (mapM (fun k => getitem d (py_str k)) (sort zs)) eqn:Eg;
             cbn [bind]; [discriminate|].
           intros [= <-]. right. left. eapply mapM_getitem_error, Eg.
        -- intros [= <-]. right. right. eapply py_list_range_error, Er.
      * intros [= <-]. left. eapply py_max_error, Emax.
    + intros [= <-]. left. eapply py_min_error, Emin.
  - intros [= <-]. left. eapply mapM_py_int_error, E.
Qed.

(** The exceptions that leave [convert_to_list] are the [KeyError] of
    [d[str(k)]] and the [OverflowError] of a range too long for a list. *)
Lemma convert_to_list_error (v : value) (e : exn) :
  convert_to_list v = Raise e -> e = KeyError \/ e = OverflowError.
Proof.
  revert e. induction v as [s|l IH|d IH] using value_ind; intros e;
    [discriminate|discriminate|].
  rewrite convert_dict_eq.
  assert (Hitems : forall e', (items' <- convert_items d ;; Ok (VDict items'))
                              = Raise e' -> e' = KeyError \/ e' = OverflowError).
  { intros e'. unfold convert_items.
    destruct (mapM _ d) as [items'|e0] eqn:E; cbn [bind]; [discriminate|].
    intros [= <-]. revert e0 E.
    induction IH as [|[k x] d Hx _ IHd]; intros e0; cbn [mapM fst snd];
      [discriminate|].
    destruct (convert_to_list x) as [x'|ex] eqn:Ex; cbn [bind].
    - destruct (mapM _ d) as [r|er]; cbn [bind]; [discriminate|].
      intros [= <-]. now apply IHd.
    - intros [= <-]. now apply Hx. }
  destruct (try_block d) as [[l|]|e0] eqn:E.
  - discriminate.
  - apply Hitems.
  - destruct (try_block_error d e0 E) as [->|[->| ->]]; [apply Hitems| |].
    + intros [= <-]. now left.
    + intros [= <-]. now right.
Qed.

(** A node with a key that is no integer stays a mapping with the keys it
    had, whenever the pass returns. *)
Lemma convert_parse_failure (d : list (string * value)) (k : string) :
  In k (keys d) -> py_int k = Raise ValueError ->
  convert_to_list (VDict d) = (items' <- convert_items d ;; Ok (VDict items')).
Proof.
  intros Hin Hk. apply convert_fall_through. right.
  exact (try_block_parse_failure d k Hin Hk).
Qed.

Lemma keys_convert_items (d items' : list (string * value)) :
  convert_items d = Ok items' -> keys items' = keys d.
Proof.
  unfold convert_items. revert items'.
  induction d as [|[k x] d IH]; intros items'; cbn [mapM fst snd].
  - now intros [= <-].
  - destruct (convert_to_list x); cbn [bind]; [|discriminate].
    destruct (mapM _ d) as [r|]; cbn [bind]; [|discriminate].
    intros [= <-]. cbn [keys map fst]. f_equal. now apply IH.
Qed.

(** ** The rule on keys in canonical decimal *)

Lemma In_insert_sorted (x z : Z) (l : list Z) :
  In z (insert_sorted x l) <-> z = x \/ In z l.
Proof.
  induction l as [|y l IH]; simpl; [intuition|].
  destruct (x <=? y)%Z; simpl; [intuition|]. rewrite IH. intuition.
Qed.

Lemma In_sort (z : Z) (l : list Z) : In z (sort l) <-> In z l.
Proof.
  unfold sort. induction l as [|x l IH]; simpl; [reflexivity|].
  rewrite In_insert_sorted, IH. intuition.
Qed.

Lemma mapM_Ok_from {A B : Type} (f : A -> pyresult B) (l : list A) (ys : list B) :
  mapM f l = Ok ys -> forall y, In y ys -> exists x, In x l /\ f x = Ok y.
Proof.
  revert ys. induction l as [|a l IH]; intros ys H y Hin; simpl in H.
  - injection H as <-. destruct Hin.
  - destruct (f a) as [b|] eqn:Ea; [|discriminate]. simpl in H.
    destruct (mapM f l) as [ys'|] eqn:El; [|discriminate].
    injection H as <-. destruct Hin as [<-|Hin].
    + exists a. split; [now left|exact Ea].
    + destruct (IH ys' eq_refl y Hin) as (x & Hx & Hfx).
      exists x. split; [now right|exact Hfx].
Qed.

Lemma mapM_total {A B : Type} (f : A -> pyresult B) (l : list A) :
  (forall x, In x l -> exists y, f x = Ok y) -> exists ys, mapM f l = Ok ys.
Proof.
  induction l as [|a l IH]; intros H; [now exists []|].
  destruct (H a (or_introl eq_refl)) as (b & Hb).
  destruct IH as (ys & Hys); [intros x Hx; apply H; now right|].
  exists (b :: ys). simpl. now rewrite Hb, Hys.
Qed.

Lemma dict_get_In {V : Type} (k : string) (d : list (string * V)) :
  In k (keys d) -> exists v, dict_get String.eqb k d = Some v.
Proof.
  induction d as [|[k' v'] d IH]; simpl; [intros []|].
  destruct (String.eqb_spec k k') as [->|Hk]; [now exists v'|].
  intros [E|Hin]; [now symmetry in E|now apply IH].
Qed.

(** When every key that parses is the decimal rendering of its integer, the
    lookups of the [try] find their keys. *)
Lemma lookups_canonical (d : list (string * value)) (zs : list Z) :
  mapM py_int (keys d) = Ok zs ->
  (forall k z, In k (keys d) -> py_int k = Ok z -> py_str z = k) ->
  exists l, mapM (fun z => getitem d (py_str z)) (sort zs) = Ok l.
Proof.
  intros Hzs Hcan. apply mapM_total.
  intros z Hz. apply (proj1 (In_sort z zs)) in Hz.
  destruct (mapM_Ok_from _ _ _ Hzs z Hz) as (k & Hk & Hkz).
  rewrite (Hcan k z Hk Hkz). unfold getitem.
  destruct (dict_get_In k d Hk) as (v & ->). now exists v.
Qed.

(** With such keys, a node with no more keys than a list can hold, whose
    keys form a contiguous range, does become the sequence of its values in
    ascending key order. *)
Lemma convert_list_like_canonical (d : list (string * value)) :
  list_like (keys d) = true -> fits (keys d) = true ->
  (forall k z, In k (keys d) -> py_int k = Ok z -> py_str z = k) ->
  exists zs l,
    mapM py_int (keys d) = Ok zs
    /\ mapM (fun z => getitem d (py_str z)) (sort zs) = Ok l
    /\ convert_to_list (VDict d) = Ok (VList l).
Proof.
  intros Hll Hfit Hcan.
  destruct (convert_list_like d Hll Hfit) as (zs & Hzs & Hconv).
  destruct (lookups_canonical d zs Hzs Hcan) as (l & Hl).
  exists zs, l. rewrite Hconv, Hl. repeat split; assumption.
Qed.

(** ** C3, C4 and C8 on the code *)

(** C3, at the failing input.  [flatten] takes the nested sequence
    [{"a": [[1]]}] to [{"a.0.0": 1}]; on that, the pass turns the node under
    ["a"] into a sequence and returns its element as it was built: the
    mapping [{"0": 1}], whose only key is the integer range from 0 to 0. *)
Theorem nested_sequence_element_not_converted :
  flatten "." None (VDict [("a", VList [VList [VScalar (SInt 1)]])])
  = [(Some "a.0.0", SInt 1)]
  /\ unflatten [(Some "a.0.0", SInt 1)]
     = Ok (VDict [("a", VList [VDict [("0", VScalar (SInt 1))]])])
  /\ list_like (keys [("0", VScalar (SInt 1))]) = true.
Proof. repeat split. Qed.

(** C4, at the failing input.  The node under ["x"] has the single key
    ["01"], which parses as the integer 1, a contiguous range; the pass
    then looks up [str(1)], the key ["1"], and [unflatten] ends in a
    [KeyError] instead of returning [{"x": ["a"]}]. *)
Theorem unflatten_noncanonical_integer_key :
  py_int "01" = Ok 1%Z
  /\ list_like ["01"] = true
  /\ build [(Some "x.01", SStr "a")] (VDict [])
     = Ok (VDict [("x", VDict [("01", VScalar (SStr "a"))])])
  /\ unflatten [(Some "x.01", SStr "a")] = Raise KeyError.
Proof. repeat split. Qed.

(** The two examples the specification gives for the rule. *)
Lemma unflatten_contiguity_examples :
  unflatten [(Some "x.1", SStr "a"); (Some "x.2", SStr "b")]
  = Ok (VDict [("x", VList [VScalar (SStr "a"); VScalar (SStr "b")])])
  /\ unflatten [(Some "x.0", SStr "a"); (Some "x.2", SStr "b")]
     = Ok (VDict [("x", VDict [("0", VScalar (SStr "a")); ("2", VScalar (SStr "b"))])]).
Proof. split; reflexivity. Qed.

(** C8, at the failing input.  The root of the tree built from
    [{"a.+1": 1}] has the key ["a"], which is no integer, and the pass still
    raises: the [KeyError] of the node below it, whose key ["+1"] parses as 1
    and is looked up as ["1"]. *)
Theorem unflatten_raises_below_unparsable_key :
  py_int "a" = Raise ValueError
  /\ build [(Some "a.+1", SInt 1)] (VDict [])
     = Ok (VDict [("a", VDict [("+1", VScalar (SInt 1))])])
  /\ unflatten [(Some "a.+1", SInt 1)] = Raise KeyError.
Proof. repeat split. Qed.


(** * Further properties of the code *)

(** ** [flatten] does not tell a sequence from a mapping of positions *)

Lemma flatten_items_raw (sep : string) (es : list (string * value)) :
  Forall (fun kv => forall pk, flatten sep pk (raw (snd kv)) = flatten sep pk (snd kv)) es ->
  forall pk items,
    flatten_items sep pk (raw_items es) items = flatten_items sep pk es items.
Proof.
  unfold flatten_items, raw_items. intros H.
  induction H as [|[k x] es Hx _ IH]; intros pk items; [reflexivity|].
  cbn [map fold_left fst snd] in *. rewrite Hx. apply IH.
Qed.

Lemma flatten_raw_eq (sep : string) (v : value) :
  forall pk, flatten sep pk (raw v) = flatten sep pk v.
Proof.
  induction v as [s|l IH|d IH] using value_ind; intros pk.
  - reflexivity.
  - cbn [raw]. rewrite <- raw_items_indexed, flatten_dict_eq, flatten_list_eq.
    apply flatten_items_raw.
    apply (Forall_indexed
             (fun x => forall pk, flatten sep pk (raw x) = flatten sep pk x)).
    exact IH.
  - cbn [raw]. fold (raw_items d). rewrite !flatten_dict_eq.
    apply flatten_items_raw. exact IH.
Qed.

(** X1.  [flatten] gives a sequence the entries of the mapping from its
    decimal positions to its elements, at every depth: the flat mapping
    does not record which nodes were sequences. *)
Theorem flatten_forgets_sequences (sep : string) (pk : fkey) :
  (forall l, flatten sep pk (VList l) = flatten sep pk (VDict (indexed 0 l)))
  /\ (forall v, flatten sep pk (raw v) = flatten sep pk v).
Proof.
  split.
  - intros l. now rewrite flatten_list_eq, flatten_dict_eq.
  - intros v. apply flatten_raw_eq.
Qed.

(** ** [flatten] invents no entry *)

Lemma In_dict_set_flat (k : fkey) (v : scalar) (d : flat) (e : fkey * scalar) :
  In e (dict_set fkey_eqb k v d) -> e = (k, v) \/ In e d.
Proof.
  induction d as [|[k' v'] d IH]; simpl.
  - intros [<-|[]]. now left.
  - destruct (fkey_eqb k k') eqn:E; simpl.
    + apply fkey_eqb_eq in E. subst k'.
      intros [<-|Hin]; [now left|right; now right].
    + intros [<-|Hin]; [right; now left|].
      destruct (IH Hin) as [->|H]; [now left|right; now right].
Qed.

Lemma In_dict_update_flat (other d : flat) (e : fkey * scalar) :
  In e (dict_update fkey_eqb d other) -> In e d \/ In e other.
Proof.
  unfold dict_update. revert d.
  induction other as [|[k v] other IH]; intros d H; simpl in *; [now left|].
  destruct (IH _ H) as [Hin|Hin]; [|right; now right].
  destruct (In_dict_set_flat _ _ _ _ Hin) as [->|Hd]; [right; now left|now left].
Qed.

Lemma length_dict_set {K V : Type} (keqb : K -> K -> bool) (k : K) (v : V)
    (d : list (K * V)) :
  (length (dict_set keqb k v d) <= S (length d))%nat.
Proof.
  induction d as [|[k' v'] d IH]; simpl; [lia|].
  destruct (keqb k k'); simpl; lia.
Qed.

Lemma length_dict_update {K V : Type} (keqb : K -> K -> bool)
    (other d : list (K * V)) :
  (length (dict_update keqb d other) <= length d + length other)%nat.
Proof.
  unfold dict_update. revert d.
  induction other as [|[k v] other IH]; intros d; simpl; [lia|].
  specialize (IH (dict_set keqb k v d)).
  pose proof (length_dict_set keqb k v d). lia.
Qed.

Lemma flatten_items_sub (sep : string) (es : list (string * value)) :
  Forall (fun kv => forall pk e,
            In e (flatten sep pk (snd kv)) ->
            In e (map (leaf_entry sep pk) (leaves (snd kv)))) es ->
  forall pk items e,
    In e (flatten_items sep pk es items) ->
    In e items \/ In e (map (leaf_entry sep pk) (leaves_items es)).
Proof.
  unfold flatten_items, leaves_items. intros H.
  induction H as [|[k x] es Hx _ IH]; intros pk items e Hin; [now left|].
  cbn [fold_left flat_map fst snd] in *.
  rewrite map_app, leaf_entry_under.
  destruct (IH _ _ _ Hin) as [H1|H2].
  - destruct (In_dict_update_flat _ _ _ H1) as [Hi|Hf]; [now left|].
    right. apply in_or_app. left. now apply Hx.
  - right. apply in_or_app. now right.
Qed.

Lemma flatten_items_length (sep : string) (es : list (string * value)) :
  Forall (fun kv => forall pk,
            (length (flatten sep pk (snd kv)) <= length (leaves (snd kv)))%nat) es ->
  forall pk items,
    (length (flatten_items sep pk es items)
     <= length items + length (leaves_items es))%nat.
Proof.
  unfold flatten_items, leaves_items. intros H.
  induction H as [|[k x] es Hx _ IH]; intros pk items; simpl; [lia|].
  cbn [fst snd] in *. rewrite length_app, length_map.
  specialize (IH pk (dict_update fkey_eqb items
                       (flatten sep (Some (new_key sep pk k)) x))).
  pose proof (length_dict_update fkey_eqb
                (flatten sep (Some (new_key sep pk k)) x) items).
  specialize (Hx (Some (new_key sep pk k))). lia.
Qed.

Lemma flatten_sub (sep : string) (v : value) :
  forall pk e, In e (flatten sep pk v) -> In e (map (leaf_entry sep pk) (leaves v)).
Proof.
  induction v as [s|l IH|d IH] using value_ind; intros pk e Hin.
  - exact Hin.
  - rewrite flatten_list_eq in Hin. rewrite leaves_list_eq.
    destruct (flatten_items_sub sep (indexed 0 l)
                (Forall_indexed
                   (fun x => forall pk e, In e (flatten sep pk x) ->
                               In e (map (leaf_entry sep pk) (leaves x)))
                   l 0 IH) pk [] e Hin) as [[]|H]; exact H.
  - rewrite flatten_dict_eq in Hin. rewrite leaves_dict_eq.
    destruct (flatten_items_sub sep d IH pk [] e Hin) as [[]|H]; exact H.
Qed.

Lemma flatten_length (sep : string) (v : value) :
  forall pk, (length (flatten sep pk v) <= length (leaves v))%nat.
Proof.
  induction v as [s|l IH|d IH] using value_ind; intros pk.
  - simpl. lia.
  - rewrite flatten_list_eq, leaves_list_eq.
    apply (flatten_items_length sep (indexed 0 l)
             (Forall_indexed
                (fun x => forall pk, (length (flatten sep pk x)
                                      <= length (leaves x))%nat) l 0 IH) pk []).
  - rewrite flatten_dict_eq, leaves_dict_eq.
    apply (flatten_items_length sep d IH pk []).
Qed.

(** X2.  Whatever the keys and the separator, every entry of [flatten(v)] is
    the entry of a scalar leaf of [v] under the joined path of that leaf, and
    there are never more entries than leaves (keys that collide overwrite one
    another; nothing is made up). *)
Theorem flatten_entries_are_leaves (sep : string) (pk : fkey) (v : value) :
  (forall e, In e (flatten sep pk v) -> In e (map (leaf_entry sep pk) (leaves v)))
  /\ (length (flatten sep pk v) <= count_leaves v)%nat.
Proof.
  split; [apply flatten_sub|].
  rewrite <- length_leaves. apply flatten_length.
Qed.

(** X3.  [flatten] of a mapping or of a sequence has string keys only, as has
    [flatten] of anything under a parent key: the key [None] is that of a
    scalar given at the root, and of nothing else. *)
Theorem flatten_keys_are_strings (sep : string) :
  (forall d, Forall (fun e => fst e <> None) (flatten sep None (VDict d)))
  /\ (forall l, Forall (fun e => fst e <> None) (flatten sep None (VList l)))
  /\ (forall p v, Forall (fun e => fst e <> None) (flatten sep (Some p) v))
  /\ (forall s, flatten sep None (VScalar s) = [(None, s)]).
Proof.
  repeat split.
  - intros d. rewrite flatten_dict_eq.
    apply flatten_items_keys_some; [|constructor].
    apply Forall_forall. intros kv _ p. apply flatten_keys_some.
  - intros l. rewrite flatten_list_eq.
    apply flatten_items_keys_some; [|constructor].
    apply Forall_forall. intros kv _ p. apply flatten_keys_some.
  - intros p v. apply flatten_keys_some.
Qed.

(** ** The loop of [unflatten] undoes [flatten] *)

(** X4.  For a mapping or sequence [v] with distinct keys free of ["."] and
    below it neither NaN nor an empty container, the loop of [unflatten] run
    on [flatten(v)] rebuilds [v] with every sequence read as the mapping
    from its positions, sequences inside sequences included; only the
    conversion pass is left to tell sequences from mappings. *)
Theorem loop_rebuilds_flattened (v : value) :
  solid_root v = true -> unique_keys v = true -> dot_free_keys v = true ->
  build (flatten "." None v) (VDict []) = Ok (raw v).
Proof.
  intros Hs Hu Hd. destruct v as [s|l|d]; [discriminate| |].
  - cbn [solid_root unique_keys] in *. cbn [raw].
    rewrite <- raw_items_indexed.
    apply (build_flatten_items (VList l) (indexed 0 l)).
    + apply leaves_list_eq.
    + apply keys_indexed_NoDup.
    + apply Forall_and; apply forallb_Forall; now rewrite forallb_indexed.
    + exact Hu.
    + exact Hd.
  - pose proof Hu as Hu'. cbn [solid_root unique_keys] in Hs, Hu'.
    apply andb_true_iff in Hu' as [Hnd Hue].
    apply (build_flatten_items (VDict d) d).
    + apply leaves_dict_eq.
    + now apply distinct_NoDup.
    + apply Forall_and; now apply forallb_Forall.
    + exact Hu.
    + exact Hd.
Qed.

Lemma loop_rebuilds_flattened_witness :
  solid_root (VDict [("a", VList [VList [VScalar (SInt 1); VScalar SNone]]);
                     ("0", VScalar (SStr "x"))]) = true
  /\ build
       (flatten "." None
          (VDict [("a", VList [VList [VScalar (SInt 1); VScalar SNone]]);
                  ("0", VScalar (SStr "x"))]))
       (VDict [])
     = Ok (VDict [("a", VDict [("0", VDict [("0", VScalar (SInt 1));
                                             ("1", VScalar SNone)])]);
                  ("0", VScalar (SStr "x"))]).
Proof.
  split; [reflexivity|].
  exact (loop_rebuilds_flattened
           (VDict [("a", VList [VList [VScalar (SInt 1); VScalar SNone]]);
                   ("0", VScalar (SStr "x"))])
           eq_refl eq_refl eq_refl).
Defined.

(** ** What [unflatten] can raise *)

Lemma assign_error (walk : list string) (last : string) (v : scalar) :
  forall n e, assign walk last v n = Raise e -> e = TypeError.
Proof.
  induction walk as [|part rest IH]; intros n e; cbn [assign].
  - destruct (is_nan v); [discriminate|].
    destruct n; try discriminate; now intros [= <-].
  - destruct n as [s|l|d]; try (now intros [= <-]).
    destruct (assign rest last v _) eqn:E; cbn [bind]; [discriminate|].
    intros [= <-]. eapply IH, E.
Qed.

Lemma build_error (d : flat) :
  forall t e, build d t = Raise e ->
    e = TypeError \/ (e = AttributeError /\ exists s, In (None, s) d).
Proof.
  induction d as [|[[key|] s] d IH]; intros t e; cbn [build]; [discriminate| |].
  - unfold step. cbn [fst snd].
    destruct (assign _ _ s t) as [t'|e'] eqn:E; cbn [bind].
    + intros H. destruct (IH _ _ H) as [->|[-> [s' Hin]]]; [now left|].
      right. split; [reflexivity|]. exists s'. now right.
    + intros [= <-]. left. eapply assign_error, E.
  - unfold step. cbn [fst bind]. intros [= <-]. right.
    split; [reflexivity|]. exists s. now left.
Qed.

(** X5.  The [ValueError] the conversion pass raises and catches never
    leaves [unflatten].  An [AttributeError] means the flat mapping has the
    key [None]; a [TypeError] or an [AttributeError] comes from the loop (a
    scalar stands where the walk needs a mapping, or a key cannot be
    split); a [KeyError] or an [OverflowError] comes from the conversion
    pass on the tree the loop has built (the lookup [d[str(k)]], and
    [list(range(...))] over integer keys more than [sys.maxsize] apart). *)
Theorem unflatten_exceptions (d : flat) (e : exn) :
  unflatten d = Raise e ->
  e <> ValueError
  /\ (e = AttributeError -> exists s, In (None, s) d)
  /\ (e = TypeError \/ e = AttributeError -> build d (VDict []) = Raise e)
  /\ (e = KeyError \/ e = OverflowError ->
      exists t, build d (VDict []) = Ok t /\ convert_to_list t = Raise e).
Proof.
  unfold unflatten. destruct (build d (VDict [])) as [t|e'] eqn:E; cbn [bind].
  - intros H. destruct (convert_to_list_error t e H) as [->| ->].
    + repeat split; try discriminate.
      * intros [?|?]; discriminate.
      * intros _. now exists t.
    + repeat split; try discriminate.
      * intros [?|?]; discriminate.
      * intros _. now exists t.
  - intros [= <-]. destruct (build_error d _ _ E) as [->|[-> Hin]].
    + repeat split; try discriminate. intros [?|?]; discriminate.
    + repeat split; try discriminate; [now intros _|].
      intros [?|?]; discriminate.
Qed.

Lemma unflatten_exceptions_witness :
  unflatten [(Some "x.0", SStr "a"); (Some "x.9223372036854775808", SStr "b")]
  = Raise OverflowError
  /\ OverflowError <> ValueError
  /\ (OverflowError = AttributeError ->
      exists s, In (None, s)
                  [(Some "x.0", SStr "a"); (Some "x.9223372036854775808", SStr "b")])
  /\ (OverflowError = TypeError \/ OverflowError = AttributeError ->
      build [(Some "x.0", SStr "a"); (Some "x.9223372036854775808", SStr "b")]
        (VDict []) = Raise OverflowError)
  /\ (OverflowError = KeyError \/ OverflowError = OverflowError ->
      exists t,
        build [(Some "x.0", SStr "a"); (Some "x.9223372036854775808", SStr "b")]
          (VDict []) = Ok t
        /\ convert_to_list t = Raise OverflowError).
Proof.
  split; [reflexivity|].
  exact (unflatten_exceptions
           [(Some "x.0", SStr "a"); (Some "x.9223372036854775808", SStr "b")]
           OverflowError eq_refl).
Defined.

(** ** What the conversion pass keeps *)

Lemma try_block_values (d : list (string * value)) (l : list value) :
  try_block d = Ok (Some l) ->
  Forall (fun x => exists k, dict_get String.eqb k d = Some x) l.
Proof.
  unfold try_block.
  destruct (mapM py_int (keys d)) as [zs|]; cbn [bind]; [|discriminate].
  destruct (py_min (sort zs)) as [lo|]; cbn [bind]; [|discriminate].
  destruct (py_max (sort zs)) as [hi|]; cbn [bind]; [|discriminate].
  destruct (py_list_range lo (hi + 1)) as [range|]; cbn [bind]; [|discriminate].
  destruct (list_Z_eqb (sort zs) range); [|discriminate].
  generalize (sort zs) as ks. intros ks.
  destruct (mapM _ ks) as [l'|] eqn:E; cbn [bind]; [|discriminate].
  intros [= <-]. revert l' E.
  induction ks as [|k ks IH]; intros l'; cbn [mapM].
  - intros [= <-]. constructor.
  - unfold getitem at 1.
    destruct (dict_get String.eqb (py_str k) d) as [x|] eqn:Ex; cbn [bind];
      [|discriminate].
    destruct (mapM _ ks) as [r|]; cbn [bind]; [|discriminate].
    intros [= <-]. constructor; [now exists (py_str k)|now apply IH].
Qed.

Lemma dict_get_Forall {V : Type} (P : V -> Prop) (k : string) (x : V)
    (d : list (string * V)) :
  Forall (fun kv => P (snd kv)) d -> dict_get String.eqb k d = Some x -> P x.
Proof.
  intros H. induction H as [|[k' v'] d Hv _ IH]; simpl; [discriminate|].
  destruct (String.eqb k k'); [now intros [= <-]|exact IH].
Qed.

Section Kept.
Variable Q : value -> Prop.
Hypothesis Q_children : forall d, Q (VDict d) -> Forall (fun kv => Q (snd kv)) d.
Hypothesis Q_list : forall l, Forall Q l -> Q (VList l).
Hypothesis Q_rebuild :
  forall d d', Q (VDict d) -> keys d' = keys d ->
               Forall (fun kv => Q (snd kv)) d' -> Q (VDict d').

Lemma convert_items_kept (d : list (string * value)) :
  Forall (fun kv => forall t', Q (snd kv) -> convert_to_list (snd kv) = Ok t' -> Q t') d ->
  Forall (fun kv => Q (snd kv)) d ->
  forall items', convert_items d = Ok items' ->
                 Forall (fun kv => Q (snd kv)) items'.
Proof.
  unfold convert_items. intros H.
  induction H as [|[k x] d Hx _ IH]; intros HQ items'; cbn [mapM fst snd] in *.
  - intros [= <-]. constructor.
  - inversion HQ as [|? ? Hqx Hqd]; subst.
    destruct (convert_to_list x) as [x'|] eqn:Ex; cbn [bind]; [|discriminate].
    destruct (mapM _ d) as [r|] eqn:Er; cbn [bind]; [|discriminate].
    intros [= <-]. constructor; [exact (Hx x' Hqx eq_refl)|now apply IH].
Qed.

Lemma convert_kept (t : value) :
  forall t', Q t -> convert_to_list t = Ok t' -> Q t'.
Proof.
  induction t as [s|l IH|d IH] using value_ind; intros t' Ht.
  - now intros [= <-].
  - now intros [= <-].
  - rewrite convert_dict_eq.
    assert (Hfall : (items' <- convert_items d ;; Ok (VDict items')) = Ok t' -> Q t').
    { destruct (convert_items d) as [items'|] eqn:E; cbn [bind]; [|discriminate].
      intros [= <-]. apply (Q_rebuild d items' Ht).
      - now apply keys_convert_items.
      - exact (convert_items_kept d IH (Q_children d Ht) items' E). }
    destruct (try_block d) as [[l|]|e] eqn:E.
    + intros [= <-]. apply Q_list.
      eapply Forall_impl; [|exact (try_block_values d l E)].
      intros x [k Hk]. exact (dict_get_Forall Q k x d (Q_children d Ht) Hk).
    + exact Hfall.
    + destruct e; try discriminate. exact Hfall.
Qed.
End Kept.

(** ** What [unflatten] returns *)

Lemma assign_no_nan (walk : list string) (last : string) (v : scalar) :
  forall n n', no_nan n = true -> assign walk last v n = Ok n' -> no_nan n' = true.
Proof.
  induction walk as [|part rest IH]; intros n n' Hn; cbn [assign].
  - destruct (is_nan v) eqn:Ev; [now intros [= <-]|].
    destruct n as [s|l|d]; try discriminate. intros [= <-].
    cbn [no_nan] in *. apply forallb_dict_set; [exact Hn|].
    cbn [no_nan]. now rewrite Ev.
  - destruct n as [s|l|d]; try discriminate. cbn [no_nan] in Hn.
    destruct (assign rest last v _) as [c'|] eqn:E; cbn [bind]; [|discriminate].
    intros [= <-]. cbn [no_nan]. apply forallb_dict_set; [exact Hn|].
    eapply IH; [|exact E].
    destruct (dict_get String.eqb part d) as [c|] eqn:Ec; [|reflexivity].
    exact (forallb_dict_get no_nan part c d Hn Ec).
Qed.

Lemma build_no_nan (d : flat) :
  forall t t', no_nan t = true -> build d t = Ok t' -> no_nan t' = true.
Proof.
  induction d as [|[[key|] s] d IH]; intros t t' Ht; cbn [build].
  - now intros [= <-].
  - unfold step. cbn [fst snd].
    destruct (assign _ _ s t) as [t1|] eqn:E; cbn [bind]; [|discriminate].
    apply IH. eapply assign_no_nan; eauto.
  - discriminate.
Qed.

Lemma assign_mapping (walk : list string) (last : string) (v : scalar)
    (d : list (string * value)) (n' : value) :
  assign walk last v (VDict d) = Ok n' -> exists d', n' = VDict d'.
Proof.
  destruct walk as [|part rest]; cbn [assign].
  - destruct (is_nan v); intros [= <-]; eauto.
  - destruct (assign rest last v _); cbn [bind]; [|discriminate].
    intros [= <-]. eauto.
Qed.

Lemma build_mapping (d : flat) :
  forall m t', build d (VDict m) = Ok t' -> exists m', t' = VDict m'.
Proof.
  induction d as [|[[key|] s] d IH]; intros m t'; cbn [build].
  - intros [= <-]. eauto.
  - unfold step. cbn [fst snd].
    destruct (assign _ _ s (VDict m)) as [t1|] eqn:E; cbn [bind]; [|discriminate].
    destruct (assign_mapping _ _ _ _ _ E) as [m1 ->]. apply IH.
  - discriminate.
Qed.

Lemma convert_no_nan (t t' : value) :
  no_nan t = true -> convert_to_list t = Ok t' -> no_nan t' = true.
Proof.
  apply (convert_kept (fun x => no_nan x = true)).
  - intros d H. now apply forallb_Forall.
  - intros l H. now apply forallb_Forall.
  - intros d d' _ _ H. now apply forallb_Forall.
Qed.

(** X6.  Whatever the flat mapping, when [unflatten] returns, it returns a
    mapping or a sequence, never a scalar, and no NaN is left anywhere in
    it. *)
Theorem unflatten_result_has_no_nan (d : flat) (v : value) :
  unflatten d = Ok v ->
  no_nan v = true /\ ((exists m, v = VDict m) \/ (exists l, v = VList l)).
Proof.
  unfold unflatten. destruct (build d (VDict [])) as [t|] eqn:E; cbn [bind];
    [|discriminate].
  intros H. split.
  - eapply convert_no_nan; [|exact H]. eapply build_no_nan; [|exact E]. reflexivity.
  - destruct (build_mapping d [] t E) as [m ->].
    rewrite convert_dict_eq in H.
    destruct (try_block m) as [[l|]|[]]; try discriminate.
    + injection H as <-. right. eauto.
    + destruct (convert_items m); cbn [bind] in H; [|discriminate].
      injection H as <-. left. eauto.
    + destruct (convert_items m); cbn [bind] in H; [|discriminate].
      injection H as <-. left. eauto.
Qed.

Lemma unflatten_result_has_no_nan_witness :
  unflatten [(Some "0", SFloat FNaN); (Some "1.x", SInt 3); (Some "1.y", SFloat FNaN)]
  = Ok (VList [VDict [("x", VScalar (SInt 3))]])
  /\ no_nan (VList [VDict [("x", VScalar (SInt 3))]]) = true
  /\ ((exists m, VList [VDict [("x", VScalar (SInt 3))]] = VDict m)
      \/ (exists l, VList [VDict [("x", VScalar (SInt 3))]] = VList l)).
Proof.
  split; [reflexivity|].
  exact (unflatten_result_has_no_nan
           [(Some "0", SFloat FNaN); (Some "1.x", SInt 3); (Some "1.y", SFloat FNaN)]
           (VList [VDict [("x", VScalar (SInt 3))]]) eq_refl).
Defined.

Lemma split_no_dot (s : string) :
  Forall (fun x => no_dot x = true) (split "." s).
Proof.
  induction s as [|a s IH]; cbn [split]; [repeat constructor|].
  destruct (Ascii.eqb a ".") eqn:E; [constructor; [reflexivity|exact IH]|].
  destruct (split "." s) as [|x xs]; [repeat constructor; unfold no_dot; simpl; now rewrite E|].
  inversion IH as [|? ? Hx Hxs]; subst. constructor; [|exact Hxs].
  unfold no_dot in *. cbn [has_char]. now rewrite E.
Qed.

Lemma Forall_removelast {A : Type} (P : A -> Prop) (l : list A) :
  Forall P l -> Forall P (removelast l).
Proof.
  intros H. induction H as [|x l Hx Hl IH]; [constructor|].
  cbn [removelast]. destruct l; [constructor|]. constructor; assumption.
Qed.

Lemma Forall_last {A : Type} (P : A -> Prop) (l : list A) (d : A) :
  Forall P l -> P d -> P (last l d).
Proof.
  intros H Hd. induction H as [|x l Hx Hl IH]; [exact Hd|].
  cbn [last]. destruct l; assumption.
Qed.

Lemma keys_dict_set_no_dot {V : Type} (k : string) (v : V) (d : list (string * V)) :
  no_dot k = true -> forallb no_dot (keys d) = true ->
  forallb no_dot (keys (dict_set String.eqb k v d)) = true.
Proof.
  intros Hk. induction d as [|[k' v'] d IH]; simpl.
  - intros _. now rewrite Hk.
  - intros H. apply andb_true_iff in H as [H1 H2].
    destruct (String.eqb k k'); simpl; rewrite H1; [exact H2|now apply IH].
Qed.

Lemma assign_dot_free (walk : list string) (last : string) (v : scalar) :
  Forall (fun x => no_dot x = true) walk -> no_dot last = true ->
  forall n n', dot_free_keys n = true -> assign walk last v n = Ok n' ->
               dot_free_keys n' = true.
Proof.
  intros Hw Hl. induction Hw as [|part rest Hp _ IH]; intros n n' Hn; cbn [assign].
  - destruct (is_nan v); [now intros [= <-]|].
    destruct n as [s|l|d]; try discriminate. intros [= <-].
    cbn [dot_free_keys] in *. apply andb_true_iff in Hn as [H1 H2].
    rewrite keys_dict_set_no_dot by assumption.
    now apply forallb_dict_set.
  - destruct n as [s|l|d]; try discriminate. cbn [dot_free_keys] in Hn.
    apply andb_true_iff in Hn as [H1 H2].
    destruct (assign rest last v _) as [c'|] eqn:E; cbn [bind]; [|discriminate].
    intros [= <-]. cbn [dot_free_keys].
    rewrite keys_dict_set_no_dot by assumption.
    apply forallb_dict_set; [exact H2|].
    eapply IH; [|exact E].
    destruct (dict_get String.eqb part d) as [c|] eqn:Ec; [|reflexivity].
    exact (forallb_dict_get dot_free_keys part c d H2 Ec).
Qed.

Lemma build_dot_free (d : flat) :
  forall t t', dot_free_keys t = true -> build d t = Ok t' ->
               dot_free_keys t' = true.
Proof.
  induction d as [|[[key|] s] d IH]; intros t t' Ht; cbn [build].
  - now intros [= <-].
  - unfold step. cbn [fst snd].
    destruct (assign _ _ s t) as [t1|] eqn:E; cbn [bind]; [|discriminate].
    apply IH. eapply assign_dot_free; [| | |exact E].
    + apply Forall_removelast, split_no_dot.
    + apply Forall_last; [apply split_no_dot|reflexivity].
    + exact Ht.
  - discriminate.
Qed.

Lemma convert_dot_free (t t' : value) :
  dot_free_keys t = true -> convert_to_list t = Ok t' -> dot_free_keys t' = true.
Proof.
  apply (convert_kept (fun x => dot_free_keys x = true)).
  - intros d H. cbn [dot_free_keys] in H. apply andb_true_iff in H as [_ H].
    now apply forallb_Forall.
  - intros l H. now apply forallb_Forall.
  - intros d d' H Hk Hc. cbn [dot_free_keys] in *.
    apply andb_true_iff in H as [H _]. rewrite Hk, H. now apply forallb_Forall.
Qed.

(** X7.  No key of any mapping in the value [unflatten] returns contains a
    ["."]: every key is one segment of a split flat key. *)
Theorem unflatten_keys_have_no_dot (d : flat) (v : value) :
  unflatten d = Ok v -> dot_free_keys v = true.
Proof.
  unfold unflatten. destruct (build d (VDict [])) as [t|] eqn:E; cbn [bind];
    [|discriminate].
  intros H. eapply convert_dot_free; [|exact H].
  eapply build_dot_free; [|exact E]. reflexivity.
Qed.

Lemma unflatten_keys_have_no_dot_witness :
  unflatten [(Some "a..b", SInt 1); (Some ".c", SInt 2)]
  = Ok (VDict [("a", VDict [("", VDict [("b", VScalar (SInt 1))])]);
               ("", VDict [("c", VScalar (SInt 2))])])
  /\ dot_free_keys
       (VDict [("a", VDict [("", VDict [("b", VScalar (SInt 1))])]);
               ("", VDict [("c", VScalar (SInt 2))])]) = true.
Proof.
  split; [reflexivity|].
  exact (unflatten_keys_have_no_dot
           [(Some "a..b", SInt 1); (Some ".c", SInt 2)] _ eq_refl).
Defined.

(** ** The conversion pass, applied again *)

Lemma convert_items_again (d : list (string * value)) :
  Forall (fun kv => forall t', convert_to_list (snd kv) = Ok t' ->
                               convert_to_list t' = Ok t') d ->
  forall items', convert_items d = Ok items' -> convert_items items' = Ok items'.
Proof.
  unfold convert_items. intros H.
  induction H as [|[k x] d Hx _ IH]; intros items'; cbn [mapM fst snd] in *.
  - now intros [= <-].
  - destruct (convert_to_list x) as [x'|] eqn:Ex; cbn [bind]; [|discriminate].
    destruct (mapM _ d) as [r|] eqn:Er; cbn [bind]; [|discriminate].
    intros [= <-]. cbn [mapM fst snd]. rewrite (Hx x' eq_refl). cbn [bind].
    now rewrite (IH r eq_refl).
Qed.

Lemma convert_again (t : value) :
  forall t', convert_to_list t = Ok t' -> convert_to_list t' = Ok t'.
Proof.
  induction t as [s|l IH|d IH] using value_ind; intros t'.
  - now intros [= <-].
  - now intros [= <-].
  - assert (Hfall : try_block d = Ok None \/ try_block d = Raise ValueError ->
                     convert_to_list (VDict d) = Ok t' ->
                     convert_to_list t' = Ok t').
    { intros Hd. rewrite (convert_fall_through d Hd).
      destruct (convert_items d) as [items'|] eqn:E; cbn [bind]; [|discriminate].
      intros [= <-].
      rewrite convert_fall_through
        by exact (try_block_same_keys d items' (keys_convert_items d items' E) Hd).
      now rewrite (convert_items_again d IH items' E). }
    destruct (try_block d) as [[l|]|e] eqn:Et.
    + rewrite convert_dict_eq, Et. now intros [= <-].
    + apply Hfall. now left.
    + destruct (try_block_error d e Et) as [->|[->| ->]].
      * apply Hfall. now right.
      * rewrite convert_dict_eq, Et. discriminate.
      * rewrite convert_dict_eq, Et. discriminate.
Qed.

(** X8.  The conversion pass is idempotent: applied to a value it has
    returned, it returns that value again, without an exception. *)
Theorem convert_to_list_idempotent (t t' : value) :
  convert_to_list t = Ok t' -> convert_to_list t' = Ok t'.
Proof. apply convert_again. Qed.

Lemma convert_to_list_idempotent_witness :
  convert_to_list
    (VDict [("a", VDict [("1", VScalar (SInt 1)); ("2", VDict [("0", VScalar SNone)])]);
            ("b", VDict [("0", VScalar (SInt 2)); ("x", VDict [("5", VScalar (SInt 3))])])])
  = Ok (VDict [("a", VList [VScalar (SInt 1); VDict [("0", VScalar SNone)]]);
               ("b", VDict [("0", VScalar (SInt 2)); ("x", VList [VScalar (SInt 3)])])])
  /\ convert_to_list
       (VDict [("a", VList [VScalar (SInt 1); VDict [("0", VScalar SNone)]]);
               ("b", VDict [("0", VScalar (SInt 2)); ("x", VList [VScalar (SInt 3)])])])
     = Ok (VDict [("a", VList [VScalar (SInt 1); VDict [("0", VScalar SNone)]]);
                  ("b", VDict [("0", VScalar (SInt 2)); ("x", VList [VScalar (SInt 3)])])]).
Proof.
  split; [reflexivity|].
  exact (convert_to_list_idempotent
           (VDict [("a", VDict [("1", VScalar (SInt 1)); ("2", VDict [("0", VScalar SNone)])]);
                   ("b", VDict [("0", VScalar (SInt 2)); ("x", VDict [("5", VScalar (SInt 3))])])])
           (VDict [("a", VList [VScalar (SInt 1); VDict [("0", VScalar SNone)]]);
                   ("b", VDict [("0", VScalar (SInt 2)); ("x", VList [VScalar (SInt 3)])])])
           eq_refl).
Defined.


(** ** When the loop of [unflatten] fails *)

Lemma is_prefix_refl (p : list string) : is_prefix p p = true.
Proof. induction p as [|x p IH]; simpl; [reflexivity|]. now rewrite String.eqb_refl. Qed.

Lemma is_prefix_trans (p q r : list string) :
  is_prefix p q = true -> is_prefix q r = true -> is_prefix p r = true.
Proof.
  revert q r. induction p as [|x p IH]; intros [|y q] [|z r]; simpl;
    try reflexivity; try discriminate.
  intros H1 H2. apply andb_true_iff in H1 as [E1 H1].
  apply andb_true_iff in H2 as [E2 H2].
  apply String.eqb_eq in E1, E2. subst. rewrite String.eqb_refl. simpl. eauto.
Qed.

Lemma is_prefix_app (p r : list string) : is_prefix p (p ++ r) = true.
Proof. induction p as [|x p IH]; simpl; [reflexivity|]. now rewrite String.eqb_refl. Qed.

Lemma blocked_spec (walk : list string) :
  forall n,
    blocked walk n = true <->
    exists q x, is_prefix q walk = true /\ get_path q n = Some x
                /\ is_mapping x = false.
Proof.
  induction walk as [|part rest IH]; intros n.
  - destruct n as [s|l|d]; cbn [blocked]; split; intros H; try discriminate.
    + exists [], (VScalar s). auto.
    + reflexivity.
    + exists [], (VList l). auto.
    + reflexivity.
    + destruct H as ([|k q] & x & Hp & Hg & Hm); [|discriminate].
      cbn [get_path] in Hg. injection Hg as <-. discriminate.
  - destruct n as [s|l|d]; cbn [blocked].
    + split; [intros _|reflexivity]. exists [], (VScalar s). auto.
    + split; [intros _|reflexivity]. exists [], (VList l). auto.
    + destruct (dict_get String.eqb part d) as [c|] eqn:Ec.
      * rewrite IH. split.
        -- intros (q & x & Hp & Hg & Hm). exists (part :: q), x.
           cbn [is_prefix get_path]. rewrite String.eqb_refl, Ec. auto.
        -- intros ([|k q] & x & Hp & Hg & Hm).
           ++ cbn [get_path] in Hg. injection Hg as <-. discriminate.
           ++ cbn [is_prefix] in Hp. apply andb_true_iff in Hp as [Ek Hp].
              apply String.eqb_eq in Ek. subst k.
              cbn [get_path] in Hg. rewrite Ec in Hg. exists q, x. auto.
      * split; [discriminate|].
        intros ([|k q] & x & Hp & Hg & Hm).
        -- cbn [get_path] in Hg. injection Hg as <-. discriminate.
        -- cbn [is_prefix] in Hp. apply andb_true_iff in Hp as [Ek Hp].
           apply String.eqb_eq in Ek. subst k.
           cbn [get_path] in Hg. rewrite Ec in Hg. discriminate.
Qed.

Lemma assign_value_ok (walk : list string) (last : string) (v : scalar) :
  is_nan v = false ->
  forall n, (exists n', assign walk last v n = Ok n') <-> blocked walk n = false.
Proof.
  intros Hv. induction walk as [|part rest IH]; intros n; cbn [assign].
  - rewrite Hv. destruct n as [s|l|d]; cbn [blocked]; split;
      try discriminate; try (intros [n' H]; discriminate); eauto.
  - destruct n as [s|l|d]; cbn [blocked];
      try (split; [intros [n' H]; discriminate|discriminate]).
    destruct (dict_get String.eqb part d) as [c|] eqn:Ec.
    + rewrite <- IH. split.
      * intros [n' H]. destruct (assign rest last v c) as [c'|]; [eauto|discriminate].
      * intros [c' ->]. cbn [bind]. eauto.
    + split; [reflexivity|]. intros _.
      destruct (proj2 (IH (VDict [])))
        as [c' ->]; [destruct rest; reflexivity|].
      cbn [bind]. eauto.
Qed.

Lemma assign_nan_ok (walk : list string) (last : string) (v : scalar) :
  is_nan v = true ->
  forall n, (exists n', assign walk last v n = Ok n')
            <-> walk = [] \/ blocked (removelast walk) n = false.
Proof.
  intros Hv. induction walk as [|part rest IH]; intros n; cbn [assign].
  - rewrite Hv. split; eauto.
  - split.
    + intros [n' H]. right. destruct n as [s|l|d]; try discriminate.
      destruct (assign rest last v _) as [c'|] eqn:E; [|discriminate].
      assert (Hc : rest = [] \/ blocked (removelast rest)
                                  (match dict_get String.eqb part d with
                                   | Some c => c
                                   | None => VDict []
                                   end) = false) by (apply IH; eauto).
      destruct rest as [|r0 rest]; [reflexivity|].
      change (removelast (part :: r0 :: rest)) with (part :: removelast (r0 :: rest)).
      cbn [blocked]. destruct (dict_get String.eqb part d); [|reflexivity].
      destruct Hc as [Hc|Hc]; [discriminate|exact Hc].
    + intros [H|H]; [discriminate|].
      destruct n as [s|l|d];
        try (destruct rest; cbn [removelast blocked] in H; discriminate).
      assert (Hc : exists c', assign rest last v
                                (match dict_get String.eqb part d with
                                 | Some c => c
                                 | None => VDict []
                                 end) = Ok c').
      { apply IH. destruct rest as [|r0 rest]; [now left|right].
        change (removelast (part :: r0 :: rest))
          with (part :: removelast (r0 :: rest)) in H.
        cbn [blocked] in H. destruct (dict_get String.eqb part d); [exact H|].
        destruct (removelast (r0 :: rest)); reflexivity. }
      destruct Hc as [c' ->]. cbn [bind]. eauto.
Qed.

Lemma get_path_empty_mapping (q : list string) (x : value) :
  get_path q (VDict []) = Some x -> is_mapping x = true.
Proof. destruct q; cbn [get_path dict_get]; [now intros [= <-]|discriminate]. Qed.

Lemma assign_value_nonmapping (walk : list string) (last : string) (v : scalar) :
  is_nan v = false ->
  forall n n', assign walk last v n = Ok n' ->
    forall q x, is_mapping x = false ->
      (get_path q n' = Some x <->
       (q = walk ++ [last] /\ x = VScalar v)
       \/ (is_prefix (walk ++ [last]) q = false /\ get_path q n = Some x)).
Proof.
  intros Hv. induction walk as [|part rest IH]; intros n n'; cbn [assign].
  - rewrite Hv. destruct n as [s|l|d]; try discriminate. intros [= <-] q x Hx.
    destruct q as [|k q]; cbn [get_path List.app is_prefix].
    + split; [intros [= <-]; discriminate|].
      intros [[E _]|[_ [= <-]]]; discriminate.
    + destruct (String.eqb_spec last k) as [<-|Hk].
      * rewrite dict_get_set_same. cbn [andb]. split.
        -- destruct q; cbn [get_path]; [intros [= <-]; now left|discriminate].
        -- intros [[[= ->] ->]|[E _]]; [reflexivity|discriminate].
      * rewrite dict_get_set_other by (intros ->; now apply Hk).
        cbn [andb]. split; [intros H; now right|].
        intros [[[= E _] _]|[_ H]]; [now contradiction Hk|exact H].
  - destruct n as [s|l|d]; try discriminate.
    destruct (assign rest last v _) as [c'|] eqn:E; cbn [bind]; [|discriminate].
    intros [= <-] q x Hx. specialize (IH _ _ E).
    destruct q as [|k q]; cbn [get_path List.app is_prefix].
    + split; [intros [= <-]; discriminate|].
      intros [[E' _]|[_ [= <-]]]; discriminate.
    + destruct (String.eqb_spec part k) as [<-|Hk].
      * rewrite dict_get_set_same. cbn [andb]. rewrite (IH q x Hx). split.
        -- intros [[-> ->]|[Hp Hg]]; [now left|right]. split; [exact Hp|].
           destruct (dict_get String.eqb part d); [exact Hg|].
           apply get_path_empty_mapping in Hg. congruence.
        -- intros [[[= ->] ->]|[Hp Hg]]; [now left|right]. split; [exact Hp|].
           destruct (dict_get String.eqb part d); [exact Hg|discriminate].
      * rewrite dict_get_set_other by (intros ->; now apply Hk).
        cbn [andb]. split; [intros H; now right|].
        intros [[[= E' _] _]|[_ H]]; [now contradiction Hk|exact H].
Qed.

Lemma assign_nan_nonmapping (walk : list string) (last : string) (v : scalar) :
  is_nan v = true ->
  forall n n', assign walk last v n = Ok n' ->
    forall q x, is_mapping x = false ->
      (get_path q n' = Some x <-> get_path q n = Some x).
Proof.
  intros Hv. induction walk as [|part rest IH]; intros n n'; cbn [assign].
  - rewrite Hv. intros [= <-]. reflexivity.
  - destruct n as [s|l|d]; try discriminate.
    destruct (assign rest last v _) as [c'|] eqn:E; cbn [bind]; [|discriminate].
    intros [= <-] q x Hx. specialize (IH _ _ E).
    destruct q as [|k q]; cbn [get_path].
    + split; intros [= <-]; discriminate.
    + destruct (String.eqb_spec part k) as [<-|Hk].
      * rewrite dict_get_set_same, (IH q x Hx).
        destruct (dict_get String.eqb part d); [reflexivity|].
        split; [|discriminate].
        intros Hg. apply get_path_empty_mapping in Hg. congruence.
      * rewrite dict_get_set_other by (intros ->; now apply Hk). reflexivity.
Qed.

Lemma step_ok (m : list (string * value)) (key : string) (v : scalar) :
  (exists t', step (VDict m) (Some key, v) = Ok t')
  <-> blocked (needed v (split "." key)) (VDict m) = false.
Proof.
  unfold step, needed. cbn [fst snd]. destruct (is_nan v) eqn:Ev.
  - rewrite (assign_nan_ok _ _ v Ev). split; [|now right].
    intros [->|H]; [reflexivity|exact H].
  - apply (assign_value_ok _ _ v Ev).
Qed.

Lemma blocked_seen (seen : list (list string)) (t : value) (w : list string) :
  (forall q x, get_path q t = Some x -> is_mapping x = false -> In q seen) ->
  (forall p, In p seen ->
     exists q x, is_prefix q p = true /\ get_path q t = Some x
                 /\ is_mapping x = false) ->
  blocked w t = false <-> forallb (fun p => negb (is_prefix p w)) seen = true.
Proof.
  intros Hb Hc. rewrite forallb_forall. split.
  - intros Hbl p Hp. apply negb_true_iff.
    destruct (is_prefix p w) eqn:E; [|reflexivity].
    destruct (Hc p Hp) as (q & x & Hqp & Hg & Hm).
    assert (blocked w t = true) as Hbt; [|congruence].
    apply blocked_spec. exists q, x.
    split; [exact (is_prefix_trans q p w Hqp E)|auto].
  - intros Hall. destruct (blocked w t) eqn:E; [|reflexivity].
    apply blocked_spec in E as (q & x & Hqw & Hg & Hm).
    specialize (Hall q (Hb q x Hg Hm)). rewrite Hqw in Hall. discriminate.
Qed.

Lemma build_unobstructed (d : flat) :
  forall seen m,
    (forall q x, get_path q (VDict m) = Some x -> is_mapping x = false ->
                 In q seen) ->
    (forall p, In p seen ->
       exists q x, is_prefix q p = true /\ get_path q (VDict m) = Some x
                   /\ is_mapping x = false) ->
    (exists t', build d (VDict m) = Ok t') <-> unobstructed seen d = true.
Proof.
  induction d as [|[[key|] v] d IH]; intros seen m Hb Hc;
    cbn [build unobstructed].
  - split; eauto.
  - unfold fkey in *.
    rewrite andb_true_iff, <- (blocked_seen seen (VDict m) _ Hb Hc), <- step_ok.
    assert (Hnext : forall t1, step (VDict m) (Some key, v) = Ok t1 ->
      ((exists t', build d t1 = Ok t')
       <-> unobstructed (if is_nan v then seen else split "." key :: seen) d = true)).
    { intros t1 Hs. unfold step in Hs. cbn [fst snd] in Hs.
      destruct (assign_mapping _ _ _ _ _ Hs) as [m1 ->].
      pose proof (app_removelast_last EmptyString (split_not_nil "." key)) as EP.
      apply IH; destruct (is_nan v) eqn:Ev.
      - intros q x Hg Hm. apply (Hb q x); [|exact Hm].
        now apply (assign_nan_nonmapping _ _ v Ev _ _ Hs q x Hm).
      - pose proof (assign_value_nonmapping _ _ v Ev _ _ Hs) as Hchar.
        rewrite <- EP in Hchar.
        intros q x Hg Hm. apply (Hchar q x Hm) in Hg as [[-> _]|[_ Hg]].
        + now left.
        + right. exact (Hb q x Hg Hm).
      - intros p Hp. destruct (Hc p Hp) as (q & x & Hqp & Hg & Hm).
        exists q, x. repeat split; [exact Hqp| |exact Hm].
        now apply (assign_nan_nonmapping _ _ v Ev _ _ Hs q x Hm).
      - pose proof (assign_value_nonmapping _ _ v Ev _ _ Hs) as Hchar.
        rewrite <- EP in Hchar.
        intros p [<-|Hp].
        + exists (split "." key), (VScalar v).
          repeat split; [apply is_prefix_refl|].
          apply Hchar; [reflexivity|]. now left.
        + destruct (Hc p Hp) as (q & x & Hqp & Hg & Hm).
          destruct (is_prefix (split "." key) q) eqn:Epq.
          * exists (split "." key), (VScalar v).
            repeat split; [exact (is_prefix_trans _ q p Epq Hqp)|].
            apply Hchar; [reflexivity|]. now left.
          * exists q, x. repeat split; [exact Hqp| |exact Hm].
            apply (Hchar q x Hm). now right. }
    split.
    + intros [t' H].
      assert (exists t1, step (VDict m) (Some key, v) = Ok t1
                         /\ build d t1 = Ok t') as (t1 & Hs & Hr).
      { revert H. destruct (step _ _) as [t1|]; cbn [bind]; [eauto|discriminate]. }
      split; [eauto|]. apply (Hnext t1 Hs). eauto.
    + intros [[t1 Hs] Hr]. rewrite Hs. cbn [bind]. now apply (Hnext t1 Hs).
  - split; [intros [t' H]; discriminate|discriminate].
Qed.

(** X9.  The loop of [unflatten] comes through exactly when every key is a
    string and no entry needs a mapping where an earlier entry has been
    assigned: an entry with a value needs one at every proper prefix of its
    path, a NaN entry at every proper prefix of its parent path.  The order
    matters: [{"a.b": 2, "a": 1}] comes through, [{"a": 1, "a.b": 2}] does
    not. *)
Theorem loop_succeeds_iff_unobstructed (d : flat) :
  (exists t, build d (VDict []) = Ok t) <-> unobstructed [] d = true.
Proof.
  apply build_unobstructed.
  - intros q x Hg Hm. apply get_path_empty_mapping in Hg. congruence.
  - intros p [].
Qed.

(** ** [fetch_wandb_runs]: the run ids of the name filter *)

Lemma rfind_nonneg (c : ascii) (s : string) :
  (0 <=? rfind c s)%Z = has_char c s.
Proof.
  induction s as [|a r IH]; cbn [rfind has_char]; [reflexivity|].
  rewrite <- IH. destruct (Z.leb_spec 0 (rfind c r)).
  - rewrite orb_true_r. apply Z.leb_le. lia.
  - rewrite orb_false_r. destruct (Ascii.eqb a c); reflexivity.
Qed.

Lemma rfind_absent (c : ascii) (s : string) :
  has_char c s = false -> rfind c s = (-1)%Z.
Proof.
  induction s as [|a r IH]; cbn [rfind has_char]; [reflexivity|].
  intros H. apply orb_false_iff in H as [Ha Hr].
  rewrite (IH Hr), Ha. reflexivity.
Qed.

Lemma path_tail_cons (a : ascii) (r : string) :
  path_tail (String a r)
  = if has_char "/" r then path_tail r
    else if Ascii.eqb a "/" then r else String a r.
Proof.
  unfold path_tail. cbn [rfind]. rewrite rfind_nonneg.
  destruct (has_char "/" r) eqn:E.
  - rewrite <- rfind_nonneg in E. apply Z.leb_le in E.
    replace (Z.to_nat (rfind "/" r + 1 + 1)) with (S (Z.to_nat (rfind "/" r + 1)))
      by lia.
    reflexivity.
  - destruct (Ascii.eqb a "/"); reflexivity.
Qed.

Lemma path_tail_no_slash (s : string) :
  has_char "/" s = false -> path_tail s = s.
Proof. intros H. unfold path_tail. now rewrite (rfind_absent _ _ H). Qed.

Lemma path_tail_after_slash (pre id : string) :
  has_char "/" id = false -> path_tail (pre ++ String "/" id) = id.
Proof.
  intros H. induction pre as [|a pre IH]; cbn [String.append].
  - rewrite path_tail_cons, H. reflexivity.
  - rewrite path_tail_cons, has_char_app. cbn [has_char].
    rewrite Ascii.eqb_refl, orb_true_r. exact IH.
Qed.

Lemma path_tail_has_no_slash (s : string) : has_char "/" (path_tail s) = false.
Proof.
  induction s as [|a r IH]; [reflexivity|].
  rewrite path_tail_cons. destruct (has_char "/" r) eqn:E; [exact IH|].
  destruct (Ascii.eqb a "/") eqn:Ea; [exact E|].
  cbn [has_char]. now rewrite Ea, E.
Qed.

(** X10.  A run may be named by its full path or by its id alone: for ids
    without ["/"], [run_id_filter] takes both [<anything>/<id>] and [<id>]
    to [<id>]. *)
Theorem run_id_filter_accepts_paths_and_ids (ids : list string) (pre : string -> string) :
  Forall (fun id => has_char "/" id = false) ids ->
  run_id_filter (map (fun id => (pre id ++ "/" ++ id)%string) ids) = ids
  /\ run_id_filter ids = ids.
Proof.
  unfold run_id_filter. intros H. rewrite map_map.
  induction H as [|id ids Hid _ [IH1 IH2]]; [split; reflexivity|].
  cbn [map]. rewrite IH1, IH2.
  change (pre id ++ "/" ++ id)%string with (pre id ++ String "/" id)%string.
  now rewrite (path_tail_after_slash (pre id) id Hid), (path_tail_no_slash id Hid).
Qed.

Lemma run_id_filter_accepts_paths_and_ids_witness :
  Forall (fun id => has_char "/" id = false) ["rfdhxjn6"; "abc"]
  /\ run_id_filter ["hazy-research/Cartridges/rfdhxjn6"; "x/abc"] = ["rfdhxjn6"; "abc"]
  /\ run_id_filter ["rfdhxjn6"; "abc"] = ["rfdhxjn6"; "abc"].
Proof.
  assert (H : Forall (fun id => has_char "/" id = false) ["rfdhxjn6"; "abc"])
    by (repeat constructor).
  split; [exact H|].
  exact (run_id_filter_accepts_paths_and_ids ["rfdhxjn6"; "abc"]
           (fun id => if String.eqb id "abc" then "x" else "hazy-research/Cartridges")
           H).
Defined.

(** X11.  Whatever is passed, no id in the name filter contains a ["/"], and
    there is one per id given (a path that ends in ["/"] gives the empty
    id). *)
Theorem run_id_filter_has_no_slash (ids : list string) :
  Forall (fun id => has_char "/" id = false) (run_id_filter ids)
  /\ length (run_id_filter ids) = length ids
  /\ (forall p, path_tail (p ++ "/") = EmptyString).
Proof.
  unfold run_id_filter. repeat split.
  - apply Forall_map, Forall_forall. intros id _. apply path_tail_has_no_slash.
  - apply length_map.
  - intros p. exact (path_tail_after_slash p EmptyString eq_refl).
Qed.

(** ** [fetch_wandb_runs]: the row of a run *)

Lemma NoDup_keys_dict_set (k : fkey) (v : scalar) (d : flat) :
  NoDup (keys d) -> NoDup (keys (dict_set fkey_eqb k v d)).
Proof.
  intros H. induction d as [|[k' v'] d IH]; cbn [dict_set keys map fst].
  - repeat constructor. intros [].
  - inversion H as [|? ? Hk Hd]; subst.
    destruct (fkey_eqb k k') eqn:E; cbn [keys map fst]; [constructor; assumption|].
    constructor; [|now apply IH].
    intros Hin. destruct (keys_dict_set fkey_eqb k v d k' Hin) as [->|Hin'].
    + rewrite (proj2 (fkey_eqb_eq k k) eq_refl) in E. discriminate.
    + contradiction.
Qed.

Lemma NoDup_keys_dict_update (other d : flat) :
  NoDup (keys d) -> NoDup (keys (dict_update fkey_eqb d other)).
Proof.
  unfold dict_update. revert d.
  induction other as [|[k v] other IH]; intros d H; [exact H|].
  cbn [fold_left fst snd]. apply IH. now apply NoDup_keys_dict_set.
Qed.

Lemma flatten_keys_NoDup (sep : string) (pk : fkey) (v : value) :
  NoDup (keys (flatten sep pk v)).
Proof.
  destruct v as [s|l|d].
  - repeat constructor. intros [].
  - rewrite flatten_list_eq. unfold flatten_items.
    generalize (indexed 0 l) as es.
    assert (H : NoDup (keys (@nil (fkey * scalar)))) by constructor.
    revert H. generalize (@nil (fkey * scalar)) as items.
    intros items H es. revert items H.
    induction es as [|e es IH]; intros items H; [exact H|].
    cbn [fold_left]. apply IH. now apply NoDup_keys_dict_update.
  - rewrite flatten_dict_eq. unfold flatten_items.
    assert (H : NoDup (keys (@nil (fkey * scalar)))) by constructor.
    revert H. generalize (@nil (fkey * scalar)) as items.
    induction d as [|e es IH]; intros items H; [exact H|].
    cbn [fold_left]. apply IH. now apply NoDup_keys_dict_update.
Qed.

Lemma dict_get_set_flat (k k' : fkey) (v : scalar) (d : flat) :
  dict_get fkey_eqb k' (dict_set fkey_eqb k v d)
  = if fkey_eqb k' k then Some v else dict_get fkey_eqb k' d.
Proof.
  induction d as [|[k1 v1] d IH]; cbn [dict_set dict_get]; [reflexivity|].
  destruct (fkey_eqb k k1) eqn:E; cbn [dict_get].
  - apply fkey_eqb_eq in E. subst k1. destruct (fkey_eqb k' k); reflexivity.
  - rewrite IH. destruct (fkey_eqb k' k1) eqn:E1; [|reflexivity].
    destruct (fkey_eqb k' k) eqn:E2; [|reflexivity].
    apply fkey_eqb_eq in E1, E2. subst.
    rewrite (proj2 (fkey_eqb_eq k1 k1) eq_refl) in E. discriminate.
Qed.

Lemma dict_get_update_flat (other d : flat) (k : fkey) :
  NoDup (keys other) ->
  dict_get fkey_eqb k (dict_update fkey_eqb d other)
  = match dict_get fkey_eqb k other with
    | Some v => Some v
    | None => dict_get fkey_eqb k d
    end.
Proof.
  unfold dict_update. revert d.
  induction other as [|[k1 v1] rest IH]; intros d H; [reflexivity|].
  cbn [keys map fst] in H. inversion H as [|? ? Hk Hrest]; subst.
  cbn [fold_left fst snd dict_get]. rewrite (IH _ Hrest), dict_get_set_flat.
  destruct (fkey_eqb k k1) eqn:E; [|reflexivity].
  apply fkey_eqb_eq in E. subst k1.
  now rewrite (dict_get_fresh fkey_eqb fkey_eqb_eq k rest Hk).
Qed.

Lemma keys_dict_set_extends (k : fkey) (v : scalar) (d : flat) :
  exists extra, keys (dict_set fkey_eqb k v d) = keys d ++ extra.
Proof.
  induction d as [|[k' v'] d [extra IH]]; cbn [dict_set].
  - now exists [k].
  - destruct (fkey_eqb k k'); cbn [keys map fst].
    + exists []. now rewrite app_nil_r.
    + exists extra. unfold keys in IH. now rewrite IH.
Qed.

Lemma keys_dict_update_extends (other d : flat) :
  exists extra, keys (dict_update fkey_eqb d other) = keys d ++ extra.
Proof.
  unfold dict_update. revert d.
  induction other as [|[k v] other IH]; intros d.
  - exists []. now rewrite app_nil_r.
  - cbn [fold_left fst snd]. destruct (IH (dict_set fkey_eqb k v d)) as [e1 H1].
    destruct (keys_dict_set_extends k v d) as [e2 H2].
    exists (e2 ++ e1). now rewrite H1, H2, app_assoc.
Qed.

(** X12.  In the row of a run an entry of the flattened summary wins over an
    entry of the flattened config with the same key, and either wins over
    the run's own five fields; the five fields still are the first five
    columns, in their order. *)
Theorem row_data_precedence (run : wandb_run) (summary : value) (k : fkey) :
  dict_get fkey_eqb k (row_data run summary)
  = match dict_get fkey_eqb k (flatten "." None summary) with
    | Some v => Some v
    | None =>
        match dict_get fkey_eqb k (flatten "." None (run_config run)) with
        | Some v => Some v
        | None =>
            dict_get fkey_eqb k
              [(Some "wandb_run_id", SStr (run_id run));
               (Some "name", SStr (run_name run));
               (Some "project", SStr (run_project run));
               (Some "user", SStr (run_user_name run));
               (Some "state", SStr (run_state run))]
        end
    end
  /\ firstn 5 (keys (row_data run summary))
     = [Some "wandb_run_id"; Some "name"; Some "project"; Some "user"; Some "state"].
Proof.
  unfold row_data. split.
  - rewrite !dict_get_update_flat by apply flatten_keys_NoDup. reflexivity.
  - destruct (keys_dict_update_extends (flatten "." None summary)
                (dict_update fkey_eqb
                   [(Some "wandb_run_id", SStr (run_id run));
                    (Some "name", SStr (run_name run));
                    (Some "project", SStr (run_project run));
                    (Some "user", SStr (run_user_name run));
                    (Some "state", SStr (run_state run))]
                   (flatten "." None (run_config run)))) as [e1 ->].
    destruct (keys_dict_update_extends (flatten "." None (run_config run))
                [(Some "wandb_run_id", SStr (run_id run));
                 (Some "name", SStr (run_name run));
                 (Some "project", SStr (run_project run));
                 (Some "user", SStr (run_user_name run));
                 (Some "state", SStr (run_state run))]) as [e2 ->].
    reflexivity.
Qed.

(** ** [fetch_wandb_table]: the artifact ids *)

(** X13.  An artifact id that names its version (it contains a [":"]) is
    fetched as it is, under [<entity>/<project>/]: the versions are not
    listed and [versions] is not looked at, so that not even an invalid
    [versions] raises. *)
Theorem artifact_ids_of_versioned_id (entity project_name artifact_id versions : string)
    (version_ids : list string) :
  has_char ":" artifact_id = true ->
  artifact_ids entity project_name artifact_id versions version_ids
  = inl [(entity ++ "/" ++ project_name ++ "/" ++ artifact_id)%string].
Proof.
  intros H. unfold artifact_ids.
  assert (E : has_char ":" (entity ++ "/" ++ project_name ++ "/" ++ artifact_id)
              = true).
  { rewrite !has_char_app, H. now rewrite !orb_true_r. }
  rewrite E. reflexivity.
Qed.

Lemma artifact_ids_of_versioned_id_witness :
  has_char ":" "run-g9cflk5x-table:v1" = true
  /\ artifact_ids "hazy-research" "Cartridges" "run-g9cflk5x-table:v1" "newest" []
     = inl ["hazy-research/Cartridges/run-g9cflk5x-table:v1"].
Proof.
  split; [reflexivity|].
  exact (artifact_ids_of_versioned_id "hazy-research" "Cartridges"
           "run-g9cflk5x-table:v1" "newest" [] eq_refl).
Defined.

(** X14.  When neither the entity, the project nor the artifact id contains
    a [":"]: ["all"] gives one id per listed version, in the order listed,
    each [<entity>/<project>/<id>:<version>]; ["latest"] gives the first of
    these alone and fails with an [IndexError] when no version is listed;
    any other [versions] is a [ValueError], whatever is listed. *)
Theorem artifact_ids_of_unversioned_id (entity project_name artifact_id versions : string)
    (version_ids : list string) :
  has_char ":" entity = false -> has_char ":" project_name = false ->
  has_char ":" artifact_id = false ->
  artifact_ids entity project_name artifact_id "all" version_ids
  = inl (map (fun v => (entity ++ "/" ++ project_name ++ "/" ++ artifact_id
                        ++ ":" ++ v)%string) version_ids)
  /\ artifact_ids entity project_name artifact_id "latest" version_ids
     = match artifact_ids entity project_name artifact_id "all" version_ids with
       | inl (id :: _) => inl [id]
       | _ => inr IndexError
       end
  /\ (versions <> "latest" -> versions <> "all" ->
      artifact_ids entity project_name artifact_id versions version_ids
      = inr (Exn ValueError)).
Proof.
  intros He Hp Ha. unfold artifact_ids.
  assert (E : has_char ":" (entity ++ "/" ++ project_name ++ "/" ++ artifact_id)
              = false).
  { rewrite !has_char_app, He, Hp, Ha. reflexivity. }
  rewrite E. cbn [negb]. repeat split.
  - cbn [String.eqb Ascii.eqb Bool.eqb andb]. f_equal. apply map_ext.
    intros v. now rewrite !string_app_assoc.
  - cbn [String.eqb Ascii.eqb Bool.eqb andb]. destruct version_ids; reflexivity.
  - intros H1 H2.
    rewrite (proj2 (String.eqb_neq versions "latest") H1).
    rewrite (proj2 (String.eqb_neq versions "all") H2). reflexivity.
Qed.

Lemma artifact_ids_of_unversioned_id_witness :
  has_char ":" "hazy-research" = false /\ has_char ":" "Cartridges" = false
  /\ has_char ":" "run-table" = false
  /\ "every" <> "latest" /\ "every" <> "all"
  /\ artifact_ids "hazy-research" "Cartridges" "run-table" "all" ["v3"; "v2"]
     = inl ["hazy-research/Cartridges/run-table:v3";
            "hazy-research/Cartridges/run-table:v2"]
  /\ artifact_ids "hazy-research" "Cartridges" "run-table" "latest" ["v3"; "v2"]
     = inl ["hazy-research/Cartridges/run-table:v3"]
  /\ artifact_ids "hazy-research" "Cartridges" "run-table" "every" ["v3"; "v2"]
     = inr (Exn ValueError).
Proof.
  repeat (split; [first [reflexivity|discriminate]|]).
  exact (proj2 (proj2
    (artifact_ids_of_unversioned_id "hazy-research" "Cartridges" "run-table"
       "every" ["v3"; "v2"] eq_refl eq_refl eq_refl))
    ltac:(discriminate) ltac:(discriminate)).
Defined.

(** ** [fetch_wandb_table]: the table of an artifact *)

Lemma string_to_from (n : nat) (s : string) :
  (string_to n s ++ string_from n s)%string = s.
Proof.
  revert s. induction n as [|n IH]; intros s; [reflexivity|].
  destruct s as [|a r]; [reflexivity|]. cbn. now rewrite IH.
Qed.

Lemma ends_with_split (suffix s : string) :
  ends_with suffix s = true ->
  s = (string_to (String.length s - String.length suffix) s ++ suffix)%string.
Proof.
  unfold ends_with. intros H. apply andb_true_iff in H as [_ H].
  apply String.eqb_eq in H.
  remember (String.length s - String.length suffix)%nat as n eqn:En. clear En.
  subst suffix. symmetry. apply string_to_from.
Qed.

Lemma path_tail_join (a b : string) :
  has_char "/" b = false -> path_tail (path_join a b) = b.
Proof.
  intros Hb. unfold path_join.
  assert (Hp : String.prefix "/" b = false).
  { destruct b as [|c b]; [reflexivity|]. cbn [has_char] in Hb.
    apply orb_false_iff in Hb as [Hc _]. cbn [String.prefix].
    destruct (ascii_dec "/" c) as [<-|]; [discriminate|reflexivity]. }
  rewrite Hp. destruct (String.eqb_spec a EmptyString) as [->|Ha]; cbn [orb].
  - now apply path_tail_no_slash.
  - destruct (ends_with "/" a) eqn:E.
    + rewrite (ends_with_split "/" a E), string_app_assoc.
      now apply path_tail_after_slash.
    + now apply path_tail_after_slash.
Qed.

(** X15.  The search for the table fails, and [process_artifact] raises its
    [ValueError], exactly when no directory of the walk lists a file named
    [table.table.json]; a path it finds always has [table.table.json] as its
    last component. *)
Theorem table_path_found (walk : list (string * list string * list string)) :
  (table_path walk = None
   <-> forall root dirs files, In (root, dirs, files) walk ->
                               ~ In "table.table.json" files)
  /\ (forall p, table_path walk = Some p -> path_tail p = "table.table.json").
Proof.
  induction walk as [|[[root dirs] files] walk [IH1 IH2]].
  - split; [split; [intros _ ? ? ? []|reflexivity]|discriminate].
  - cbn [table_path].
    destruct (existsb (fun file => String.eqb file "table.table.json") files) eqn:E.
    + split.
      * split; [discriminate|]. intros H. exfalso.
        apply existsb_exists in E as (f & Hf & Ef).
        apply String.eqb_eq in Ef. subst f.
        exact (H root dirs files (or_introl eq_refl) Hf).
      * intros p [= <-]. now apply path_tail_join.
    + split; [|exact IH2]. rewrite IH1. split.
      * intros H r ds fs [[= <- <- <-]|Hin]; [|eauto].
        intros Hf.
        assert (existsb (fun file => String.eqb file "table.table.json") files = true)
          as E'; [|congruence].
        apply existsb_exists. exists "table.table.json". split; [exact Hf|reflexivity].
      * intros H r ds fs Hin. apply (H r ds fs). now right.
Qed.

(** ** [MMLUGenerateDataset.score] *)

Lemma lstrip_str_blank (w s : list ascii) :
  Forall (fun c => is_space_str c = true) w -> lstrip_str (w ++ s) = lstrip_str s.
Proof. intros H. induction H as [|c w Hc _ IH]; [reflexivity|]. cbn. now rewrite Hc. Qed.

Lemma lstrip_str_head (s r : list ascii) (c : ascii) :
  lstrip_str s = c :: r -> is_space_str c = false.
Proof.
  induction s as [|a s IH]; cbn [lstrip_str]; [discriminate|].
  destruct (is_space_str a) eqn:E; [exact IH|]. now intros [= <- _].
Qed.

Lemma lstrip_str_snoc (l : list ascii) (c : ascii) :
  is_space_str c = false ->
  exists l' w, lstrip_str (l ++ [c]) = l' ++ [c]
               /\ l = w ++ l' /\ Forall (fun x => is_space_str x = true) w.
Proof.
  intros Hc. induction l as [|a l (l' & w & H1 & H2 & H3)].
  - exists [], []. cbn. rewrite Hc. repeat split. constructor.
  - cbn [List.app lstrip_str]. destruct (is_space_str a) eqn:Ea.
    + exists l', (a :: w). rewrite H1, H2. repeat split. now constructor.
    + exists (a :: l), []. repeat split. constructor.
Qed.

Lemma str_strip_blank (w : list ascii) :
  Forall (fun c => is_space_str c = true) w -> str_strip w = [].
Proof.
  intros H. unfold str_strip.
  rewrite <- (app_nil_r w), (lstrip_str_blank w [] H). reflexivity.
Qed.

Lemma str_strip_head (s r : list ascii) (c : ascii) :
  lstrip_str s = c :: r ->
  exists r' w, str_strip s = c :: r' /\ r = r' ++ w
               /\ Forall (fun x => is_space_str x = true) w.
Proof.
  intros H. unfold str_strip. rewrite H. cbn [List.rev].
  destruct (lstrip_str_snoc (List.rev r) c (lstrip_str_head s r c H))
    as (l' & w & H1 & H2 & H3).
  exists (List.rev l'), (List.rev w). rewrite H1, rev_app_distr. cbn [List.rev List.app].
  repeat split.
  - rewrite <- (rev_involutive r), H2. apply rev_app_distr.
  - now apply Forall_rev.
Qed.

Lemma startswith_app (p s w : list ascii) :
  startswith p s = true -> startswith p (s ++ w) = true.
Proof.
  revert s. induction p as [|x p IH]; intros [|y s]; cbn; try reflexivity;
    try discriminate.
  intros H. apply andb_true_iff in H as [H1 H2]. now rewrite H1, IH.
Qed.

Lemma startswith_self_app (p t : list ascii) : startswith p (p ++ t) = true.
Proof. induction p as [|x p IH]; cbn; [reflexivity|]. now rewrite Ascii.eqb_refl. Qed.

Lemma skipn_self_app {A : Type} (p t : list A) : skipn (length p) (p ++ t) = t.
Proof. induction p as [|x p IH]; [reflexivity|exact IH]. Qed.

Lemma str_strip_padded (w1 p w2 : list ascii) :
  Forall (fun c => is_space_str c = true) w1 ->
  Forall (fun c => is_space_str c = true) w2 ->
  lstrip_str p = p -> lstrip_str (List.rev p) = List.rev p -> p <> [] ->
  str_strip (w1 ++ p ++ w2) = p.
Proof.
  intros H1 H2 Hp Hr Hne. unfold str_strip. rewrite (lstrip_str_blank w1 _ H1).
  assert (E : lstrip_str (p ++ w2) = p ++ w2).
  { destruct p as [|c p]; [contradiction|]. cbn [List.app lstrip_str] in *.
    destruct (is_space_str c); [|reflexivity].
    exfalso. assert (length (lstrip_str p) <= length p)%nat as Hlen.
    { clear. induction p as [|a p IH]; cbn; [lia|].
      destruct (is_space_str a); cbn; lia. }
    rewrite Hp in Hlen. cbn in Hlen. lia. }
  rewrite E, rev_app_distr, (lstrip_str_blank (List.rev w2) _ (Forall_rev H2)), Hr.
  apply rev_involutive.
Qed.

(** X16.  A prediction of white space only (the empty one included) scores
    [False] against every answer, a blank one too; nothing is raised. *)
Theorem score_blank_prediction (pred answer : list ascii) :
  Forall (fun c => is_space_str c = true) pred -> score pred answer = inl false.
Proof. intros H. unfold score. now rewrite (str_strip_blank pred H). Qed.

Lemma score_blank_prediction_witness :
  Forall (fun c => is_space_str c = true) (list_ascii_of_string "  ")
  /\ score (list_ascii_of_string "  ") (list_ascii_of_string "") = inl false.
Proof.
  assert (H : Forall (fun c => is_space_str c = true) (list_ascii_of_string "  "))
    by (repeat constructor).
  split; [exact H|].
  exact (score_blank_prediction (list_ascii_of_string "  ") (list_ascii_of_string "") H).
Defined.

(** X17.  A prediction that is ["The best answer is"] and nothing but white
    space around it makes [score] raise an [IndexError], whatever the
    answer: the text left after the phrase is empty and its first character
    is asked for. *)
Theorem score_phrase_alone_raises (w1 w2 answer : list ascii) :
  Forall (fun c => is_space_str c = true) w1 ->
  Forall (fun c => is_space_str c = true) w2 ->
  score (w1 ++ best_answer ++ w2) answer = inr IndexError.
Proof.
  intros H1 H2. unfold score.
  rewrite (str_strip_padded w1 best_answer w2 H1 H2 eq_refl eq_refl)
    by discriminate.
  reflexivity.
Qed.

Lemma score_phrase_alone_raises_witness :
  Forall (fun c => is_space_str c = true) (list_ascii_of_string " ")
  /\ Forall (fun c => is_space_str c = true) (@nil ascii)
  /\ score (list_ascii_of_string " The best answer is") (list_ascii_of_string "B")
     = inr IndexError.
Proof.
  assert (H1 : Forall (fun c => is_space_str c = true) (list_ascii_of_string " "))
    by (repeat constructor).
  split; [exact H1|]. split; [constructor|].
  exact (score_phrase_alone_raises (list_ascii_of_string " ") []
           (list_ascii_of_string "B") H1 (Forall_nil _)).
Defined.

(** X18.  A prediction that is not blank scored against a blank answer makes
    [score] raise an [IndexError]. *)
Theorem score_blank_answer_raises (pred answer : list ascii) :
  lstrip_str pred <> [] ->
  Forall (fun c => is_space_str c = true) answer ->
  score pred answer = inr IndexError.
Proof.
  intros Hp Ha. unfold score.
  destruct (lstrip_str pred) as [|c r] eqn:E; [contradiction|].
  destruct (str_strip_head pred r c E) as (r' & w & Hs & _ & _).
  rewrite Hs, (str_strip_blank answer Ha). cbn [length Nat.eqb].
  destruct (str_strip (if startswith best_answer (c :: r')
                       then str_strip (skipn (length best_answer) (c :: r'))
                       else pred)); reflexivity.
Qed.

Lemma score_blank_answer_raises_witness :
  lstrip_str (list_ascii_of_string "B") <> []
  /\ Forall (fun c => is_space_str c = true) (list_ascii_of_string " ")
  /\ score (list_ascii_of_string "B") (list_ascii_of_string " ") = inr IndexError.
Proof.
  assert (H1 : lstrip_str (list_ascii_of_string "B") <> []) by discriminate.
  assert (H2 : Forall (fun c => is_space_str c = true) (list_ascii_of_string " "))
    by (repeat constructor).
  split; [exact H1|]. split; [exact H2|].
  exact (score_blank_answer_raises (list_ascii_of_string "B")
           (list_ascii_of_string " ") H1 H2).
Defined.

(** X19.  When the prediction, white space aside, does not begin with ["The
    best answer is"], the score is whether the first character of the
    prediction that is no white space equals that of the answer; what
    follows these characters does not count. *)
Theorem score_compares_first_characters (pred answer rp ra : list ascii) (p0 a0 : ascii) :
  lstrip_str pred = p0 :: rp -> startswith best_answer (p0 :: rp) = false ->
  lstrip_str answer = a0 :: ra ->
  score pred answer = inl (Ascii.eqb p0 a0).
Proof.
  intros Hp Hb Ha. unfold score.
  destruct (str_strip_head pred rp p0 Hp) as (rp' & w & Hs & Hrp & _).
  destruct (str_strip_head answer ra a0 Ha) as (ra' & w' & Hsa & _ & _).
  rewrite Hs. cbn [length Nat.eqb].
  destruct (startswith best_answer (p0 :: rp')) eqn:E.
  - apply (startswith_app _ _ w) in E. cbn [List.app] in E.
    rewrite <- Hrp in E. congruence.
  - rewrite Hs, Hsa. reflexivity.
Qed.

Lemma score_compares_first_characters_witness :
  lstrip_str (list_ascii_of_string " B. because") = list_ascii_of_string "B. because"
  /\ startswith best_answer (list_ascii_of_string "B. because") = false
  /\ lstrip_str (list_ascii_of_string "B") = list_ascii_of_string "B"
  /\ score (list_ascii_of_string " B. because") (list_ascii_of_string "B") = inl true.
Proof.
  repeat (split; [reflexivity|]).
  exact (score_compares_first_characters
           (list_ascii_of_string " B. because") (list_ascii_of_string "B")
           (list_ascii_of_string ". because") [] "B"%char "B"%char
           eq_refl eq_refl eq_refl).
Defined.

(** X20.  When the prediction, white space aside, is ["The best answer is"]
    followed by a text that is not blank, the score is whether the first
    character of that text that is no white space equals that of the
    answer. *)
Theorem score_after_phrase (pred answer t rt ra : list ascii) (c a0 : ascii) :
  str_strip pred = best_answer ++ t -> lstrip_str t = c :: rt ->
  lstrip_str answer = a0 :: ra ->
  score pred answer = inl (Ascii.eqb c a0).
Proof.
  intros Hp Ht Ha. unfold score. rewrite Hp.
  rewrite startswith_self_app, skipn_self_app.
  destruct (str_strip_head t rt c Ht) as (r1 & w1 & Hs1 & _ & _).
  destruct (str_strip_head answer ra a0 Ha) as (ra' & w' & Hsa & _ & _).
  assert (Hc : lstrip_str (c :: r1) = c :: r1).
  { cbn [lstrip_str]. now rewrite (lstrip_str_head t rt c Ht). }
  destruct (str_strip_head (c :: r1) r1 c Hc) as (r2 & w2 & Hs2 & _ & _).
  rewrite Hs1, Hs2, Hsa. reflexivity.
Qed.

Lemma score_after_phrase_witness :
  str_strip (list_ascii_of_string "The best answer is C. ")
  = best_answer ++ list_ascii_of_string " C."
  /\ lstrip_str (list_ascii_of_string " C.") = list_ascii_of_string "C."
  /\ lstrip_str (list_ascii_of_string "D") = list_ascii_of_string "D"
  /\ score (list_ascii_of_string "The best answer is C. ") (list_ascii_of_string "D")
     = inl false.
Proof.
  repeat (split; [reflexivity|]).
  exact (score_after_phrase
           (list_ascii_of_string "The best answer is C. ") (list_ascii_of_string "D")
           (list_ascii_of_string " C.") (list_ascii_of_string ".") []
           "C"%char "D"%char eq_refl eq_refl eq_refl).
Defined.

(** ** The predictions of [MtobGenerateDataset] *)

Lemma string_length_app (a b : string) :
  String.length (a ++ b) = (String.length a + String.length b)%nat.
Proof. induction a as [|x a IH]; cbn; [reflexivity|now rewrite IH]. Qed.

Lemma string_from_app (a b : string) : string_from (String.length a) (a ++ b) = b.
Proof. induction a as [|x a IH]; cbn; [destruct b; reflexivity|exact IH]. Qed.

Lemma string_to_app (a b : string) : string_to (String.length a) (a ++ b) = a.
Proof. induction a as [|x a IH]; cbn; [destruct b; reflexivity|now rewrite IH]. Qed.

Lemma ends_with_app (suffix d : string) : ends_with suffix (d ++ suffix) = true.
Proof.
  unfold ends_with. rewrite string_length_app.
  replace (String.length d + String.length suffix - String.length suffix)%nat
    with (String.length d) by lia.
  rewrite string_from_app, String.eqb_refl, andb_true_r.
  apply Nat.leb_le. lia.
Qed.

Lemma strip_eot_app (d : string) : strip_eot (d ++ eot_id) = d.
Proof.
  unfold strip_eot. rewrite ends_with_app, string_length_app.
  replace (String.length d + String.length eot_id - String.length eot_id)%nat
    with (String.length d) by lia.
  apply string_to_app.
Qed.

(** X21.  From decoded texts that each end in the marker [<|eot_id|>] the
    predictions are the texts before that marker, one marker taken off each
    and no more; a text the marker does not end is passed on as it is. *)
Theorem predictions_drop_one_marker (texts : list string) :
  predictions (map (fun d => (d ++ eot_id)%string) texts) = texts
  /\ predictions (map (fun d => (d ++ eot_id ++ eot_id)%string) texts)
     = map (fun d => (d ++ eot_id)%string) texts
  /\ (Forall (fun d => ends_with eot_id d = false) texts ->
      predictions texts = texts).
Proof.
  unfold predictions. repeat split.
  - rewrite map_map. rewrite <- (map_id texts) at 2. apply map_ext.
    intros d. apply strip_eot_app.
  - rewrite map_map. apply map_ext. intros d.
    rewrite <- string_app_assoc. apply strip_eot_app.
  - intros H. induction H as [|d texts Hd _ IH]; [reflexivity|].
    cbn [map]. rewrite IH. unfold strip_eot. now rewrite Hd.
Qed.

Lemma predictions_drop_one_marker_witness :
  Forall (fun d => ends_with eot_id d = false) ["a"; "<|eot_id|>b"]
  /\ predictions ["a"; "<|eot_id|>b"] = ["a"; "<|eot_id|>b"].
Proof.
  assert (H : Forall (fun d => ends_with eot_id d = false) ["a"; "<|eot_id|>b"])
    by (repeat constructor).
  split; [exact H|].
  exact (proj2 (proj2 (predictions_drop_one_marker ["a"; "<|eot_id|>b"])) H).
Defined.


(** ** [unflatten] after [flatten] does not raise *)

Lemma is_prefix_removelast_weak (p q : list string) :
  is_prefix p (removelast q) = true -> is_prefix p q = true.
Proof.
  revert p. induction q as [|y q IH]; intros p H; [exact H|].
  destruct q as [|z q].
  - destruct p; [reflexivity|discriminate H].
  - change (removelast (y :: z :: q)) with (y :: removelast (z :: q)) in H.
    destruct p as [|x p]; [reflexivity|]. cbn [is_prefix] in *.
    apply andb_true_iff in H as [H1 H2]. rewrite H1. exact (IH p H2).
Qed.

Lemma is_prefix_removelast (p q : list string) :
  q <> [] -> is_prefix p (removelast q) = true -> is_prefix p q = true /\ p <> q.
Proof.
  intros Hq H. split; [now apply is_prefix_removelast_weak|].
  intros ->. induction q as [|y q IH]; [now contradiction Hq|].
  destruct q as [|z q]; [discriminate H|].
  change (removelast (y :: z :: q)) with (y :: removelast (z :: q)) in H.
  cbn [is_prefix] in H. apply andb_true_iff in H as [_ H].
  apply IH; [discriminate|exact H].
Qed.

Lemma is_prefix_needed (v : scalar) (p q : list string) :
  q <> [] -> is_prefix p (needed v q) = true -> is_prefix p q = true /\ p <> q.
Proof.
  intros Hq H. unfold needed in H. destruct (is_nan v).
  - apply is_prefix_removelast_weak in H. now apply is_prefix_removelast.
  - now apply is_prefix_removelast.
Qed.

Lemma paths_items_In (es : list (string * value)) (p : list string) :
  In p (paths_items es) ->
  exists k x p', In (k, x) es /\ p = k :: p' /\ In p' (paths x).
Proof.
  induction es as [|[k x] es IH]; [intros []|].
  rewrite paths_items_cons. intros H. apply in_app_or in H as [H|H].
  - apply in_map_iff in H as (p' & <- & Hp'). exists k, x, p'.
    repeat split; [now left|exact Hp'].
  - destruct (IH H) as (k' & x' & p' & Hin & -> & Hp'). exists k', x', p'.
    repeat split; [now right|exact Hp'].
Qed.

Lemma NoDup_keys_same {V : Type} (es : list (string * V)) (k : string) (x y : V) :
  NoDup (keys es) -> In (k, x) es -> In (k, y) es -> x = y.
Proof.
  induction es as [|[k' v'] es IH]; cbn [keys map fst]; intros H; [intros []|].
  inversion H as [|? ? Hk Hes]; subst.
  intros [[= -> ->]|Hx] [[= E]|Hy].
  - now symmetry.
  - exfalso. apply Hk. unfold keys. now apply (in_map fst) in Hy.
  - subst. exfalso. apply Hk. unfold keys. now apply (in_map fst) in Hx.
  - exact (IH Hes Hx Hy).
Qed.

Lemma paths_items_prefix_free (es : list (string * value)) :
  NoDup (keys es) ->
  Forall (fun kv => forall p q, In p (paths (snd kv)) -> In q (paths (snd kv)) ->
                                is_prefix p q = true -> p = q) es ->
  forall p q, In p (paths_items es) -> In q (paths_items es) ->
              is_prefix p q = true -> p = q.
Proof.
  intros Hnd Hall p q Hp Hq Hpq.
  destruct (paths_items_In es p Hp) as (k1 & x1 & p' & Hin1 & -> & Hp').
  destruct (paths_items_In es q Hq) as (k2 & x2 & q' & Hin2 & -> & Hq').
  cbn [is_prefix] in Hpq. apply andb_true_iff in Hpq as [Ek Hpq].
  apply String.eqb_eq in Ek. subst k2.
  pose proof (NoDup_keys_same es k1 x1 x2 Hnd Hin1 Hin2) as <-.
  rewrite Forall_forall in Hall.
  f_equal. exact (Hall (k1, x1) Hin1 p' q' Hp' Hq' Hpq).
Qed.

Lemma paths_prefix_free (v : value) :
  unique_keys v = true ->
  forall p q, In p (paths v) -> In q (paths v) -> is_prefix p q = true -> p = q.
Proof.
  induction v as [s|l IH|d IH] using value_ind; intros H.
  - intros p q [<-|[]] [<-|[]] _. reflexivity.
  - rewrite paths_list_eq. cbn [unique_keys] in H. apply forallb_Forall in H.
    apply paths_items_prefix_free; [apply keys_indexed_NoDup|].
    apply (Forall_indexed
             (fun x => forall p q, In p (paths x) -> In q (paths x) ->
                                   is_prefix p q = true -> p = q)).
    exact (Forall_mp _ _ l IH H).
  - rewrite paths_dict_eq. cbn [unique_keys] in H.
    apply andb_true_iff in H as [Hk Hc].
    apply distinct_NoDup in Hk. apply forallb_Forall in Hc.
    apply paths_items_prefix_free; [exact Hk|].
    exact (Forall_mp _ _ d IH Hc).
Qed.

Lemma unobstructed_intro (d : flat) :
  forall seen,
    (forall key v p,
       In (Some key, v) d ->
       In p seen \/ (exists key' v', In (Some key', v') d /\ p = split "." key') ->
       is_prefix p (needed v (split "." key)) = false) ->
    Forall (fun e => fst e <> None) d ->
    unobstructed seen d = true.
Proof.
  induction d as [|[[key|] v] d IH]; intros seen H Hk; [reflexivity| |].
  - cbn [unobstructed]. apply andb_true_iff. split.
    + apply forallb_forall. intros p Hp. apply negb_true_iff.
      apply (H key v p); [now left|now left].
    + inversion Hk; subst. apply IH; [|assumption].
      intros key1 v1 p Hin Hp. apply (H key1 v1 p); [now right|].
      destruct Hp as [Hp|(key' & v' & Hin' & ->)].
      * destruct (is_nan v); [now left|].
        destruct Hp as [<-|Hp]; [|now left].
        right. exists key, v. split; [now left|reflexivity].
      * right. exists key', v'. split; [now right|reflexivity].
  - inversion Hk as [|? ? Hn _]; subst. now contradiction Hn.
Qed.

Lemma leaf_entry_path (v : value) (key : string) (s : scalar) :
  is_container v = true -> dot_free_keys v = true ->
  In (Some key, s) (map (leaf_entry "." None) (leaves v)) ->
  In (split "." key) (paths v) /\ split "." key <> [].
Proof.
  intros Hc Hd Hin. apply in_map_iff in Hin as ([p s'] & E & Hin).
  unfold leaf_entry in E. cbn [fst snd] in E. injection E as Ek ->.
  assert (Hp : In p (paths v)) by (unfold paths; now apply (in_map fst) in Hin).
  pose proof (paths_no_dot v Hd) as Hnd. rewrite Forall_forall in Hnd.
  specialize (Hnd p Hp).
  assert (Hne : p <> []).
  { destruct v as [x|l|d]; [discriminate| |].
    - rewrite leaves_list_eq in Hin.
      pose proof (leaves_items_paths_nonempty (indexed 0 l)) as H.
      rewrite Forall_forall in H. exact (H _ Hin).
    - rewrite leaves_dict_eq in Hin.
      pose proof (leaves_items_paths_nonempty d) as H.
      rewrite Forall_forall in H. exact (H _ Hin). }
  destruct p as [|a p]; [contradiction|].
  destruct (split_path_key_root a p Hnd) as (key' & Hk & Hs).
  rewrite Hk in Ek. injection Ek as ->. rewrite Hs. split; [exact Hp|discriminate].
Qed.

Lemma flatten_container_keys (sep : string) (v : value) :
  is_container v = true -> Forall (fun e => fst e <> None) (flatten sep None v).
Proof.
  intros Hc. destruct v as [x|l|d]; [discriminate| |].
  - rewrite flatten_list_eq. apply flatten_items_keys_some; [|constructor].
    apply Forall_forall. intros kv _ p. apply flatten_keys_some.
  - rewrite flatten_dict_eq. apply flatten_items_keys_some; [|constructor].
    apply Forall_forall. intros kv _ p. apply flatten_keys_some.
Qed.

Lemma build_flatten_succeeds (v : value) :
  is_container v = true -> unique_keys v = true -> dot_free_keys v = true ->
  exists t, build (flatten "." None v) (VDict []) = Ok t.
Proof.
  intros Hc Hu Hd. pose proof (flatten_container_keys "." v Hc) as Hk.
  rewrite (flatten_unique_dot_free v None Hu Hd) in *.
  apply (build_unobstructed _ [] []).
  - intros q x Hg Hm. apply get_path_empty_mapping in Hg. congruence.
  - intros p [].
  - apply unobstructed_intro; [|exact Hk].
    intros key s p Hin [[]|(key' & s' & Hin' & ->)].
    destruct (leaf_entry_path v key s Hc Hd Hin) as [Hq Hne].
    destruct (leaf_entry_path v key' s' Hc Hd Hin') as [Hp _].
    destruct (is_prefix (split "." key') (needed s (split "." key))) eqn:E;
      [|reflexivity].
    destruct (is_prefix_needed s _ _ Hne E) as [Hpre Hneq].
    exfalso. apply Hneq. exact (paths_prefix_free v Hu _ _ Hp Hq Hpre).
Qed.

Lemma position_key_py_str (i : nat) :
  (Z.of_nat i < max_size)%Z -> position_key (py_str (Z.of_nat i)) = true.
Proof.
  intros H. unfold position_key. rewrite py_int_str, String.eqb_refl.
  cbn [andb]. apply andb_true_iff.
  split; [apply Z.leb_le; lia|now apply Z.ltb_lt].
Qed.

Lemma keys_indexed_position {A : Type} (l : list A) (i : nat) :
  (Z.of_nat (i + length l) <= max_size)%Z ->
  Forall (fun k => position_key k = true) (keys (indexed i l)).
Proof.
  intros H. rewrite keys_indexed. apply Forall_map, Forall_forall.
  intros j Hj. apply in_seq in Hj. apply position_key_py_str. lia.
Qed.

Lemma plain_key_position (k : string) :
  negb (parses_as_int k) = true -> position_key k = true.
Proof.
  unfold parses_as_int, position_key. destruct (py_int k); [discriminate|reflexivity].
Qed.

Lemma paths_items_position (es : list (string * value)) :
  Forall (fun k => position_key k = true) (keys es) ->
  Forall (fun kv => Forall (Forall (fun s => position_key s = true))
                      (paths (snd kv))) es ->
  Forall (Forall (fun s => position_key s = true)) (paths_items es).
Proof.
  intros Hk H. induction H as [|[k x] es Hx _ IH]; [constructor|].
  rewrite paths_items_cons. inversion Hk as [|? ? Hk1 Hk2]; subst.
  apply Forall_app. split; [|exact (IH Hk2)].
  apply Forall_map. eapply Forall_impl; [|exact Hx].
  intros q Hq. now constructor.
Qed.

Lemma paths_position (v : value) :
  plain_keys v = true ->
  Forall (Forall (fun s => position_key s = true)) (paths v).
Proof.
  induction v as [s|l IH|d IH] using value_ind; intros H.
  - repeat constructor.
  - rewrite paths_list_eq. cbn [plain_keys] in H.
    apply andb_true_iff in H as [Hfit H]. apply forallb_Forall in H.
    apply paths_items_position.
    + apply keys_indexed_position. unfold fits in Hfit. now apply Z.leb_le in Hfit.
    + apply (Forall_indexed
               (fun x => Forall (Forall (fun s => position_key s = true)) (paths x))).
      exact (Forall_mp _ _ l IH H).
  - rewrite paths_dict_eq. cbn [plain_keys] in H.
    apply andb_true_iff in H as [Hk Hc].
    apply forallb_Forall in Hk, Hc.
    apply paths_items_position.
    + eapply Forall_impl; [|exact Hk]. exact plain_key_position.
    + exact (Forall_mp _ _ d IH Hc).
Qed.

Lemma forallb_keys_dict_set {V : Type} (f : string -> bool) (k : string) (v : V)
    (d : list (string * V)) :
  f k = true -> forallb f (keys d) = true ->
  forallb f (keys (dict_set String.eqb k v d)) = true.
Proof.
  intros Hk. induction d as [|[k' v'] d IH]; simpl.
  - intros _. now rewrite Hk.
  - intros H. apply andb_true_iff in H as [H1 H2].
    destruct (String.eqb k k'); simpl; rewrite H1; [exact H2|now apply IH].
Qed.

Lemma assign_position (walk : list string) (last : string) (v : scalar) :
  Forall (fun x => position_key x = true) walk -> position_key last = true ->
  forall n n', position_keys n = true -> assign walk last v n = Ok n' ->
               position_keys n' = true.
Proof.
  intros Hw Hl. induction Hw as [|part rest Hp _ IH]; intros n n' Hn; cbn [assign].
  - destruct (is_nan v); [now intros [= <-]|].
    destruct n as [s|l|d]; try discriminate. intros [= <-].
    cbn [position_keys] in *. apply andb_true_iff in Hn as [H1 H2].
    rewrite forallb_keys_dict_set by assumption.
    now apply forallb_dict_set.
  - destruct n as [s|l|d]; try discriminate. cbn [position_keys] in Hn.
    apply andb_true_iff in Hn as [H1 H2].
    destruct (assign rest last v _) as [c'|] eqn:E; cbn [bind]; [|discriminate].
    intros [= <-]. cbn [position_keys].
    rewrite forallb_keys_dict_set by assumption.
    apply forallb_dict_set; [exact H2|].
    eapply IH; [|exact E].
    destruct (dict_get String.eqb part d) as [c|] eqn:Ec; [|reflexivity].
    exact (forallb_dict_get position_keys part c d H2 Ec).
Qed.

Lemma build_position (d : flat) :
  (forall key v, In (Some key, v) d ->
                 Forall (fun x => position_key x = true) (split "." key)) ->
  forall t t', position_keys t = true -> build d t = Ok t' ->
               position_keys t' = true.
Proof.
  induction d as [|[[key|] s] d IH]; intros H t t' Ht; cbn [build].
  - now intros [= <-].
  - unfold step. cbn [fst snd].
    destruct (assign _ _ s t) as [t1|] eqn:E; cbn [bind]; [|discriminate].
    apply IH; [intros k v Hin; apply (H k v); now right|].
    pose proof (H key s (or_introl eq_refl)) as Hc.
    eapply assign_position; [| | |exact E].
    + now apply Forall_removelast.
    + apply Forall_last; [exact Hc|reflexivity].
    + exact Ht.
  - discriminate.
Qed.

Lemma convert_items_total (d : list (string * value)) :
  Forall (fun kv => exists w, convert_to_list (snd kv) = Ok w) d ->
  exists items', convert_items d = Ok items'.
Proof.
  unfold convert_items. intros H.
  induction H as [|[k x] d [w Hw] _ [r Hr]]; [now exists []|].
  exists ((k, w) :: r). cbn [mapM fst snd] in *. now rewrite Hw, Hr.
Qed.

Lemma fold_min_In (r : list Z) (x : Z) : In (fold_left Z.min r x) (x :: r).
Proof.
  revert x. induction r as [|y r IH]; intros x; [now left|].
  cbn [fold_left]. destruct (IH (Z.min x y)) as [E|Hin].
  - rewrite <- E. destruct (Z.min_spec x y) as [[_ ->]|[_ ->]];
      [now left|right; now left].
  - right. now right.
Qed.

Lemma fold_max_In (r : list Z) (x : Z) : In (fold_left Z.max r x) (x :: r).
Proof.
  revert x. induction r as [|y r IH]; intros x; [now left|].
  cbn [fold_left]. destruct (IH (Z.max x y)) as [E|Hin].
  - rewrite <- E. destruct (Z.max_spec x y) as [[_ ->]|[_ ->]];
      [right; now left|now left].
  - right. now right.
Qed.

Lemma py_min_In (l : list Z) (m : Z) : py_min l = Ok m -> In m l.
Proof. destruct l as [|x r]; [discriminate|]. intros [= <-]. apply fold_min_In. Qed.

Lemma py_max_In (l : list Z) (m : Z) : py_max l = Ok m -> In m l.
Proof. destruct l as [|x r]; [discriminate|]. intros [= <-]. apply fold_max_In. Qed.

(** On a tree whose integer keys are positions, no lookup misses and no
    range is too long. *)
Lemma convert_total (t : value) :
  position_keys t = true -> exists w, convert_to_list t = Ok w.
Proof.
  induction t as [s|l IH|d IH] using value_ind; intros H;
    [eexists; reflexivity|eexists; reflexivity|].
  cbn [position_keys] in H. apply andb_true_iff in H as [Hk Hc].
  apply forallb_Forall in Hk, Hc.
  destruct (convert_items_total d (Forall_mp _ _ d IH Hc)) as [items' Hitems].
  assert (Hfall : try_block d = Ok None \/ try_block d = Raise ValueError ->
                  exists w, convert_to_list (VDict d) = Ok w).
  { intros Hd. rewrite (convert_fall_through d Hd), Hitems. cbn [bind]. eauto. }
  destruct (mapM py_int (keys d)) as [zs|e] eqn:Ezs.
  2: { apply Hfall. right. unfold try_block. rewrite Ezs. cbn [bind].
       pose proof (mapM_py_int_error _ _ Ezs). now subst e. }
  destruct (py_min (sort zs)) as [lo|e] eqn:Elo.
  2: { apply Hfall. right. unfold try_block. rewrite Ezs. cbn [bind].
       rewrite Elo. cbn [bind]. pose proof (py_min_error _ _ Elo). now subst e. }
  destruct (py_max (sort zs)) as [hi|e] eqn:Ehi.
  2: { apply Hfall. right. unfold try_block. rewrite Ezs. cbn [bind].
       rewrite Elo. cbn [bind]. rewrite Ehi. cbn [bind].
       pose proof (py_max_error _ _ Ehi). now subst e. }
  assert (Hpos : forall k z, In k (keys d) -> py_int k = Ok z ->
                             py_str z = k /\ (0 <= z < max_size)%Z).
  { intros k z Hin Hz. rewrite Forall_forall in Hk. specialize (Hk k Hin).
    unfold position_key in Hk. rewrite Hz in Hk.
    apply andb_true_iff in Hk as [Hk H3]. apply andb_true_iff in Hk as [H1 H2].
    apply String.eqb_eq in H1. apply Z.leb_le in H2. apply Z.ltb_lt in H3.
    split; [exact H1|lia]. }
  assert (Hin_range : forall z, In z (sort zs) -> (0 <= z < max_size)%Z).
  { intros z Hz. apply (proj1 (In_sort z zs)) in Hz.
    destruct (mapM_Ok_from _ _ _ Ezs z Hz) as (k & Hin & Hkz).
    exact (proj2 (Hpos k z Hin Hkz)). }
  pose proof (Hin_range lo (py_min_In _ _ Elo)) as Hlo.
  pose proof (Hin_range hi (py_max_In _ _ Ehi)) as Hhi.
  assert (Hspan : (hi + 1 - lo <= max_size)%Z) by lia.
  pose proof (try_block_in_range d zs lo hi Ezs Elo Ehi Hspan) as Ht.
  destruct (list_Z_eqb (sort zs) (py_range lo (hi + 1))).
  - destruct (lookups_canonical d zs Ezs) as (l & Hl).
    { intros k z Hin Hz. exact (proj1 (Hpos k z Hin Hz)). }
    rewrite Hl in Ht. cbn [bind] in Ht. rewrite convert_dict_eq, Ht. eauto.
  - apply Hfall. now left.
Qed.

(** X22.  For a mapping or a sequence whose mapping keys are distinct, hold
    no ["."] and do not parse as integers, [unflatten(flatten(v))] returns
    a value: no exception, whatever NaNs, empty containers and nested
    sequences [v] holds.  The only ranges the conversion pass then builds
    lie within the positions of a sequence of [v]. *)
Theorem unflatten_flatten_returns (v : value) :
  is_container v = true -> unique_keys v = true -> dot_free_keys v = true ->
  plain_keys v = true ->
  exists w, unflatten (flatten "." None v) = Ok w.
Proof.
  intros Hc Hu Hd Hk. unfold unflatten.
  destruct (build_flatten_succeeds v Hc Hu Hd) as [t Ht]. rewrite Ht. cbn [bind].
  apply convert_total.
  apply (build_position (flatten "." None v)) with (t := VDict []);
    [|reflexivity|exact Ht].
  intros key s Hin. rewrite (flatten_unique_dot_free v None Hu Hd) in Hin.
  destruct (leaf_entry_path v key s Hc Hd Hin) as [Hp _].
  pose proof (paths_position v Hk) as Hall. rewrite Forall_forall in Hall.
  exact (Hall _ Hp).
Qed.

Lemma unflatten_flatten_returns_witness :
  is_container
    (VDict [("a", VList [VList [VScalar (SFloat FNaN)]; VDict []; VScalar (SInt 1)]);
            ("k", VScalar SNone); ("b", VList [])]) = true
  /\ plain_keys
       (VDict [("a", VList [VList [VScalar (SFloat FNaN)]; VDict []; VScalar (SInt 1)]);
               ("k", VScalar SNone); ("b", VList [])]) = true
  /\ exists w,
       unflatten
         (flatten "." None
            (VDict [("a", VList [VList [VScalar (SFloat FNaN)]; VDict []; VScalar (SInt 1)]);
                    ("k", VScalar SNone); ("b", VList [])]))
       = Ok w.
Proof.
  split; [reflexivity|]. split; [reflexivity|].
  exact (unflatten_flatten_returns
           (VDict [("a", VList [VList [VScalar (SFloat FNaN)]; VDict []; VScalar (SInt 1)]);
                   ("k", VScalar SNone); ("b", VList [])])
           eq_refl eq_refl eq_refl eq_refl).
Defined.
